(** * consul_exporter: the collection pipeline of [consul_exporter.go]

    A shallow embedding of the exporter's scrape cycle: the dispatcher
    [queryClient], the aggregator [setMetrics], the key/value stage
    [setKeyValues] and the orchestration in [Collect], followed by the
    properties of the pipeline.

    Conventions of the embedding.
    - A Go [string] is a [string] (a sequence of bytes); [+] on strings is
      [+:+].
    - A Go [int] is a [Z]; the one place where the code adds to an [int]
      (the running sums) goes through [int_add], which wraps at 64 bits.
      [len] of a slice is [Z.of_nat (length _)].
    - A [prometheus.GaugeVec] is a finite map from the list of label values
      given to [WithLabelValues] to the value last [Set]; [Reset] empties it.
    - A gauge that the code only ever sets from an [int] holds that [int]:
      [float64(n)] is exact for [|n| <= 2^53].  The key/value gauge holds the
      [float64] returned by [strconv.ParseFloat], a type left abstract.
    - Calls to the [log] package do not touch the exporter; the dispatcher
      records its error logs in its trace, the aggregator's logs are left out.
    - Pointers in the decoded responses are taken to be non-nil. *)

From Stdlib Require Import ZArith Lia.
From stdpp Require Import base tactics option list strings gmap functions relations.

Local Open Scope string_scope.
Local Open Scope list_scope.
Local Open Scope Z_scope.

(** ** Machine integers *)

Definition int_max : Z := 2 ^ 63 - 1.

(** Two's complement wrap-around of a 64-bit [int]. *)
Definition int_wrap (z : Z) : Z := (z + 2 ^ 63) `mod` 2 ^ 64 - 2 ^ 63.

Definition int_add (a b : Z) : Z := int_wrap (a + b).

(** ** Data returned by the Consul API (package [consul_api]) *)

Module HealthCheck.
Record t : Type := mk
  { Node : string; CheckID : string; Status : string; ServiceID : string }.
End HealthCheck.

Module AgentService.
Record t : Type := mk { Service : string }.
End AgentService.

Module Node.
Record t : Type := mk { Node : string }.
End Node.

Module ServiceEntry.
Record t : Type := mk
  { Node : Node.t; Service : AgentService.t; Checks : list HealthCheck.t }.
End ServiceEntry.

Module KVPair.
(** [Value] is a [[]byte]; [string(pair.Value)] is the same bytes. *)
Record t : Type := mk { Key : string; Value : string }.
End KVPair.

(** [consul.HealthPassing] is declared in [consul/structs], outside this
    file; the comment above the check loop of [setMetrics] gives its value. *)
Definition HealthPassing : string := "passing".

(** A Go [error] value, by its message. *)
Definition error : Type := string.

(** What the backend answers during one scrape.  Every call returns its
    value together with its [err] ([None] is [nil]), as in Go.
    [Catalog_Services] is the returned [map[string][]string] written as the
    list of its bindings in the order in which this run's [range] visits
    them. *)
Record Client : Type := mkClient
  { Status_Peers : list string * option error;
    Catalog_Nodes : list Node.t * option error;
    Catalog_Services : list (string * list string) * option error;
    Health_Service : string -> list ServiceEntry.t * option error;
    Health_State : list HealthCheck.t * option error;
    KV_List : string -> list KVPair.t * option error }.

(** The backend calls the exporter can issue. *)
Inductive Query : Type :=
| QPeers
| QNodes
| QServices
| QHealthService (s : string)
| QHealthState
| QKVList (prefix : string).

(** ** The dispatcher, [queryClient] *)

(** The goroutine running [queryClient] is a single sequential thread: given
    the backend's answers it performs a fixed sequence of atomic actions. *)
Inductive Action : Type :=
| ACall (q : Query)
| AUp (v : Z)
| AClusterServers (v : Z)
| ANodeCount (v : Z)
| AServiceCount (v : Z)
| ALogError
| ASendServices (s_entries : list ServiceEntry.t)
| ASendChecks (c_entries : list HealthCheck.t)
| ACloseChecks
| ACloseServices.

(** One iteration of [for s := range serviceNames]. *)
Definition service_body (c : Client) (s : string) : list Action :=
  let '(s_entries, err) := Health_Service c s in
  ACall (QHealthService s) ::
  match err with
  | Some _ => [ALogError]
  | None => [ASendServices s_entries]
  end.

(** The body of [queryClient], up to its return. *)
Definition queryClient_body (c : Client) : list Action :=
  let '(peers, err) := Status_Peers c in
  ACall QPeers ::
  match err with
  | Some _ => [AUp 0; ALogError]
  | None =>
      AUp 1 :: AClusterServers (Z.of_nat (length peers)) ::
      (let '(nodes, err) := Catalog_Nodes c in
       ACall QNodes ::
       match err with
       | Some _ => []
       | None => [ANodeCount (Z.of_nat (length nodes))]
       end) ++
      (let '(serviceNames, err) := Catalog_Services c in
       ACall QServices :: AServiceCount (Z.of_nat (length serviceNames)) ::
       match err with
       | Some _ => []
       | None =>
           AServiceCount (Z.of_nat (length serviceNames)) ::
           flat_map (service_body c) (map fst serviceNames) ++
           (let '(c_entries, err) := Health_State c in
            ACall QHealthState ::
            match err with
            | Some _ => [ALogError]
            | None => [ASendChecks c_entries]
            end)
       end)
  end.

(** [queryClient]: the body, then the two deferred closes, last deferred
    first. *)
Definition queryClient (c : Client) : list Action :=
  queryClient_body c ++ [ACloseChecks; ACloseServices].

(** The values a trace puts on the two channels, in order. *)
Inductive Sent : Type :=
| SentServices (s_entries : list ServiceEntry.t)
| SentChecks (c_entries : list HealthCheck.t).

Definition sent_of (a : Action) : option Sent :=
  match a with
  | ASendServices b => Some (SentServices b)
  | ASendChecks c => Some (SentChecks c)
  | _ => None
  end.

Definition sends (tr : list Action) : list Sent := omap sent_of tr.

(** The backend calls of a trace, in order. *)
Definition call_of (a : Action) : option Query :=
  match a with ACall q => Some q | _ => None end.

Definition calls (tr : list Action) : list Query := omap call_of tr.

(** An action the dispatcher performs on its own; a send needs the
    aggregator to receive. *)
Definition internal (a : Action) : bool :=
  match a with
  | ASendServices _ | ASendChecks _ => false
  | _ => true
  end.

Section Exporter.

Context {float64 : Type}.

(** [strconv.ParseFloat(s, 64)]: [Some val] when [err == nil]. *)
Variable ParseFloat : string -> option float64.

(** ** The exporter *)

(** [kvFilter] is the compiled pattern, by its [MatchString]. *)
Record Exporter : Type := mkExporter
  { up : Z;
    clusterServers : Z;
    nodeCount : Z;
    serviceCount : Z;
    serviceNodesTotal : gmap (list string) Z;
    serviceNodesHealthy : gmap (list string) Z;
    nodeChecks : gmap (list string) Z;
    keyValues : gmap (list string) float64;
    serviceEntriesNodesTotal : gmap (list string) Z;
    serviceEntriesNodesHealthy : gmap (list string) Z;
    kvPrefix : string;
    kvFilter : string -> bool }.

Definition set_up (v : Z) (e : Exporter) : Exporter :=
  mkExporter v (clusterServers e) (nodeCount e) (serviceCount e)
    (serviceNodesTotal e) (serviceNodesHealthy e) (nodeChecks e) (keyValues e)
    (serviceEntriesNodesTotal e) (serviceEntriesNodesHealthy e)
    (kvPrefix e) (kvFilter e).

Definition set_clusterServers (v : Z) (e : Exporter) : Exporter :=
  mkExporter (up e) v (nodeCount e) (serviceCount e)
    (serviceNodesTotal e) (serviceNodesHealthy e) (nodeChecks e) (keyValues e)
    (serviceEntriesNodesTotal e) (serviceEntriesNodesHealthy e)
    (kvPrefix e) (kvFilter e).

Definition set_nodeCount (v : Z) (e : Exporter) : Exporter :=
  mkExporter (up e) (clusterServers e) v (serviceCount e)
    (serviceNodesTotal e) (serviceNodesHealthy e) (nodeChecks e) (keyValues e)
    (serviceEntriesNodesTotal e) (serviceEntriesNodesHealthy e)
    (kvPrefix e) (kvFilter e).

Definition set_serviceCount (v : Z) (e : Exporter) : Exporter :=
  mkExporter (up e) (clusterServers e) (nodeCount e) v
    (serviceNodesTotal e) (serviceNodesHealthy e) (nodeChecks e) (keyValues e)
    (serviceEntriesNodesTotal e) (serviceEntriesNodesHealthy e)
    (kvPrefix e) (kvFilter e).

Definition with_serviceNodesTotal (m : gmap (list string) Z) (e : Exporter) : Exporter :=
  mkExporter (up e) (clusterServers e) (nodeCount e) (serviceCount e)
    m (serviceNodesHealthy e) (nodeChecks e) (keyValues e)
    (serviceEntriesNodesTotal e) (serviceEntriesNodesHealthy e)
    (kvPrefix e) (kvFilter e).

Definition with_serviceNodesHealthy (m : gmap (list string) Z) (e : Exporter) : Exporter :=
  mkExporter (up e) (clusterServers e) (nodeCount e) (serviceCount e)
    (serviceNodesTotal e) m (nodeChecks e) (keyValues e)
    (serviceEntriesNodesTotal e) (serviceEntriesNodesHealthy e)
    (kvPrefix e) (kvFilter e).

Definition with_nodeChecks (m : gmap (list string) Z) (e : Exporter) : Exporter :=
  mkExporter (up e) (clusterServers e) (nodeCount e) (serviceCount e)
    (serviceNodesTotal e) (serviceNodesHealthy e) m (keyValues e)
    (serviceEntriesNodesTotal e) (serviceEntriesNodesHealthy e)
    (kvPrefix e) (kvFilter e).

Definition with_keyValues (m : gmap (list string) float64) (e : Exporter) : Exporter :=
  mkExporter (up e) (clusterServers e) (nodeCount e) (serviceCount e)
    (serviceNodesTotal e) (serviceNodesHealthy e) (nodeChecks e) m
    (serviceEntriesNodesTotal e) (serviceEntriesNodesHealthy e)
    (kvPrefix e) (kvFilter e).

Definition with_serviceEntriesNodesTotal (m : gmap (list string) Z) (e : Exporter) : Exporter :=
  mkExporter (up e) (clusterServers e) (nodeCount e) (serviceCount e)
    (serviceNodesTotal e) (serviceNodesHealthy e) (nodeChecks e) (keyValues e)
    m (serviceEntriesNodesHealthy e)
    (kvPrefix e) (kvFilter e).

Definition with_serviceEntriesNodesHealthy (m : gmap (list string) Z) (e : Exporter) : Exporter :=
  mkExporter (up e) (clusterServers e) (nodeCount e) (serviceCount e)
    (serviceNodesTotal e) (serviceNodesHealthy e) (nodeChecks e) (keyValues e)
    (serviceEntriesNodesTotal e) m
    (kvPrefix e) (kvFilter e).

(** ** The aggregator, [setMetrics] *)

(** The loop over [entry.Checks]: [passing] starts at 1 and the first check
    whose status is not [HealthPassing] sets it to 0 and breaks. *)
Fixpoint passing_loop (checks : list HealthCheck.t) : Z :=
  match checks with
  | [] => 1
  | hc :: rest =>
      if negb (String.eqb (HealthCheck.Status hc) HealthPassing) then 0
      else passing_loop rest
  end.

(** Reading a [map[string]int]: a missing key reads as 0. *)
Definition map_get (m : gmap string Z) (k : string) : Z := default 0 (m !! k).

(** The label values of a service entry. *)
Definition entry_labels (entry : ServiceEntry.t) : list string :=
  [AgentService.Service (ServiceEntry.Service entry);
   Node.Node (ServiceEntry.Node entry)].

(** The key of the two local maps. *)
Definition serviceNode (entry : ServiceEntry.t) : string :=
  AgentService.Service (ServiceEntry.Service entry) +:+ "-" +:+
  Node.Node (ServiceEntry.Node entry).

(** The state threaded through the loop over one batch: the exporter and the
    two local maps [serviceEntriesNodesTotal] and
    [serviceEntriesNodesHealthy] of [setMetrics]. *)
Record BatchState : Type := mkBatchState
  { bs_exporter : Exporter;
    bs_total : gmap string Z;
    bs_healthy : gmap string Z }.

(** One iteration of [for _, entry := range service]. *)
Definition entry_body (st : BatchState) (entry : ServiceEntry.t) : BatchState :=
  let passing := passing_loop (ServiceEntry.Checks entry) in
  let serviceNodeTotal := int_add (map_get (bs_total st) (serviceNode entry)) 1 in
  let total := <[serviceNode entry := serviceNodeTotal]> (bs_total st) in
  let serviceNodeHealthy0 := map_get (bs_healthy st) (serviceNode entry) in
  let serviceNodeHealthy :=
    if Z.eqb passing 1 then int_add serviceNodeHealthy0 1 else serviceNodeHealthy0 in
  let healthy :=
    if Z.eqb passing 1 then <[serviceNode entry := serviceNodeHealthy]> (bs_healthy st)
    else bs_healthy st in
  let e := bs_exporter st in
  let e := with_serviceNodesHealthy
             (<[entry_labels entry := passing]> (serviceNodesHealthy e)) e in
  let e := with_serviceEntriesNodesTotal
             (<[entry_labels entry := serviceNodeTotal]> (serviceEntriesNodesTotal e)) e in
  let e := with_serviceEntriesNodesHealthy
             (<[entry_labels entry := serviceNodeHealthy]> (serviceEntriesNodesHealthy e)) e in
  mkBatchState e total healthy.

(** The [services] case of the [select]: the received batch and the flag [b]
    of the receive; returns the exporter and the new value of [running]. *)
Definition case_services (e : Exporter) (service : list ServiceEntry.t) (b : bool)
  : Exporter * bool :=
  match service with
  | [] => (e, b)
  | first :: _ =>
      let e := with_serviceNodesTotal
                 (<[[AgentService.Service (ServiceEntry.Service first)]
                    := Z.of_nat (length service)]> (serviceNodesTotal e)) e in
      (bs_exporter (foldl entry_body (mkBatchState e ∅ ∅) service), b)
  end.

(** One iteration of [for _, hc := range entry] in the [checks] case. *)
Definition check_body (e : Exporter) (hc : HealthCheck.t) : Exporter :=
  if String.eqb (HealthCheck.ServiceID hc) "" then
    let passing :=
      if negb (String.eqb (HealthCheck.Status hc) HealthPassing) then 0 else 1 in
    with_nodeChecks
      (<[[HealthCheck.CheckID hc; HealthCheck.Node hc] := passing]> (nodeChecks e)) e
  else e.

(** The [checks] case of the [select]. *)
Definition case_checks (e : Exporter) (entry : list HealthCheck.t) (b : bool)
  : Exporter * bool :=
  (foldl check_body e entry, b).

(** ** The key/value stage, [setKeyValues] *)

Definition pair_body (e : Exporter) (pair : KVPair.t) : Exporter :=
  if kvFilter e (KVPair.Key pair) then
    match ParseFloat (KVPair.Value pair) with
    | Some val => with_keyValues (<[[KVPair.Key pair] := val]> (keyValues e)) e
    | None => e
    end
  else e.

(** Returns the exporter and the backend calls issued. *)
Definition setKeyValues (c : Client) (e : Exporter) : Exporter * list Query :=
  if String.eqb (kvPrefix e) "" then (e, [])
  else
    let '(pairs, err) := KV_List c (kvPrefix e) in
    match err with
    | Some _ => (e, [QKVList (kvPrefix e)])
    | None => (foldl pair_body e pairs, [QKVList (kvPrefix e)])
    end.

(** ** The aggregator run on a sequence of received values *)

(** The five vector gauges [Collect] resets before [setMetrics]. *)
Definition reset_health (e : Exporter) : Exporter :=
  with_nodeChecks ∅
    (with_serviceEntriesNodesHealthy ∅
       (with_serviceEntriesNodesTotal ∅
          (with_serviceNodesHealthy ∅ (with_serviceNodesTotal ∅ e)))).

(** One iteration of the [select] loop that receives a sent value (so the
    flag of the receive is [true]). *)
Definition consume (e : Exporter) (v : Sent) : Exporter :=
  match v with
  | SentServices b => fst (case_services e b true)
  | SentChecks c => fst (case_checks e c true)
  end.

Definition drain (e : Exporter) (vs : list Sent) : Exporter := foldl consume e vs.

(** What one [select] of [setMetrics] receives: a value of one of the two
    channels with the flag of the receive; a closed channel yields [nil] and
    [false]. *)
Inductive Received : Type :=
| RecvServices (service : list ServiceEntry.t) (b : bool)
| RecvChecks (entry : list HealthCheck.t) (b : bool).

Definition select_case (e : Exporter) (r : Received) : Exporter * bool :=
  match r with
  | RecvServices service b => case_services e service b
  | RecvChecks entry b => case_checks e entry b
  end.

(** [setMetrics] on the sequence of receives of its [select]: the loop runs
    while [running]. *)
Fixpoint setMetrics (e : Exporter) (rs : list Received) : Exporter :=
  match rs with
  | [] => e
  | r :: rs =>
      let '(e, running) := select_case e r in
      if running then setMetrics e rs else e
  end.

Definition received (v : Sent) : Received :=
  match v with
  | SentServices service => RecvServices service true
  | SentChecks entry => RecvChecks entry true
  end.

(** ** [Collect] and the goroutines of concurrent scrapes *)

(** The effect of a dispatcher action on the exporter. *)
Definition action_exporter (a : Action) (e : Exporter) : Exporter :=
  match a with
  | AUp v => set_up v e
  | AClusterServers v => set_clusterServers v e
  | ANodeCount v => set_nodeCount v e
  | AServiceCount v => set_serviceCount v e
  | _ => e
  end.

(** Where the goroutine running [Collect] stands: before the [go] statement,
    before [Lock], before the five [Reset]s, at the head of the loop of
    [setMetrics] with the current value of [running], before the metrics are
    handed to [ch], before [keyValues.Reset], before [setKeyValues], before
    [keyValues.Collect], before the deferred [Unlock], returned. *)
Inductive PC : Type :=
| PGo
| PLock
| PReset
| PSetMetrics (running : bool)
| PCollect
| PResetKV
| PSetKeyValues
| PCollectKV
| PUnlock
| PDone.

(** One call of [Collect]: its program point, what is left of the trace of
    its dispatcher goroutine ([None] before the [go] statement), and whether
    its two channels are closed. *)
Record Scrape : Type := mkScrape
  { pc : PC;
    dispatcher : option (list Action);
    services_closed : bool;
    checks_closed : bool }.

(** The exporter shared by all calls of [Collect], with its [mutex] (the
    index of the call that holds it). *)
Record World : Type := mkWorld
  { exporter : Exporter;
    mutex : option nat;
    scrapes : nat -> Scrape }.

Definition init (e : Exporter) : World :=
  mkWorld e None (fun _ => mkScrape PGo None false false).

Definition action_scrape (a : Action) (rest : list Action) (s : Scrape) : Scrape :=
  match a with
  | ACloseChecks => mkScrape (pc s) (Some rest) (services_closed s) true
  | ACloseServices => mkScrape (pc s) (Some rest) true (checks_closed s)
  | _ => mkScrape (pc s) (Some rest) (services_closed s) (checks_closed s)
  end.

Definition at_pc (p : PC) (s : Scrape) : Scrape :=
  mkScrape p (dispatcher s) (services_closed s) (checks_closed s).

(** The exporter after the dispatcher's own actions of a trace, run without
    interference. *)
Definition dispatch_effect (e : Exporter) (tr : list Action) : Exporter :=
  foldl (fun e a => action_exporter a e) e tr.

Section Steps.

(** Call [i] of [Collect] is answered by the backend as [clients i]. *)
Variable clients : nat -> Client.

(** A step of the dispatcher goroutine of call [i] on its own. *)
Inductive dispatcher_step (i : nat) (w : World) : World -> Prop :=
| d_internal a rest :
    dispatcher (scrapes w i) = Some (a :: rest) ->
    internal a = true ->
    dispatcher_step i w
      (mkWorld (action_exporter a (exporter w)) (mutex w)
         (<[i := action_scrape a rest (scrapes w i)]> (scrapes w))).

(** A step of the goroutine running call [i] of [Collect]; a receive of a
    sent value is a joint step with the dispatcher, the channels being
    unbuffered. *)
Inductive collector_step (i : nat) (w : World) : World -> Prop :=
| c_go :
    pc (scrapes w i) = PGo ->
    collector_step i w
      (mkWorld (exporter w) (mutex w)
         (<[i := mkScrape PLock (Some (queryClient (clients i))) false false]> (scrapes w)))
| c_lock :
    pc (scrapes w i) = PLock ->
    mutex w = None ->
    collector_step i w
      (mkWorld (exporter w) (Some i) (<[i := at_pc PReset (scrapes w i)]> (scrapes w)))
| c_reset :
    pc (scrapes w i) = PReset ->
    collector_step i w
      (mkWorld (reset_health (exporter w)) (mutex w)
         (<[i := at_pc (PSetMetrics true) (scrapes w i)]> (scrapes w)))
| c_recv_services service rest :
    pc (scrapes w i) = PSetMetrics true ->
    dispatcher (scrapes w i) = Some (ASendServices service :: rest) ->
    collector_step i w
      (mkWorld (fst (case_services (exporter w) service true)) (mutex w)
         (<[i := mkScrape (PSetMetrics (snd (case_services (exporter w) service true)))
                   (Some rest) (services_closed (scrapes w i)) (checks_closed (scrapes w i))]>
            (scrapes w)))
| c_recv_checks entry rest :
    pc (scrapes w i) = PSetMetrics true ->
    dispatcher (scrapes w i) = Some (ASendChecks entry :: rest) ->
    collector_step i w
      (mkWorld (fst (case_checks (exporter w) entry true)) (mutex w)
         (<[i := mkScrape (PSetMetrics (snd (case_checks (exporter w) entry true)))
                   (Some rest) (services_closed (scrapes w i)) (checks_closed (scrapes w i))]>
            (scrapes w)))
| c_closed_services :
    pc (scrapes w i) = PSetMetrics true ->
    services_closed (scrapes w i) = true ->
    collector_step i w
      (mkWorld (fst (case_services (exporter w) [] false)) (mutex w)
         (<[i := at_pc (PSetMetrics (snd (case_services (exporter w) [] false))) (scrapes w i)]>
            (scrapes w)))
| c_closed_checks :
    pc (scrapes w i) = PSetMetrics true ->
    checks_closed (scrapes w i) = true ->
    collector_step i w
      (mkWorld (fst (case_checks (exporter w) [] false)) (mutex w)
         (<[i := at_pc (PSetMetrics (snd (case_checks (exporter w) [] false))) (scrapes w i)]>
            (scrapes w)))
| c_exit :
    pc (scrapes w i) = PSetMetrics false ->
    collector_step i w
      (mkWorld (exporter w) (mutex w) (<[i := at_pc PCollect (scrapes w i)]> (scrapes w)))
| c_collect :
    pc (scrapes w i) = PCollect ->
    collector_step i w
      (mkWorld (exporter w) (mutex w) (<[i := at_pc PResetKV (scrapes w i)]> (scrapes w)))
| c_reset_kv :
    pc (scrapes w i) = PResetKV ->
    collector_step i w
      (mkWorld (with_keyValues ∅ (exporter w)) (mutex w)
         (<[i := at_pc PSetKeyValues (scrapes w i)]> (scrapes w)))
| c_set_kv :
    pc (scrapes w i) = PSetKeyValues ->
    collector_step i w
      (mkWorld (fst (setKeyValues (clients i) (exporter w))) (mutex w)
         (<[i := at_pc PCollectKV (scrapes w i)]> (scrapes w)))
| c_collect_kv :
    pc (scrapes w i) = PCollectKV ->
    collector_step i w
      (mkWorld (exporter w) (mutex w) (<[i := at_pc PUnlock (scrapes w i)]> (scrapes w)))
| c_unlock :
    pc (scrapes w i) = PUnlock ->
    collector_step i w
      (mkWorld (exporter w) None (<[i := at_pc PDone (scrapes w i)]> (scrapes w))).

Definition step (w w' : World) : Prop :=
  exists i, collector_step i w w' \/ dispatcher_step i w w'.

(** The worlds reachable from the exporter [e0] left by earlier scrapes. *)
Definition reachable (e0 : Exporter) (w : World) : Prop := rtc step (init e0) w.

(** *** A scheduler

    The steps as functions: the step of the given goroutine of call [i], if
    it is enabled.  In the loop of [setMetrics] a pending send is received
    before a closed channel is looked at. *)
Inductive Move : Type :=
| Collector (i : nat)
| Dispatcher (i : nat).

Definition dispatcher_move (i : nat) (w : World) : option World :=
  match dispatcher (scrapes w i) with
  | Some (a :: rest) =>
      if internal a then
        Some (mkWorld (action_exporter a (exporter w)) (mutex w)
                (<[i := action_scrape a rest (scrapes w i)]> (scrapes w)))
      else None
  | _ => None
  end.

Definition receive_move (i : nat) (w : World) : option World :=
  match dispatcher (scrapes w i) with
  | Some (ASendServices service :: rest) =>
      Some (mkWorld (fst (case_services (exporter w) service true)) (mutex w)
              (<[i := mkScrape (PSetMetrics (snd (case_services (exporter w) service true)))
                        (Some rest) (services_closed (scrapes w i))
                        (checks_closed (scrapes w i))]> (scrapes w)))
  | Some (ASendChecks entry :: rest) =>
      Some (mkWorld (fst (case_checks (exporter w) entry true)) (mutex w)
              (<[i := mkScrape (PSetMetrics (snd (case_checks (exporter w) entry true)))
                        (Some rest) (services_closed (scrapes w i))
                        (checks_closed (scrapes w i))]> (scrapes w)))
  | _ =>
      if checks_closed (scrapes w i) then
        Some (mkWorld (fst (case_checks (exporter w) [] false)) (mutex w)
                (<[i := at_pc (PSetMetrics (snd (case_checks (exporter w) [] false)))
                          (scrapes w i)]> (scrapes w)))
      else if services_closed (scrapes w i) then
        Some (mkWorld (fst (case_services (exporter w) [] false)) (mutex w)
                (<[i := at_pc (PSetMetrics (snd (case_services (exporter w) [] false)))
                          (scrapes w i)]> (scrapes w)))
      else None
  end.

Definition collector_move (i : nat) (w : World) : option World :=
  match pc (scrapes w i) with
  | PGo =>
      Some (mkWorld (exporter w) (mutex w)
              (<[i := mkScrape PLock (Some (queryClient (clients i))) false false]> (scrapes w)))
  | PLock =>
      match mutex w with
      | None =>
          Some (mkWorld (exporter w) (Some i) (<[i := at_pc PReset (scrapes w i)]> (scrapes w)))
      | Some _ => None
      end
  | PReset =>
      Some (mkWorld (reset_health (exporter w)) (mutex w)
              (<[i := at_pc (PSetMetrics true) (scrapes w i)]> (scrapes w)))
  | PSetMetrics true => receive_move i w
  | PSetMetrics false =>
      Some (mkWorld (exporter w) (mutex w) (<[i := at_pc PCollect (scrapes w i)]> (scrapes w)))
  | PCollect =>
      Some (mkWorld (exporter w) (mutex w) (<[i := at_pc PResetKV (scrapes w i)]> (scrapes w)))
  | PResetKV =>
      Some (mkWorld (with_keyValues ∅ (exporter w)) (mutex w)
              (<[i := at_pc PSetKeyValues (scrapes w i)]> (scrapes w)))
  | PSetKeyValues =>
      Some (mkWorld (fst (setKeyValues (clients i) (exporter w))) (mutex w)
              (<[i := at_pc PCollectKV (scrapes w i)]> (scrapes w)))
  | PCollectKV =>
      Some (mkWorld (exporter w) (mutex w) (<[i := at_pc PUnlock (scrapes w i)]> (scrapes w)))
  | PUnlock =>
      Some (mkWorld (exporter w) None (<[i := at_pc PDone (scrapes w i)]> (scrapes w)))
  | PDone => None
  end.

Definition do_move (m : Move) (w : World) : option World :=
  match m with
  | Collector i => collector_move i w
  | Dispatcher i => dispatcher_move i w
  end.

(** The world after a schedule; a move that is not enabled is skipped. *)
Definition run (ms : list Move) (w : World) : World :=
  foldl (fun w m => default w (do_move m w)) w ms.

End Steps.

End Exporter.

(** ** Notions the properties are stated with *)

(** Every check of the list has status [Passing]. *)
Definition all_passing (checks : list HealthCheck.t) : Prop :=
  Forall (fun hc => HealthCheck.Status hc = HealthPassing) checks.

(** The number of entries of a batch observed with the label values [lv]. *)
Definition count_labels (lv : list string) (batch : list ServiceEntry.t) : Z :=
  Z.of_nat (length (filter (fun x => entry_labels x = lv) batch)).

(** The number of those whose checks are all passing. *)
Definition count_labels_passing (lv : list string) (batch : list ServiceEntry.t) : Z :=
  Z.of_nat (length (filter (fun x => entry_labels x = lv /\ passing_loop (ServiceEntry.Checks x) = 1) batch)).

(** The same two counts by the key of the local maps of [setMetrics]. *)
Definition count_serviceNode (k : string) (batch : list ServiceEntry.t) : Z :=
  Z.of_nat (length (filter (fun x => serviceNode x = k) batch)).

Definition count_serviceNode_passing (k : string) (batch : list ServiceEntry.t) : Z :=
  Z.of_nat (length (filter (fun x => serviceNode x = k /\ passing_loop (ServiceEntry.Checks x) = 1) batch)).

(** The service batches among the values received in a cycle. *)
Definition batch_of (v : Sent) : option (list ServiceEntry.t) :=
  match v with SentServices b => Some b | SentChecks _ => None end.

Definition batches (vs : list Sent) : list (list ServiceEntry.t) := omap batch_of vs.

(** The number of entries observed with the label values [lv] in a whole
    cycle. *)
Definition count_labels_cycle (lv : list string) (vs : list Sent) : Z :=
  foldr (fun b n => count_labels lv b + n) 0 (batches vs).

(** The batch a health query for the service [s] puts on the channel, if the
    query succeeds. *)
Definition service_batch (c : Client) (s : string) : option (list ServiceEntry.t) :=
  match Health_Service c s with
  | (s_entries, None) => Some s_entries
  | (_, Some _) => None
  end.

(** The services whose health is queried by a trace, in order. *)
Definition health_call_of (a : Action) : option string :=
  match a with ACall (QHealthService s) => Some s | _ => None end.

Definition health_calls (tr : list Action) : list string := omap health_call_of tr.

(** The five vector gauges written by [setMetrics]. *)
Definition health {float64 : Type} (e : @Exporter float64) :=
  (serviceNodesTotal e, serviceNodesHealthy e, serviceEntriesNodesTotal e,
   serviceEntriesNodesHealthy e, nodeChecks e).

(** An exporter whose gauges are all zero or empty. *)
Definition blank {float64 : Type} : @Exporter float64 :=
  mkExporter 0 0 0 0 ∅ ∅ ∅ ∅ ∅ ∅ "" (fun _ => false).

(** What [setMetrics] leaves in the five gauges once it has received [vs],
    starting from the reset gauges; the type of the key/value gauge plays no
    part in it. *)
Definition health_of (vs : list Sent) :=
  health (drain (@blank unit) vs).

(** In the entry gauges, every healthy count comes with a total at least as
    large. *)
Definition healthy_le_total {float64 : Type} (e : @Exporter float64) : Prop :=
  forall lv h, serviceEntriesNodesHealthy e !! lv = Some h ->
    exists t, serviceEntriesNodesTotal e !! lv = Some t /\ 0 <= h <= t.

(** The exporter with which the loop over a non-empty batch starts. *)
Definition batch_start {float64 : Type} (e : @Exporter float64)
    (x : ServiceEntry.t) (batch : list ServiceEntry.t) : @Exporter float64 :=
  with_serviceNodesTotal
    (<[[AgentService.Service (ServiceEntry.Service x)]
       := Z.of_nat (length (x :: batch))]> (serviceNodesTotal e)) e.

(** A received value that does not mention the label values [lv]. *)
Definition silent_on (lv : list string) (v : Sent) : Prop :=
  match v with
  | SentServices batch => forall y, y ∈ batch -> entry_labels y <> lv
  | SentChecks _ => True
  end.

(** The batches of a cycle fit a Go slice. *)
Definition short_batches (vs : list Sent) : Prop :=
  forall batch, batch ∈ batches vs -> Z.of_nat (length batch) <= int_max.

(** The label values under which a cycle that received [vs] has data: the
    service of the first entry of a non-empty batch, the (service, node) pair
    of an entry of a batch, the (check, node) pair of a check that is not
    bound to a service. *)
Definition service_observed (vs : list Sent) (lv : list string) : Prop :=
  exists x batch, SentServices (x :: batch) ∈ vs
                  /\ lv = [AgentService.Service (ServiceEntry.Service x)].

Definition entry_observed (vs : list Sent) (lv : list string) : Prop :=
  exists batch y, SentServices batch ∈ vs /\ y ∈ batch /\ lv = entry_labels y.

Definition check_observed (vs : list Sent) (lv : list string) : Prop :=
  exists entry hc, SentChecks entry ∈ vs /\ hc ∈ entry
                   /\ HealthCheck.ServiceID hc = ""
                   /\ lv = [HealthCheck.CheckID hc; HealthCheck.Node hc].

(** The three gauges labelled by (service, node) all have a value under
    [lv]. *)
Definition has_entry_labels {float64 : Type} (e : @Exporter float64) (lv : list string) : Prop :=
  is_Some (serviceNodesHealthy e !! lv)
  /\ is_Some (serviceEntriesNodesTotal e !! lv)
  /\ is_Some (serviceEntriesNodesHealthy e !! lv).

(** One of them has. *)
Definition any_entry_labels {float64 : Type} (e : @Exporter float64) (lv : list string) : Prop :=
  is_Some (serviceNodesHealthy e !! lv)
  \/ is_Some (serviceEntriesNodesTotal e !! lv)
  \/ is_Some (serviceEntriesNodesHealthy e !! lv).

(** ** The invariant of concurrent scrapes *)

Definition is_close_checks (a : Action) : bool :=
  match a with ACloseChecks => true | _ => false end.

Definition is_close_services (a : Action) : bool :=
  match a with ACloseServices => true | _ => false end.

(** The program points of [Collect] between [Lock] and [Unlock]. *)
Definition holds_lock (p : PC) : bool :=
  match p with
  | PGo | PLock | PDone => false
  | _ => true
  end.

(** The program points of [Collect] after the loop of [setMetrics] has ended
    and before [Unlock] has run, and those after [setKeyValues]. *)
Definition past_setMetrics (p : PC) : bool :=
  match p with
  | PSetMetrics false | PCollect | PResetKV | PSetKeyValues | PCollectKV | PUnlock => true
  | _ => false
  end.

Definition past_setKeyValues (p : PC) : bool :=
  match p with
  | PCollectKV | PUnlock => true
  | _ => false
  end.

Section Invariant.

Context {float64 : Type}.
Variable ParseFloat : string -> option float64.

(** What [keyValues.Reset] followed by [setKeyValues] leaves in the
    key/value gauge. *)
Definition kv_of (c : Client) (e : @Exporter float64) : gmap (list string) float64 :=
  keyValues (fst (setKeyValues ParseFloat c (with_keyValues ∅ e))).

(** What holds of call [i] of [Collect], answered as [c], in a reachable
    world: it holds the mutex exactly between [Lock] and [Unlock]; its
    dispatcher has performed a prefix [done] of its trace, and the channels
    are closed when the closes are in that prefix; while it runs
    [setMetrics] the five gauges are what the values sent so far give from
    the reset gauges, after [setMetrics] what all the values of the trace
    give, and after [setKeyValues] the key/value gauge is what this call's
    listing gives. *)
Definition scrape_inv (c : Client) (w : @World float64) (i : nat) : Prop :=
  let s := scrapes w i in
  (holds_lock (pc s) = true <-> mutex w = Some i)
  /\ match dispatcher s with
     | None => pc s = PGo /\ services_closed s = false /\ checks_closed s = false
     | Some rest =>
         pc s <> PGo
         /\ exists done,
              queryClient c = done ++ rest
              /\ services_closed s = existsb is_close_services done
              /\ checks_closed s = existsb is_close_checks done
              /\ match pc s with
                 | PGo | PLock | PReset => sends done = []
                 | PSetMetrics running =>
                     health (exporter w) = health_of (sends done)
                     /\ (running = false -> checks_closed s = true)
                 | PCollect | PResetKV =>
                     health (exporter w) = health_of (sends (queryClient c))
                 | PSetKeyValues =>
                     health (exporter w) = health_of (sends (queryClient c))
                     /\ keyValues (exporter w) = ∅
                 | PCollectKV | PUnlock =>
                     health (exporter w) = health_of (sends (queryClient c))
                     /\ keyValues (exporter w) = kv_of c (exporter w)
                 | PDone => True
                 end
     end.

Definition world_inv (clients : nat -> Client) (e0 : @Exporter float64)
    (w : @World float64) : Prop :=
  (forall i, scrape_inv (clients i) w i)
  /\ kvPrefix (exporter w) = kvPrefix e0
  /\ kvFilter (exporter w) = kvFilter e0.

End Invariant.

(** ** Sample data *)

Module Sample.

Definition entry (service node : string) (checks : list HealthCheck.t) : ServiceEntry.t :=
  ServiceEntry.mk (Node.mk node) (AgentService.mk service) checks.

Definition check (id node status service_id : string) : HealthCheck.t :=
  HealthCheck.mk node id status service_id.

Definition web_a : ServiceEntry.t :=
  entry "web" "a" [check "service:web" "a" "passing" "web"].

Definition web_b : ServiceEntry.t :=
  entry "web" "b" [check "service:web" "b" "critical" "web"].


(** An exporter as [NewExporter] returns it, with [float64] read as [Z],
    the prefix [kv/] and a filter that matches every key. *)
Definition exporter0 : @Exporter Z :=
  mkExporter 0 0 0 0 ∅ ∅ ∅ ∅ ∅ ∅ "kv/" (fun _ => true).

(** A stand-in for [strconv.ParseFloat] that reads unsigned decimal
    integers. *)
Fixpoint digits (s : string) (acc : Z) : option Z :=
  match s with
  | EmptyString => Some acc
  | String a rest =>
      let n := Z.of_nat (Ascii.nat_of_ascii a) - 48 in
      if (0 <=? n) && (n <=? 9) then digits rest (10 * acc + n) else None
  end.

Definition parse (s : string) : option Z :=
  match s with
  | EmptyString => None
  | _ => digits s 0
  end.

(** A backend with three peers, two nodes and the services [web] and [db];
    the health query for [db] fails. *)
Definition client_ok : Client :=
  mkClient
    (["10.0.0.1:8300"; "10.0.0.2:8300"; "10.0.0.3:8300"], None)
    ([Node.mk "a"; Node.mk "b"], None)
    ([("db", []); ("web", ["v1"])], None)
    (fun s => if String.eqb s "web" then ([web_a; web_b], None)
              else ([], Some "rpc error"))
    ([check "serfHealth" "a" "passing" ""; check "service:web" "b" "critical" "web"], None)
    (fun _ => ([KVPair.mk "kv/limit" "12"; KVPair.mk "kv/owner" "abc"], None)).

(** The same backend when the service-name query returns two names and an
    error. *)
Definition client_services_error : Client :=
  mkClient (Status_Peers client_ok) (Catalog_Nodes client_ok)
    ([("db", []); ("web", ["v1"])], Some "rpc error")
    (Health_Service client_ok) (Health_State client_ok) (KV_List client_ok).

(** A backend that answers the health queries of two service names with
    an entry of the same service on the same node. *)
Definition client_twice : Client :=
  mkClient (Status_Peers client_ok) (Catalog_Nodes client_ok)
    ([("web", []); ("web-canary", [])], None)
    (fun _ => ([web_a], None)) ([], None) (fun _ => ([], None)).

(** A backend whose peer query fails. *)
Definition client_down : Client :=
  mkClient ([], Some "connection refused") ([], None) ([], None)
    (fun _ => ([], None)) ([], None) (fun _ => ([], None)).

(** A scrape of the backend that is down, stopped when the loop of
    [setMetrics] has just ended: the dispatcher has closed the checks channel
    and not yet the services channel. *)
Definition down_world : @World Z :=
  run parse (fun _ => client_down)
    [Collector 0; Collector 0; Collector 0;
     Dispatcher 0; Dispatcher 0; Dispatcher 0; Dispatcher 0; Collector 0]
    (init exporter0).

(** A whole scrape of [client_ok], up to its [Unlock]. *)
Definition ok_world : @World Z :=
  run parse (fun _ => client_ok)
    ([Collector 0; Collector 0; Collector 0]
     ++ replicate 11 (Dispatcher 0) ++ [Collector 0; Dispatcher 0; Collector 0]
     ++ [Dispatcher 0; Dispatcher 0] ++ replicate 6 (Collector 0))%nat
    (init exporter0).

(** Two concurrent scrapes of [client_ok]: call 0 holds the mutex and is in
    the loop of [setMetrics]; call 1 has started its dispatcher, which has
    issued the peer query, and waits for the mutex. *)
Definition race_world : @World Z :=
  run parse (fun _ => client_ok)
    [Collector 0; Collector 0; Collector 0; Collector 1; Dispatcher 1]%nat
    (init exporter0).

End Sample.


(** ** Further notions *)

(** A send of the checks batch. *)
Definition is_send_checks (a : Action) : bool :=
  match a with ASendChecks _ => true | _ => false end.

(** The four scalar gauges. *)
Definition scalars {float64 : Type} (e : @Exporter float64) : Z * Z * Z * Z :=
  (up e, clusterServers e, nodeCount e, serviceCount e).

(** The configuration of the key/value stage. *)
Definition kv_config {float64 : Type} (e : @Exporter float64) : string * (string -> bool) :=
  (kvPrefix e, kvFilter e).

(** The label values of a check. *)
Definition check_labels (hc : HealthCheck.t) : list string :=
  [HealthCheck.CheckID hc; HealthCheck.Node hc].

(** A received value that is a non-empty batch whose first entry is of the
    service [s]. *)
Definition names_service (s : string) (v : Sent) : Prop :=
  match v with
  | SentServices (x :: _) => AgentService.Service (ServiceEntry.Service x) = s
  | _ => False
  end.

(** The three gauges labelled by (service, node) agree: under every label
    combination either none has a value or all have; the flag is 0 or 1, the
    total is at least 1, the healthy count lies between 0 and the total, is at
    least 1 when the flag is 1 and below the total when the flag is 0. *)
Definition entry_gauges_agree {float64 : Type} (e : @Exporter float64) : Prop :=
  forall lv,
    match serviceNodesHealthy e !! lv, serviceEntriesNodesTotal e !! lv,
          serviceEntriesNodesHealthy e !! lv with
    | Some f, Some t, Some h =>
        (f = 0 \/ f = 1) /\ 1 <= t /\ 0 <= h <= t /\ (f = 1 -> 1 <= h) /\ (f = 0 -> h < t)
    | None, None, None => True
    | _, _, _ => False
    end.

(** The number of steps [Collect] has left once the loop of [setMetrics] has
    ended. *)
Definition steps_left (p : PC) : nat :=
  match p with
  | PSetMetrics false => 6
  | PCollect => 5
  | PResetKV => 4
  | PSetKeyValues => 3
  | PCollectKV => 2
  | PUnlock => 1
  | _ => 0
  end.

(** The program points of [Collect] after the loop of [setMetrics], its
    return included. *)
Definition loop_over (p : PC) : bool :=
  match p with
  | PSetMetrics false | PCollect | PResetKV | PSetKeyValues | PCollectKV | PUnlock | PDone => true
  | _ => false
  end.

Section Sequential.

Context {float64 : Type}.
Variable ParseFloat : string -> option float64.

(** [Collect] when no other call runs beside it: the writes of its
    dispatcher, the five [Reset]s, [setMetrics] on the values the dispatcher
    sends followed by the receive that reports the closed checks channel,
    [keyValues.Reset], [setKeyValues]. *)
Definition Collect_alone (c : Client) (e : @Exporter float64) : @Exporter float64 :=
  let tr := queryClient c in
  let e := dispatch_effect e tr in
  let e := reset_health e in
  let e := setMetrics e ((received <$> sends tr) ++ [RecvChecks [] false]) in
  let e := with_keyValues ∅ e in
  fst (setKeyValues ParseFloat c e).

(** No call of [Collect] other than call [i] has started. *)
Definition alone (i : nat) (w : @World float64) : Prop :=
  forall j, j <> i -> pc (scrapes w j) = PGo.

(** What holds of the exporter while call [i] runs alone, answered as [c]:
    the scalar gauges are those its dispatcher has written so far, and once
    the call has returned the vector gauges are those it has built. *)
Definition alone_inv (c : Client) (e0 : @Exporter float64) (w : @World float64) (i : nat)
  : Prop :=
  match dispatcher (scrapes w i) with
  | None => scalars (exporter w) = scalars e0
  | Some rest =>
      exists done,
        queryClient c = done ++ rest
        /\ scalars (exporter w) = scalars (dispatch_effect e0 done)
  end
  /\ (pc (scrapes w i) = PDone ->
      health (exporter w) = health_of (sends (queryClient c))
      /\ keyValues (exporter w) = kv_of ParseFloat c e0).

End Sequential.

(** ** The metrics of [NewExporter], [Describe] and what [Collect] sends *)

Module GaugeOpts.
Record t : Type := mk
  { Namespace : string;
    Name : string;
    Help : string }.
End GaugeOpts.

Definition namespace : string := "consul".

(** A metric as [NewExporter] creates it: its options and the names of its
    labels, none for a plain gauge. *)
Record Desc : Type := mkDesc
  { opts : GaugeOpts.t;
    labelNames : list string }.

Definition NewGauge (o : GaugeOpts.t) : Desc := mkDesc o [].

Definition NewGaugeVec (o : GaugeOpts.t) (labels : list string) : Desc := mkDesc o labels.

(** The metric fields of the [Exporter] struct. *)
Inductive Field : Type :=
| f_up
| f_clusterServers
| f_nodeCount
| f_serviceCount
| f_serviceNodesTotal
| f_serviceNodesHealthy
| f_serviceEntriesNodesTotal
| f_serviceEntriesNodesHealthy
| f_nodeChecks
| f_keyValues.

(** The metric [NewExporter] stores in each field. *)
Definition desc (f : Field) : Desc :=
  match f with
  | f_up =>
      NewGauge (GaugeOpts.mk namespace "up" "Was the last query of Consul successful.")
  | f_clusterServers =>
      NewGauge (GaugeOpts.mk namespace "raft_peers"
                  "How many peers (servers) are in the Raft cluster.")
  | f_nodeCount =>
      NewGauge (GaugeOpts.mk namespace "serf_lan_members"
                  "How many members are in the cluster.")
  | f_serviceCount =>
      NewGauge (GaugeOpts.mk namespace "catalog_services"
                  "How many services are in the cluster.")
  | f_serviceNodesTotal =>
      NewGaugeVec
        (GaugeOpts.mk namespace "catalog_service_nodes"
           "Number of nodes currently registered for this service.")
        ["service"]
  | f_serviceNodesHealthy =>
      NewGaugeVec
        (GaugeOpts.mk namespace "catalog_service_node_healthy"
           "Is this service healthy on this node?")
        ["service"; "node"]
  | f_serviceEntriesNodesTotal =>
      NewGaugeVec
        (GaugeOpts.mk namespace "catalog_service_entries_by_nodes"
           "Number of service entries currently registered by node for this service.")
        ["service"; "node"]
  | f_serviceEntriesNodesHealthy =>
      NewGaugeVec
        (GaugeOpts.mk namespace "catalog_service_entries_by_node_healthy"
           "Number of service entries currently registered by node that are healthy for this service.")
        ["service"; "node"]
  | f_nodeChecks =>
      NewGaugeVec
        (GaugeOpts.mk namespace "agent_check" "Is this check passing on this node?")
        ["check"; "node"]
  | f_keyValues =>
      NewGaugeVec
        (GaugeOpts.mk namespace "catalog_kv"
           "The values for selected keys in Consul's key/value catalog. Keys with non-numeric values are omitted.")
        ["key"]
  end.

(** The exporter [NewExporter] returns: every gauge at zero, every vector
    without a child; [filter] is the compiled [kvFilter]. *)
Definition NewExporter {float64 : Type} (prefix : string) (filter : string -> bool)
  : @Exporter float64 :=
  mkExporter 0 0 0 0 ∅ ∅ ∅ ∅ ∅ ∅ prefix filter.

(** What [Describe] sends, in order. *)
Definition Describe : list Desc :=
  [desc f_up; desc f_nodeCount; desc f_serviceCount; desc f_clusterServers;
   desc f_serviceNodesTotal; desc f_serviceNodesHealthy;
   desc f_serviceEntriesNodesTotal; desc f_serviceEntriesNodesHealthy;
   desc f_keyValues].

(** A metric sent on the channel of [Collect], identified by the field it
    comes from and its label values. *)
Definition Series : Type := Field * list string.

(** [Collect] of a vector: one metric per child; their order is that of a Go
    map and plays no part below. *)
Definition vec_collect {V : Type} (f : Field) (m : gmap (list string) V) : list Series :=
  (fun kv => (f, fst kv)) <$> map_to_list m.

(** What [Collect] sends after [setMetrics], and what it sends after
    [setKeyValues]. *)
Definition collect_health {float64 : Type} (e : @Exporter float64) : list Series :=
  [(f_up, []); (f_clusterServers, []); (f_nodeCount, []); (f_serviceCount, [])]
  ++ vec_collect f_serviceNodesTotal (serviceNodesTotal e)
  ++ vec_collect f_serviceNodesHealthy (serviceNodesHealthy e)
  ++ vec_collect f_serviceEntriesNodesTotal (serviceEntriesNodesTotal e)
  ++ vec_collect f_serviceEntriesNodesHealthy (serviceEntriesNodesHealthy e)
  ++ vec_collect f_nodeChecks (nodeChecks e).

Definition collect_kv {float64 : Type} (e : @Exporter float64) : list Series :=
  vec_collect f_keyValues (keyValues e).

(** Every child of the vector [m] of field [f] has one label value per
    label name. *)
Definition labels_fit {V : Type} (f : Field) (m : gmap (list string) V) : Prop :=
  forall lv, is_Some (m !! lv) -> length lv = length (labelNames (desc f)).

Definition arity_ok {float64 : Type} (e : @Exporter float64) : Prop :=
  labels_fit f_serviceNodesTotal (serviceNodesTotal e)
  /\ labels_fit f_serviceNodesHealthy (serviceNodesHealthy e)
  /\ labels_fit f_serviceEntriesNodesTotal (serviceEntriesNodesTotal e)
  /\ labels_fit f_serviceEntriesNodesHealthy (serviceEntriesNodesHealthy e)
  /\ labels_fit f_nodeChecks (nodeChecks e)
  /\ labels_fit f_keyValues (keyValues e).

(** * Properties *)

#[local] Set Default Proof Using "Type".

Section Properties.

Context {float64 : Type}.
Variable ParseFloat : string -> option float64.

Implicit Types (e : @Exporter float64) (st : @BatchState float64).
Implicit Types (batch : list ServiceEntry.t) (x entry : ServiceEntry.t).

(** ** Machine integers *)

Lemma int_add_1 (a : Z) : 0 <= a < int_max -> int_add a 1 = a + 1.
Proof.
  unfold int_add, int_wrap, int_max. intros H.
  rewrite Z.mod_small; lia.
Qed.

(** ** The check loop *)

Lemma passing_loop_cases (checks : list HealthCheck.t) :
  passing_loop checks = 0 \/ passing_loop checks = 1.
Proof.
  induction checks as [|hc rest IH]; simpl; [by right|].
  destruct (negb _); [by left|exact IH].
Qed.

Lemma passing_loop_all (checks : list HealthCheck.t) :
  passing_loop checks = 1 <-> all_passing checks.
Proof.
  unfold all_passing. induction checks as [|hc rest IH]; simpl.
  - split; [constructor|done].
  - destruct (String.eqb_spec (HealthCheck.Status hc) HealthPassing) as [Heq|Hne]; simpl.
    + rewrite IH. split; [by constructor|by inversion 1].
    + split; [done|]. inversion 1; contradiction.
Qed.

(** ** One entry of a batch *)

Lemma entry_body_healthy_flag st entry :
  serviceNodesHealthy (bs_exporter (entry_body st entry)) !! entry_labels entry
  = Some (passing_loop (ServiceEntry.Checks entry)).
Proof. unfold entry_body; simpl. apply lookup_insert_eq. Qed.

Lemma entry_body_total st entry :
  bs_total (entry_body st entry)
  = <[serviceNode entry := int_add (map_get (bs_total st) (serviceNode entry)) 1]> (bs_total st).
Proof. reflexivity. Qed.

Lemma entry_body_healthy st entry :
  bs_healthy (entry_body st entry)
  = if Z.eqb (passing_loop (ServiceEntry.Checks entry)) 1
    then <[serviceNode entry := int_add (map_get (bs_healthy st) (serviceNode entry)) 1]> (bs_healthy st)
    else bs_healthy st.
Proof.
  unfold entry_body; simpl.
  by destruct (Z.eqb (passing_loop (ServiceEntry.Checks entry)) 1).
Qed.

Lemma entry_body_gauge_total st entry :
  serviceEntriesNodesTotal (bs_exporter (entry_body st entry))
  = <[entry_labels entry := int_add (map_get (bs_total st) (serviceNode entry)) 1]>
      (serviceEntriesNodesTotal (bs_exporter st)).
Proof. reflexivity. Qed.

Lemma entry_body_gauge_healthy st entry :
  serviceEntriesNodesHealthy (bs_exporter (entry_body st entry))
  = <[entry_labels entry :=
        if Z.eqb (passing_loop (ServiceEntry.Checks entry)) 1
        then int_add (map_get (bs_healthy st) (serviceNode entry)) 1
        else map_get (bs_healthy st) (serviceNode entry)]>
      (serviceEntriesNodesHealthy (bs_exporter st)).
Proof. reflexivity. Qed.

Lemma entry_body_gauge_flag st entry :
  serviceNodesHealthy (bs_exporter (entry_body st entry))
  = <[entry_labels entry := passing_loop (ServiceEntry.Checks entry)]>
      (serviceNodesHealthy (bs_exporter st)).
Proof. reflexivity. Qed.

Lemma map_get_insert (m : gmap string Z) (k k' : string) (v : Z) :
  map_get (<[k := v]> m) k' = if decide (k = k') then v else map_get m k'.
Proof.
  unfold map_get. rewrite lookup_insert. by destruct (decide (k = k')).
Qed.

Lemma map_get_empty (k : string) : map_get ∅ k = 0.
Proof. unfold map_get. by rewrite lookup_empty. Qed.

(** ** Counting the entries of a batch *)

Lemma length_filter_snoc {A : Type} (P : A -> Prop) `{!forall a, Decision (P a)}
    (l : list A) (a : A) :
  length (filter P (l ++ [a]))
  = (if decide (P a) then S (length (filter P l)) else length (filter P l)).
Proof.
  rewrite filter_app, length_app, filter_cons, filter_nil.
  destruct (decide (P a)); simpl; lia.
Qed.

Lemma count_serviceNode_snoc (k : string) batch x :
  count_serviceNode k (batch ++ [x])
  = count_serviceNode k batch + (if decide (serviceNode x = k) then 1 else 0).
Proof.
  unfold count_serviceNode. rewrite length_filter_snoc.
  destruct (decide (serviceNode x = k)); lia.
Qed.

Lemma count_serviceNode_passing_snoc (k : string) batch x :
  count_serviceNode_passing k (batch ++ [x])
  = count_serviceNode_passing k batch
    + (if decide (serviceNode x = k /\ passing_loop (ServiceEntry.Checks x) = 1) then 1 else 0).
Proof.
  unfold count_serviceNode_passing. rewrite length_filter_snoc.
  destruct (decide (_ /\ _)); lia.
Qed.

Lemma count_labels_snoc (lv : list string) batch x :
  count_labels lv (batch ++ [x])
  = count_labels lv batch + (if decide (entry_labels x = lv) then 1 else 0).
Proof.
  unfold count_labels. rewrite length_filter_snoc.
  destruct (decide (entry_labels x = lv)); lia.
Qed.

Lemma count_labels_passing_snoc (lv : list string) batch x :
  count_labels_passing lv (batch ++ [x])
  = count_labels_passing lv batch
    + (if decide (entry_labels x = lv /\ passing_loop (ServiceEntry.Checks x) = 1) then 1 else 0).
Proof.
  unfold count_labels_passing. rewrite length_filter_snoc.
  destruct (decide (_ /\ _)); lia.
Qed.

Lemma count_serviceNode_bounds (k : string) batch :
  0 <= count_serviceNode_passing k batch <= count_serviceNode k batch
  /\ count_serviceNode k batch <= Z.of_nat (length batch).
Proof.
  induction batch as [|x batch IH] using rev_ind.
  - unfold count_serviceNode_passing, count_serviceNode. simpl. lia.
  - rewrite count_serviceNode_snoc, count_serviceNode_passing_snoc, length_app. simpl.
    destruct (decide (serviceNode x = k)), (decide (_ /\ _)); try lia.
    match goal with H : _ /\ _ |- _ => by destruct H end.
Qed.

Lemma labels_serviceNode x y :
  entry_labels x = entry_labels y -> serviceNode x = serviceNode y.
Proof.
  unfold entry_labels, serviceNode. intros H. injection H as -> ->. reflexivity.
Qed.

(** When no other key of the batch concatenates to the same string, counting
    by label values and counting by the concatenated key agree. *)
Lemma count_labels_serviceNode batch x0 :
  (forall y, y ∈ batch -> serviceNode y = serviceNode x0 -> entry_labels y = entry_labels x0) ->
  count_labels (entry_labels x0) batch = count_serviceNode (serviceNode x0) batch
  /\ count_labels_passing (entry_labels x0) batch
     = count_serviceNode_passing (serviceNode x0) batch.
Proof.
  induction batch as [|y batch IH] using rev_ind; intros Hco.
  - done.
  - rewrite count_labels_snoc, count_serviceNode_snoc,
      count_labels_passing_snoc, count_serviceNode_passing_snoc.
    destruct IH as [-> ->].
    { intros z Hz. apply Hco. apply elem_of_app. by left. }
    assert (Hy : serviceNode y = serviceNode x0 <-> entry_labels y = entry_labels x0).
    { split; [|apply labels_serviceNode]. apply Hco. apply elem_of_app. right. by apply list_elem_of_singleton. }
    split.
    + destruct (decide (entry_labels y = _)), (decide (serviceNode y = _)); first [lia | exfalso; destruct Hy; auto].
    + destruct (decide (entry_labels y = _ /\ _)), (decide (serviceNode y = _ /\ _)); first [lia | exfalso; destruct Hy; repeat match goal with H : _ /\ _ |- _ => destruct H end; auto].
Qed.

(** ** The local maps of a batch are the counts by concatenated key *)

Lemma local_maps batch e :
  Z.of_nat (length batch) <= int_max ->
  forall k,
    map_get (bs_total (foldl entry_body (mkBatchState e ∅ ∅) batch)) k
    = count_serviceNode k batch
    /\ map_get (bs_healthy (foldl entry_body (mkBatchState e ∅ ∅) batch)) k
       = count_serviceNode_passing k batch.
Proof.
  induction batch as [|x batch IH] using rev_ind; intros Hlen k.
  - simpl. by rewrite !map_get_empty.
  - rewrite length_app in Hlen. simpl in Hlen.
    rewrite foldl_snoc, entry_body_total, entry_body_healthy.
    rewrite count_serviceNode_snoc, count_serviceNode_passing_snoc.
    assert (Hl : Z.of_nat (length batch) <= int_max) by lia.
    pose proof (IH Hl k) as [IHt IHh].
    pose proof (IH Hl (serviceNode x)) as [IHtx IHhx].
    pose proof (count_serviceNode_bounds (serviceNode x) batch) as Hb.
    split.
    + rewrite map_get_insert. destruct (decide (serviceNode x = k)) as [<-|Hne].
      * rewrite IHtx, int_add_1; lia.
      * rewrite IHt. lia.
    + destruct (passing_loop_cases (ServiceEntry.Checks x)) as [Hp|Hp]; rewrite Hp; simpl.
      * rewrite IHh. destruct (decide (_ /\ _)) as [[_ ?]|_]; lia.
      * rewrite map_get_insert. destruct (decide (serviceNode x = k)) as [<-|Hne].
        -- rewrite IHhx, int_add_1 by lia.
           destruct (decide (_ /\ _)) as [_|Hn]; [lia|exfalso; apply Hn; auto].
        -- rewrite IHh. destruct (decide (_ /\ _)) as [[? _]|_]; [done|lia].
Qed.

(** ** The gauges after a batch *)

(** The loop over a batch writes the entry gauges only under the label values
    of its entries. *)
Lemma batch_gauges_other batch st (lv : list string) :
  (forall y, y ∈ batch -> entry_labels y <> lv) ->
  serviceEntriesNodesTotal (bs_exporter (foldl entry_body st batch)) !! lv
  = serviceEntriesNodesTotal (bs_exporter st) !! lv
  /\ serviceEntriesNodesHealthy (bs_exporter (foldl entry_body st batch)) !! lv
     = serviceEntriesNodesHealthy (bs_exporter st) !! lv
  /\ serviceNodesHealthy (bs_exporter (foldl entry_body st batch)) !! lv
     = serviceNodesHealthy (bs_exporter st) !! lv.
Proof.
  induction batch as [|x batch IH] using rev_ind; intros Hno; [done|].
  rewrite foldl_snoc, entry_body_gauge_total, entry_body_gauge_healthy, entry_body_gauge_flag.
  assert (Hx : entry_labels x <> lv).
  { apply Hno, elem_of_app. right. by apply list_elem_of_singleton. }
  rewrite !lookup_insert_ne by done.
  apply IH. intros y Hy. apply Hno, elem_of_app. by left.
Qed.

(** The loop over a batch leaves the other gauges alone. *)
Lemma batch_frame batch st :
  let e' := bs_exporter (foldl entry_body st batch) in
  let e := bs_exporter st in
  up e' = up e /\ clusterServers e' = clusterServers e /\ nodeCount e' = nodeCount e
  /\ serviceCount e' = serviceCount e /\ serviceNodesTotal e' = serviceNodesTotal e
  /\ nodeChecks e' = nodeChecks e /\ keyValues e' = keyValues e
  /\ kvPrefix e' = kvPrefix e /\ kvFilter e' = kvFilter e.
Proof.
  induction batch as [|x batch IH] using rev_ind; [done|].
  rewrite foldl_snoc. simpl in *. exact IH.
Qed.

(** For a key of the batch that shares its concatenation with no other key
    of the batch, the two entry gauges hold the counts of the batch. *)
Lemma batch_gauges batch e x0 :
  Z.of_nat (length batch) <= int_max ->
  x0 ∈ batch ->
  (forall y, y ∈ batch -> serviceNode y = serviceNode x0 -> entry_labels y = entry_labels x0) ->
  serviceEntriesNodesTotal (bs_exporter (foldl entry_body (mkBatchState e ∅ ∅) batch))
    !! entry_labels x0 = Some (count_labels (entry_labels x0) batch)
  /\ serviceEntriesNodesHealthy (bs_exporter (foldl entry_body (mkBatchState e ∅ ∅) batch))
       !! entry_labels x0 = Some (count_labels_passing (entry_labels x0) batch).
Proof.
  induction batch as [|y batch IH] using rev_ind; intros Hlen Hin Hco.
  - by apply elem_of_nil in Hin.
  - rewrite length_app in Hlen. simpl in Hlen.
    assert (Hl : Z.of_nat (length batch) <= int_max) by lia.
    assert (Hco' : forall z, z ∈ batch -> serviceNode z = serviceNode x0 ->
                             entry_labels z = entry_labels x0).
    { intros z Hz. apply Hco, elem_of_app. by left. }
    rewrite foldl_snoc, entry_body_gauge_total, entry_body_gauge_healthy.
    rewrite count_labels_snoc, count_labels_passing_snoc.
    destruct (count_labels_serviceNode batch x0 Hco') as [Hc Hcp].
    pose proof (local_maps batch e Hl (serviceNode y)) as [Ht Hh].
    pose proof (count_serviceNode_bounds (serviceNode y) batch) as Hb.
    destruct (decide (entry_labels y = entry_labels x0)) as [Heq|Hne].
    + rewrite Heq, !lookup_insert_eq.
      pose proof (labels_serviceNode _ _ Heq) as Hsn.
      rewrite Ht, Hh, Hc, Hcp, Hsn. rewrite Hsn in Hb.
      split; [by rewrite int_add_1 by lia|].
      destruct (passing_loop_cases (ServiceEntry.Checks y)) as [Hp|Hp]; rewrite Hp; simpl.
      * destruct (decide (_ /\ _)) as [[_ ?]|_]; [lia|]. f_equal; lia.
      * destruct (decide (_ /\ _)) as [_|Hn]; [|exfalso; apply Hn; auto]. by rewrite int_add_1 by lia.
    + rewrite !lookup_insert_ne by done.
      assert (Hin' : x0 ∈ batch).
      { apply elem_of_app in Hin as [Hin|Hin]; [done|].
        apply list_elem_of_singleton in Hin. by subst. }
      destruct (IH Hl Hin' Hco') as [-> ->].
      destruct (decide (_ /\ _)) as [[? _]|_]; [done|].
      split; f_equal; lia.
Qed.

Lemma batch_healthy_le_total batch e :
  Z.of_nat (length batch) <= int_max ->
  healthy_le_total e ->
  healthy_le_total (bs_exporter (foldl entry_body (mkBatchState e ∅ ∅) batch)).
Proof.
  induction batch as [|y batch IH] using rev_ind; intros Hlen He; [done|].
  rewrite length_app in Hlen. simpl in Hlen.
  assert (Hl : Z.of_nat (length batch) <= int_max) by lia.
  intros lv h. rewrite foldl_snoc, entry_body_gauge_total, entry_body_gauge_healthy.
  pose proof (local_maps batch e Hl (serviceNode y)) as [Ht Hh].
  pose proof (count_serviceNode_bounds (serviceNode y) batch) as Hb.
  destruct (decide (entry_labels y = lv)) as [<-|Hne].
  - rewrite !lookup_insert_eq. intros [= <-]. eexists; split; [done|].
    rewrite Ht, Hh.
    destruct (Z.eqb _ 1); rewrite !int_add_1 by lia; lia.
  - rewrite !lookup_insert_ne by done. by apply IH.
Qed.

(** ** One iteration of the [select] loop *)

Lemma case_services_cons e x batch (b : bool) :
  case_services e (x :: batch) b
  = (bs_exporter (foldl entry_body (mkBatchState (batch_start e x batch) ∅ ∅) (x :: batch)), b).
Proof. reflexivity. Qed.

Lemma check_body_frame (entry : list HealthCheck.t) e :
  let e' := foldl check_body e entry in
  up e' = up e /\ clusterServers e' = clusterServers e /\ nodeCount e' = nodeCount e
  /\ serviceCount e' = serviceCount e /\ serviceNodesTotal e' = serviceNodesTotal e
  /\ serviceNodesHealthy e' = serviceNodesHealthy e
  /\ serviceEntriesNodesTotal e' = serviceEntriesNodesTotal e
  /\ serviceEntriesNodesHealthy e' = serviceEntriesNodesHealthy e
  /\ keyValues e' = keyValues e
  /\ kvPrefix e' = kvPrefix e /\ kvFilter e' = kvFilter e.
Proof.
  induction entry as [|hc entry IH] using rev_ind; [done|].
  rewrite foldl_snoc. simpl in IH.
  generalize dependent (foldl check_body e entry). intros e1 IH.
  unfold check_body. destruct (String.eqb _ _); exact IH.
Qed.

Lemma consume_services_cons e x batch :
  consume e (SentServices (x :: batch))
  = bs_exporter (foldl entry_body (mkBatchState (batch_start e x batch) ∅ ∅) (x :: batch)).
Proof. reflexivity. Qed.

Lemma consume_services_nil e : consume e (SentServices []) = e.
Proof. reflexivity. Qed.

Lemma consume_checks e (entry : list HealthCheck.t) :
  consume e (SentChecks entry) = foldl check_body e entry.
Proof. reflexivity. Qed.

Lemma case_services_frame_b e (service : list ServiceEntry.t) (b : bool) :
  snd (case_services e service b) = b.
Proof. by destruct service. Qed.

(** [setMetrics] on the values sent, followed by the receive that reports a
    closed channel. *)
Lemma setMetrics_drain e (vs : list Sent) (r : Received) :
  r = RecvServices [] false \/ r = RecvChecks [] false ->
  setMetrics e ((received <$> vs) ++ [r]) = drain e vs.
Proof.
  intros Hr. unfold drain. revert e.
  induction vs as [|v vs IH]; intros e.
  - by destruct Hr as [->| ->].
  - cbn [fmap list_fmap app setMetrics foldl]. rewrite <- IH.
    destruct v as [batch|entry]; cbn [received select_case consume].
    + pose proof (case_services_frame_b e batch true) as Hb.
      destruct (case_services e batch true) as [e' b]. cbn [snd fst] in *. by subst b.
    + reflexivity.
Qed.

Lemma consume_other e (v : Sent) (lv : list string) :
  silent_on lv v ->
  serviceEntriesNodesTotal (consume e v) !! lv = serviceEntriesNodesTotal e !! lv
  /\ serviceEntriesNodesHealthy (consume e v) !! lv = serviceEntriesNodesHealthy e !! lv
  /\ serviceNodesHealthy (consume e v) !! lv = serviceNodesHealthy e !! lv.
Proof.
  destruct v as [batch|entry]; intros Hs.
  - destruct batch as [|x batch]; [done|].
    rewrite consume_services_cons.
    apply (batch_gauges_other (x :: batch)). exact Hs.
  - rewrite consume_checks.
    destruct (check_body_frame entry e) as (_ & _ & _ & _ & _ & -> & -> & -> & _). done.
Qed.

Lemma drain_other (vs : list Sent) e (lv : list string) :
  Forall (silent_on lv) vs ->
  serviceEntriesNodesTotal (drain e vs) !! lv = serviceEntriesNodesTotal e !! lv
  /\ serviceEntriesNodesHealthy (drain e vs) !! lv = serviceEntriesNodesHealthy e !! lv
  /\ serviceNodesHealthy (drain e vs) !! lv = serviceNodesHealthy e !! lv.
Proof.
  unfold drain. induction vs as [|v vs IH] using rev_ind; intros Hs; [done|].
  apply Forall_app in Hs as [Hs Hv]. rewrite Forall_singleton in Hv.
  rewrite foldl_snoc.
  destruct (consume_other (foldl consume e vs) v lv Hv) as (-> & -> & ->).
  by apply IH.
Qed.

Lemma consume_healthy_le_total e (v : Sent) :
  short_batches [v] -> healthy_le_total e -> healthy_le_total (consume e v).
Proof.
  intros Hshort He. destruct v as [batch|entry].
  - destruct batch as [|x batch]; [done|].
    rewrite consume_services_cons.
    apply batch_healthy_le_total.
    + apply Hshort. simpl. apply list_elem_of_singleton. reflexivity.
    + exact He.
  - rewrite consume_checks. intros lv h.
    destruct (check_body_frame entry e) as (_ & _ & _ & _ & _ & _ & -> & -> & _).
    apply He.
Qed.

Lemma short_batches_app (vs vs' : list Sent) :
  short_batches (vs ++ vs') <-> short_batches vs /\ short_batches vs'.
Proof.
  unfold short_batches, batches. rewrite omap_app. split.
  - intros H. split; intros batch Hb; apply H, elem_of_app; [by left|by right].
  - intros [H H'] batch [Hb|Hb]%elem_of_app; [by apply H|by apply H'].
Qed.

Lemma drain_healthy_le_total (vs : list Sent) e :
  short_batches vs -> healthy_le_total e -> healthy_le_total (drain e vs).
Proof.
  unfold drain. induction vs as [|v vs IH] using rev_ind; intros Hshort He; [done|].
  apply short_batches_app in Hshort as [Hvs Hv].
  rewrite foldl_snoc. apply consume_healthy_le_total; [done|]. by apply IH.
Qed.

Lemma reset_healthy_le_total e : healthy_le_total (reset_health e).
Proof. intros lv h. simpl. by rewrite lookup_empty. Qed.

(** ** The healthy flag, the entry counts and the key of the running sums *)

(** C1: every entry of a received batch goes through the loop body, which
    sets the healthy-flag gauge under the entry's (service, node) labels to a
    value that is 0 or 1, is 1 exactly when every check of the entry is
    passing, and is 1 for an entry without checks; the value is still there
    at the end of the batch when no later entry of the batch has the same
    labels. *)
Theorem C1_healthy_flag e (pre post : list ServiceEntry.t) entry (b : bool) :
  exists st v,
    fst (case_services e (pre ++ entry :: post) b)
    = bs_exporter (foldl entry_body (entry_body st entry) post)
    /\ serviceNodesHealthy (bs_exporter (entry_body st entry)) !! entry_labels entry = Some v
    /\ (v = 0 \/ v = 1)
    /\ (v = 1 <-> all_passing (ServiceEntry.Checks entry))
    /\ (ServiceEntry.Checks entry = [] -> v = 1)
    /\ ((forall y, y ∈ post -> entry_labels y <> entry_labels entry) ->
        serviceNodesHealthy (fst (case_services e (pre ++ entry :: post) b))
          !! entry_labels entry = Some v).
Proof.
  assert (Hne : exists x l, pre ++ entry :: post = x :: l).
  { destruct pre; simpl; eauto. }
  destruct Hne as (x & l & Hxl).
  exists (foldl entry_body (mkBatchState (batch_start e x l) ∅ ∅) pre),
         (passing_loop (ServiceEntry.Checks entry)).
  assert (Hrun : fst (case_services e (pre ++ entry :: post) b)
                 = bs_exporter (foldl entry_body
                     (entry_body (foldl entry_body (mkBatchState (batch_start e x l) ∅ ∅) pre) entry)
                     post)).
  { rewrite Hxl, case_services_cons, <- Hxl. cbn [fst].
    rewrite foldl_app. reflexivity. }
  split; [exact Hrun|].
  split; [apply entry_body_healthy_flag|].
  split; [apply passing_loop_cases|].
  split; [apply passing_loop_all|].
  split; [by intros ->|].
  intros Hpost. rewrite Hrun.
  destruct (batch_gauges_other post
              (entry_body (foldl entry_body (mkBatchState (batch_start e x l) ∅ ∅) pre) entry)
              (entry_labels entry) Hpost) as (_ & _ & ->).
  apply entry_body_healthy_flag.
Qed.

(** C2, as the code has it: the running sums restart with every batch.  In
    the gauges left by a cycle a healthy count never exceeds the total under
    the same labels; and for a (service, node) key of a batch that shares its
    concatenation with no other key of that batch and that no later batch of
    the cycle mentions, the entry-total gauge is the number of entries of
    that batch with the key and the entry-healthy-count gauge the number of
    those whose checks are all passing. *)
Theorem C2_entry_counts e (vs : list Sent) :
  short_batches vs ->
  healthy_le_total (drain (reset_health e) vs)
  /\ forall (pre post : list Sent) batch (s n : string),
       vs = pre ++ SentServices batch :: post ->
       (exists x, x ∈ batch /\ entry_labels x = [s; n]) ->
       (forall y, y ∈ batch -> serviceNode y = s +:+ "-" +:+ n -> entry_labels y = [s; n]) ->
       Forall (silent_on [s; n]) post ->
       serviceEntriesNodesTotal (drain (reset_health e) vs) !! [s; n]
       = Some (count_labels [s; n] batch)
       /\ serviceEntriesNodesHealthy (drain (reset_health e) vs) !! [s; n]
          = Some (count_labels_passing [s; n] batch).
Proof.
  intros Hshort. split.
  { apply drain_healthy_le_total; [done|apply reset_healthy_le_total]. }
  intros pre post batch s n -> (x0 & Hx0 & Hlv) Hco Hpost.
  unfold drain. rewrite foldl_app. cbn [foldl].
  destruct (drain_other post (consume (foldl consume (reset_health e) pre) (SentServices batch))
              [s; n] Hpost) as (Ht & Hh & _).
  unfold drain in Ht, Hh. rewrite Ht, Hh. clear Ht Hh.
  destruct batch as [|x batch]; [by apply elem_of_nil in Hx0|].
  rewrite consume_services_cons. rewrite <- Hlv.
  apply batch_gauges.
  - apply Hshort. unfold batches. rewrite omap_app. apply elem_of_app. right.
    simpl. apply list_elem_of_here.
  - exact Hx0.
  - intros y Hy Hsn. rewrite Hlv. apply Hco; [done|]. rewrite Hsn.
    unfold serviceNode. unfold entry_labels in Hlv. by injection Hlv as -> ->.
Qed.


(** ** The key/value stage *)

Lemma pair_body_frame e (pair : KVPair.t) :
  let e' := pair_body ParseFloat e pair in
  up e' = up e /\ clusterServers e' = clusterServers e /\ nodeCount e' = nodeCount e
  /\ serviceCount e' = serviceCount e /\ health e' = health e
  /\ kvPrefix e' = kvPrefix e /\ kvFilter e' = kvFilter e.
Proof.
  unfold pair_body. destruct (kvFilter e _); [|done]. by destruct (ParseFloat _).
Qed.

Lemma pairs_frame (pairs : list KVPair.t) e :
  let e' := foldl (pair_body ParseFloat) e pairs in
  up e' = up e /\ clusterServers e' = clusterServers e /\ nodeCount e' = nodeCount e
  /\ serviceCount e' = serviceCount e /\ health e' = health e
  /\ kvPrefix e' = kvPrefix e /\ kvFilter e' = kvFilter e.
Proof.
  induction pairs as [|p pairs IH] using rev_ind; [done|].
  rewrite foldl_snoc. simpl in IH |- *.
  destruct (pair_body_frame (foldl (pair_body ParseFloat) e pairs) p)
    as (-> & -> & -> & -> & -> & -> & ->).
  exact IH.
Qed.

(** What one pair does to the key/value gauge. *)
Lemma pair_body_keyValues e (pair : KVPair.t) :
  keyValues (pair_body ParseFloat e pair)
  = if kvFilter e (KVPair.Key pair) then
      match ParseFloat (KVPair.Value pair) with
      | Some val => <[[KVPair.Key pair] := val]> (keyValues e)
      | None => keyValues e
      end
    else keyValues e.
Proof.
  unfold pair_body. destruct (kvFilter e _); [|done]. by destruct (ParseFloat _).
Qed.

Lemma pairs_other (pairs : list KVPair.t) e (lv : list string) :
  (forall p, p ∈ pairs -> [KVPair.Key p] <> lv) ->
  keyValues (foldl (pair_body ParseFloat) e pairs) !! lv = keyValues e !! lv.
Proof.
  induction pairs as [|p pairs IH] using rev_ind; intros Hno; [done|].
  rewrite foldl_snoc, pair_body_keyValues.
  assert (Hp : [KVPair.Key p] <> lv).
  { apply Hno, elem_of_app. right. by apply list_elem_of_singleton. }
  assert (IH' : keyValues (foldl (pair_body ParseFloat) e pairs) !! lv = keyValues e !! lv).
  { apply IH. intros q Hq. apply Hno, elem_of_app. by left. }
  destruct (kvFilter _ _); [|done].
  destruct (ParseFloat _); [|done]. by rewrite lookup_insert_ne.
Qed.

(** With pairwise distinct keys, the gauge of a listed key is decided by its
    own pair. *)
Lemma pairs_lookup (pairs : list KVPair.t) e (pair : KVPair.t) :
  NoDup (map KVPair.Key pairs) ->
  pair ∈ pairs ->
  keyValues (foldl (pair_body ParseFloat) e pairs) !! [KVPair.Key pair]
  = if kvFilter e (KVPair.Key pair) then
      match ParseFloat (KVPair.Value pair) with
      | Some val => Some val
      | None => keyValues e !! [KVPair.Key pair]
      end
    else keyValues e !! [KVPair.Key pair].
Proof.
  induction pairs as [|p pairs IH] using rev_ind; intros Hnd Hin.
  - by apply elem_of_nil in Hin.
  - rewrite map_app in Hnd. apply NoDup_app in Hnd as (Hnd & Hdisj & _).
    rewrite foldl_snoc, pair_body_keyValues.
    destruct (pairs_frame pairs e) as (_ & _ & _ & _ & _ & _ & Hf). simpl in Hf. rewrite Hf.
    apply elem_of_app in Hin as [Hin|Hin].
    + assert (Hne : KVPair.Key p <> KVPair.Key pair).
      { intros Heq. apply (Hdisj (KVPair.Key pair)).
        - apply list_elem_of_fmap. eauto.
        - rewrite <- Heq. simpl. apply list_elem_of_here. }
      assert (Hlv : [KVPair.Key p] <> [KVPair.Key pair]) by congruence.
      specialize (IH Hnd Hin).
      destruct (kvFilter e (KVPair.Key p)); [|exact IH].
      destruct (ParseFloat (KVPair.Value p)); [|exact IH].
      by rewrite lookup_insert_ne.
    + apply list_elem_of_singleton in Hin. subst p.
      assert (Hold : keyValues (foldl (pair_body ParseFloat) e pairs) !! [KVPair.Key pair]
                     = keyValues e !! [KVPair.Key pair]).
      { apply pairs_other. intros q Hq Heq. apply (Hdisj (KVPair.Key pair)).
        - apply list_elem_of_fmap. exists q. split; [congruence|done].
        - simpl. apply list_elem_of_here. }
      destruct (kvFilter e (KVPair.Key pair)); [|exact Hold].
      destruct (ParseFloat (KVPair.Value pair)); [|exact Hold].
      by rewrite lookup_insert_eq.
Qed.

(** Every value of the gauge was there before or comes from a listed pair
    whose key matches the filter and whose value parses. *)
Lemma pairs_observed (pairs : list KVPair.t) e (lv : list string) (val : float64) :
  keyValues (foldl (pair_body ParseFloat) e pairs) !! lv = Some val ->
  keyValues e !! lv = Some val
  \/ exists p, p ∈ pairs /\ lv = [KVPair.Key p] /\ kvFilter e (KVPair.Key p) = true
               /\ ParseFloat (KVPair.Value p) = Some val.
Proof.
  induction pairs as [|p pairs IH] using rev_ind; [by left|].
  rewrite foldl_snoc, pair_body_keyValues.
  destruct (pairs_frame pairs e) as (_ & _ & _ & _ & _ & _ & Hf). simpl in Hf. rewrite Hf.
  assert (Hold : keyValues (foldl (pair_body ParseFloat) e pairs) !! lv = Some val ->
           keyValues e !! lv = Some val
           \/ exists q, q ∈ pairs ++ [p] /\ lv = [KVPair.Key q]
                        /\ kvFilter e (KVPair.Key q) = true
                        /\ ParseFloat (KVPair.Value q) = Some val).
  { intros H. destruct (IH H) as [?|(q & Hq & ?)]; [by left|right].
    exists q. split; [apply elem_of_app; by left|done]. }
  destruct (kvFilter e (KVPair.Key p)) eqn:Hk; [|exact Hold].
  destruct (ParseFloat (KVPair.Value p)) as [v|] eqn:Hv; [|exact Hold].
  destruct (decide ([KVPair.Key p] = lv)) as [<-|Hne].
  - rewrite lookup_insert_eq. intros [= <-]. right. exists p.
    split; [apply elem_of_app; right; by apply list_elem_of_singleton|done].
  - by rewrite lookup_insert_ne.
Qed.

(** C9: without a prefix the stage changes nothing and calls nothing.  With a
    prefix and a listing that succeeds, the stage is the loop over the pairs:
    a pair whose key matches the filter and whose value parses sets the gauge
    under the raw key to the parsed value, any other pair leaves the exporter
    as it is; so after [keyValues.Reset] and a listing with pairwise distinct
    keys, a listed key has a gauge entry exactly when its pair matches and
    parses, and the entry is the parsed value. *)
Theorem C9_key_values (c : Client) e :
  (kvPrefix e = "" -> setKeyValues ParseFloat c e = (e, []))
  /\ (forall pair val,
        kvFilter e (KVPair.Key pair) = true ->
        ParseFloat (KVPair.Value pair) = Some val ->
        keyValues (pair_body ParseFloat e pair) !! [KVPair.Key pair] = Some val)
  /\ (forall pair,
        kvFilter e (KVPair.Key pair) = false \/ ParseFloat (KVPair.Value pair) = None ->
        pair_body ParseFloat e pair = e)
  /\ (forall pairs,
        kvPrefix e <> "" ->
        KV_List c (kvPrefix e) = (pairs, None) ->
        setKeyValues ParseFloat c e
        = (foldl (pair_body ParseFloat) e pairs, [QKVList (kvPrefix e)])
        /\ (NoDup (map KVPair.Key pairs) ->
            forall pair, pair ∈ pairs ->
              keyValues (fst (setKeyValues ParseFloat c (with_keyValues ∅ e)))
                !! [KVPair.Key pair]
              = if kvFilter e (KVPair.Key pair) then ParseFloat (KVPair.Value pair)
                else None)).
Proof.
  split; [|split; [|split]].
  - intros Hp. unfold setKeyValues. by rewrite Hp.
  - intros pair val Hk Hv. rewrite pair_body_keyValues, Hk, Hv. apply lookup_insert_eq.
  - intros pair H. unfold pair_body.
    destruct (kvFilter e (KVPair.Key pair)); [|done].
    destruct H as [H|H]; [done|]. by rewrite H.
  - intros pairs Hp Hl.
    assert (Hnb : String.eqb (kvPrefix e) "" = false) by by apply String.eqb_neq.
    split.
    + unfold setKeyValues. by rewrite Hnb, Hl.
    + intros Hnd pair Hin. unfold setKeyValues. simpl kvPrefix. rewrite Hnb, Hl. cbn [fst].
      rewrite pairs_lookup by done. simpl.
      destruct (kvFilter e _); [|apply lookup_empty].
      destruct (ParseFloat _); [done|apply lookup_empty].
Qed.

(** ** The trace of the dispatcher *)

Lemma service_bodies_sends (c : Client) (names : list string) :
  sends (flat_map (service_body c) names)
  = SentServices <$> omap (service_batch c) names.
Proof.
  induction names as [|s names IH]; [done|].
  cbn [flat_map]. unfold sends in *. rewrite omap_app, IH.
  change (omap (service_batch c) (s :: names))
    with (match service_batch c s with
          | Some b => b :: omap (service_batch c) names
          | None => omap (service_batch c) names
          end).
  assert (Hb : service_batch c s
               = match Health_Service c s with
                 | (s_entries, None) => Some s_entries
                 | (_, Some _) => None
                 end) by reflexivity.
  rewrite Hb. unfold service_body.
  destruct (Health_Service c s) as [s_entries [err|]]; reflexivity.
Qed.

Lemma service_bodies_health_calls (c : Client) (names : list string) :
  health_calls (flat_map (service_body c) names) = names.
Proof.
  induction names as [|s names IH]; [done|].
  cbn [flat_map]. unfold health_calls in *. rewrite omap_app, IH.
  unfold service_body.
  destruct (Health_Service c s) as [s_entries [err|]]; reflexivity.
Qed.

Lemma service_body_effect (c : Client) (s : string) e :
  dispatch_effect e (service_body c s) = e.
Proof.
  unfold service_body. by destruct (Health_Service c s) as [s_entries [err|]].
Qed.

Lemma service_bodies_effect (c : Client) (names : list string) e :
  dispatch_effect e (flat_map (service_body c) names) = e.
Proof.
  induction names as [|s names IH]; [done|].
  cbn [flat_map]. unfold dispatch_effect. rewrite foldl_app.
  fold (dispatch_effect e (service_body c s)). rewrite service_body_effect.
  exact IH.
Qed.

Lemma batches_sent (bs : list (list ServiceEntry.t)) :
  batches (SentServices <$> bs) = bs.
Proof.
  induction bs as [|b bs IH]; [done|].
  change (batches (SentServices <$> b :: bs)) with (b :: batches (SentServices <$> bs)).
  by rewrite IH.
Qed.

(** C7: after a successful peer query, the call for the service names is
    followed at once by the write of the service count, whatever its error
    result; when that call reports an error only the two closes follow: no
    health query and no send.  Run on its own the dispatcher leaves the
    number of returned names in the service-count gauge in both cases. *)
Theorem C7_service_count (c : Client) :
  snd (Status_Peers c) = None ->
  (exists pre post,
     queryClient c
     = pre ++ ACall QServices
           :: AServiceCount (Z.of_nat (length (fst (Catalog_Services c)))) :: post
     /\ calls pre = [QPeers; QNodes]
     /\ sends pre = []
     /\ (snd (Catalog_Services c) <> None -> post = [ACloseChecks; ACloseServices]))
  /\ forall e,
       serviceCount (dispatch_effect e (queryClient c))
       = Z.of_nat (length (fst (Catalog_Services c))).
Proof.
  intros Hp. unfold queryClient, queryClient_body.
  destruct (Status_Peers c) as [peers perr]. simpl in Hp. subst perr.
  destruct (Catalog_Nodes c) as [nodes nerr].
  destruct (Catalog_Services c) as [serviceNames serr]. cbn [fst snd].
  split.
  - exists (ACall QPeers :: AUp 1 :: AClusterServers (Z.of_nat (length peers))
            :: ACall QNodes
            :: match nerr with
               | Some _ => []
               | None => [ANodeCount (Z.of_nat (length nodes))]
               end).
    eexists. split; [|split; [|split]].
    + cbn [app]. rewrite <- app_assoc. cbn [app]. reflexivity.
    + by destruct nerr.
    + by destruct nerr.
    + intros Hs. by destruct serr.
  - intros e. destruct nerr as [nerr|], serr as [serr|]; cbn [app];
      unfold dispatch_effect; cbn [foldl]; try reflexivity.
    all: rewrite !foldl_app.
    all: match goal with
         | |- context [foldl _ ?e0 (flat_map (service_body ?c0) ?l)] =>
             fold (dispatch_effect e0 (flat_map (service_body c0) l));
             rewrite service_bodies_effect
         end.
    all: by destruct (Health_State c) as [c_entries [cerr|]].
Qed.

(** ** The five gauges depend on the received values only *)

Lemma entry_body_health {F G : Type} (sa : @BatchState F) (sb : @BatchState G) x :
  health (bs_exporter sa) = health (bs_exporter sb) ->
  bs_total sa = bs_total sb ->
  bs_healthy sa = bs_healthy sb ->
  health (bs_exporter (entry_body sa x)) = health (bs_exporter (entry_body sb x))
  /\ bs_total (entry_body sa x) = bs_total (entry_body sb x)
  /\ bs_healthy (entry_body sa x) = bs_healthy (entry_body sb x).
Proof.
  unfold health. intros [= H1 H2 H3 H4 H5] Ht Hh.
  unfold entry_body. simpl. rewrite H1, H2, H3, H4, H5, Ht, Hh. done.
Qed.

Lemma batch_health {F G : Type} batch (sa : @BatchState F) (sb : @BatchState G) :
  health (bs_exporter sa) = health (bs_exporter sb) ->
  bs_total sa = bs_total sb ->
  bs_healthy sa = bs_healthy sb ->
  health (bs_exporter (foldl entry_body sa batch))
  = health (bs_exporter (foldl entry_body sb batch)).
Proof.
  revert sa sb. induction batch as [|x batch IH]; intros sa sb He Ht Hh; [done|].
  cbn [foldl]. destruct (entry_body_health sa sb x He Ht Hh) as (He' & Ht' & Hh').
  by apply IH.
Qed.

Lemma check_body_health {F G : Type} (ea : @Exporter F) (eb : @Exporter G) hc :
  health ea = health eb -> health (check_body ea hc) = health (check_body eb hc).
Proof.
  unfold health. intros [= H1 H2 H3 H4 H5]. unfold check_body.
  destruct (String.eqb _ _); simpl; rewrite ?H1, ?H2, ?H3, ?H4, ?H5; done.
Qed.

Lemma consume_health {F G : Type} (ea : @Exporter F) (eb : @Exporter G) (v : Sent) :
  health ea = health eb -> health (consume ea v) = health (consume eb v).
Proof.
  intros He. destruct v as [batch|entry].
  - destruct batch as [|x batch]; [done|].
    unfold consume. cbn [case_services fst]. apply batch_health; [|done|done].
    simpl. unfold health in *. injection He as H1 H2 H3 H4 H5. simpl.
    by rewrite H1, H2, H3, H4, H5.
  - unfold consume, case_checks. cbn [fst]. revert ea eb He.
    induction entry as [|hc entry IH]; intros ea eb He; [done|].
    cbn [foldl]. apply IH. by apply check_body_health.
Qed.

Lemma health_of_snoc e (vs : list Sent) (v : Sent) :
  health e = health_of vs -> health (consume e v) = health_of (vs ++ [v]).
Proof.
  unfold health_of, drain. rewrite foldl_snoc. apply consume_health.
Qed.

Lemma health_of_reset e : health (reset_health e) = health_of [].
Proof. reflexivity. Qed.

(** ** The closes come last in the trace *)

Lemma service_bodies_no_close (c : Client) (names : list string) :
  existsb is_close_checks (flat_map (service_body c) names) = false
  /\ existsb is_close_services (flat_map (service_body c) names) = false.
Proof.
  induction names as [|s names [IHc IHs]]; [done|].
  cbn [flat_map]. rewrite !existsb_app, IHc, IHs. unfold service_body.
  by destruct (Health_Service c s) as [s_entries [err|]].
Qed.

Lemma body_no_close (c : Client) :
  existsb is_close_checks (queryClient_body c) = false
  /\ existsb is_close_services (queryClient_body c) = false.
Proof.
  unfold queryClient_body.
  destruct (Status_Peers c) as [peers [perr|]]; [done|].
  destruct (Catalog_Nodes c) as [nodes nerr].
  destruct (Catalog_Services c) as [serviceNames [serr|]].
  - by destruct nerr.
  - destruct (service_bodies_no_close c (map fst serviceNames)) as [Hc Hs].
    destruct (Health_State c) as [c_entries cerr].
    destruct nerr, cerr; cbn [app existsb is_close_checks is_close_services orb];
      rewrite !existsb_app, ?Hc, ?Hs; done.
Qed.

Lemma trace_after_close (c : Client) (done rest : list Action) :
  queryClient c = done ++ rest ->
  (existsb is_close_checks done = true ->
   sends rest = [] /\ sends done = sends (queryClient c))
  /\ (existsb is_close_services done = true -> existsb is_close_checks done = true).
Proof.
  intros Hq. pose proof Hq as Hq'. unfold queryClient in Hq'.
  destruct (body_no_close c) as [Hbc Hbs].
  assert (Hsends : sends rest = [] -> sends done = sends (queryClient c)).
  { intros Hr. rewrite Hq. unfold sends in *. by rewrite omap_app, Hr, app_nil_r. }
  apply app_eq_inv in Hq' as [(k & Hbody & _)|(k & Hdone & Hk)].
  - rewrite Hbody, !existsb_app in Hbc, Hbs.
    apply orb_false_iff in Hbc as [-> _]. apply orb_false_iff in Hbs as [-> _]. done.
  - subst done. rewrite !existsb_app, Hbc, Hbs. cbn [orb].
    destruct k as [|a [|b [|? ?]]]; simplify_eq/=; try done.
    all: split; [intros _; split; [done|by apply Hsends]|done].
Qed.

Lemma sends_snoc_internal (done : list Action) (a : Action) :
  internal a = true -> sends (done ++ [a]) = sends done.
Proof.
  intros Ha. unfold sends. rewrite omap_app. destruct a; simplify_eq/=; by rewrite app_nil_r.
Qed.

(** ** What each step leaves alone *)

Lemma case_services_frame e (service : list ServiceEntry.t) (b : bool) :
  keyValues (fst (case_services e service b)) = keyValues e
  /\ kvPrefix (fst (case_services e service b)) = kvPrefix e
  /\ kvFilter (fst (case_services e service b)) = kvFilter e
  /\ snd (case_services e service b) = b.
Proof.
  destruct service as [|x batch]; [done|].
  rewrite case_services_cons. cbn [fst snd].
  destruct (batch_frame (x :: batch) (mkBatchState (batch_start e x batch) ∅ ∅))
    as (_ & _ & _ & _ & _ & _ & -> & -> & ->).
  done.
Qed.

Lemma case_checks_frame e (entry : list HealthCheck.t) (b : bool) :
  keyValues (fst (case_checks e entry b)) = keyValues e
  /\ kvPrefix (fst (case_checks e entry b)) = kvPrefix e
  /\ kvFilter (fst (case_checks e entry b)) = kvFilter e
  /\ snd (case_checks e entry b) = b.
Proof.
  unfold case_checks. cbn [fst snd].
  destruct (check_body_frame entry e) as (_ & _ & _ & _ & _ & _ & _ & _ & -> & -> & ->).
  done.
Qed.

Lemma action_exporter_frame (a : Action) e :
  health (action_exporter a e) = health e
  /\ keyValues (action_exporter a e) = keyValues e
  /\ kvPrefix (action_exporter a e) = kvPrefix e
  /\ kvFilter (action_exporter a e) = kvFilter e.
Proof. by destruct a. Qed.

Lemma setKeyValues_frame (c : Client) e :
  health (fst (setKeyValues ParseFloat c e)) = health e
  /\ kvPrefix (fst (setKeyValues ParseFloat c e)) = kvPrefix e
  /\ kvFilter (fst (setKeyValues ParseFloat c e)) = kvFilter e.
Proof.
  unfold setKeyValues. destruct (String.eqb _ _); [done|].
  destruct (KV_List c (kvPrefix e)) as [pairs [err|]]; [done|]. cbn [fst].
  destruct (pairs_frame pairs e) as (_ & _ & _ & _ & -> & -> & ->). done.
Qed.

Lemma pairs_congr (pairs : list KVPair.t) (ea eb : @Exporter float64) :
  keyValues ea = keyValues eb ->
  kvFilter ea = kvFilter eb ->
  keyValues (foldl (pair_body ParseFloat) ea pairs)
  = keyValues (foldl (pair_body ParseFloat) eb pairs).
Proof.
  intros Hk Hf. induction pairs as [|p pairs IH] using rev_ind; [done|].
  rewrite !foldl_snoc, !pair_body_keyValues, IH.
  destruct (pairs_frame pairs ea) as (_ & _ & _ & _ & _ & _ & Ha).
  destruct (pairs_frame pairs eb) as (_ & _ & _ & _ & _ & _ & Hb).
  simpl in Ha, Hb. by rewrite Ha, Hb, Hf.
Qed.

Lemma kv_of_config (c : Client) (ea eb : @Exporter float64) :
  kvPrefix ea = kvPrefix eb ->
  kvFilter ea = kvFilter eb ->
  kv_of ParseFloat c ea = kv_of ParseFloat c eb.
Proof.
  intros Hp Hf. unfold kv_of, setKeyValues. simpl kvPrefix. rewrite Hp.
  destruct (String.eqb _ _); [done|].
  destruct (KV_List c (kvPrefix eb)) as [pairs [err|]]; [done|]. cbn [fst].
  by apply pairs_congr.
Qed.

Lemma kv_of_empty (c : Client) e :
  keyValues e = ∅ -> kv_of ParseFloat c e = keyValues (fst (setKeyValues ParseFloat c e)).
Proof.
  intros Hk. unfold kv_of. f_equal. f_equal. f_equal.
  destruct e. simpl in Hk. subst. reflexivity.
Qed.

(** ** The invariant is kept by every step *)

Lemma scrape_inv_init (c : Client) e0 (i : nat) : scrape_inv ParseFloat c (init e0) i.
Proof. unfold scrape_inv. simpl. split; [|done]. split; done. Qed.

(** A step that does not concern call [j]. *)
Lemma scrape_inv_other (c : Client) (w w' : @World float64) (j : nat) :
  scrape_inv ParseFloat c w j ->
  scrapes w' j = scrapes w j ->
  (mutex w' = Some j <-> mutex w = Some j) ->
  (holds_lock (pc (scrapes w j)) = true ->
   health (exporter w') = health (exporter w)
   /\ keyValues (exporter w') = keyValues (exporter w)) ->
  kvPrefix (exporter w') = kvPrefix (exporter w) ->
  kvFilter (exporter w') = kvFilter (exporter w) ->
  scrape_inv ParseFloat c w' j.
Proof.
  unfold scrape_inv. intros (Hlock & Hd) Hs Hm He Hp Hf. rewrite Hs.
  split; [by rewrite Hm|].
  destruct (dispatcher (scrapes w j)) as [rest|]; [|done].
  destruct Hd as (Hne & done & Hq & Hsc & Hcc & Hpc).
  split; [done|]. exists done. split; [done|]. split; [done|]. split; [done|].
  rewrite (kv_of_config c (exporter w') (exporter w) Hp Hf).
  destruct (pc (scrapes w j)); try done;
    destruct (He eq_refl) as [Hh Hk]; rewrite ?Hh, ?Hk; done.
Qed.

Lemma lock_unique (ci cj : Client) (w : @World float64) (i j : nat) :
  scrape_inv ParseFloat ci w i ->
  scrape_inv ParseFloat cj w j ->
  holds_lock (pc (scrapes w i)) = true ->
  holds_lock (pc (scrapes w j)) = true ->
  i = j.
Proof.
  intros [Hi _] [Hj _] Hli Hlj. apply Hi in Hli. apply Hj in Hlj. congruence.
Qed.

Lemma action_scrape_spec (a : Action) (rest : list Action) (s : Scrape) :
  pc (action_scrape a rest s) = pc s
  /\ dispatcher (action_scrape a rest s) = Some rest
  /\ services_closed (action_scrape a rest s) = services_closed s || is_close_services a
  /\ checks_closed (action_scrape a rest s) = checks_closed s || is_close_checks a.
Proof. destruct a; simpl; rewrite ?orb_false_r, ?orb_true_r; done. Qed.

Lemma existsb_snoc {A : Type} (f : A -> bool) (l : list A) (a : A) :
  existsb f (l ++ [a]) = existsb f l || f a.
Proof. rewrite existsb_app. simpl. by rewrite orb_false_r. Qed.

Lemma dispatcher_step_inv (clients : nat -> Client) e0 (w w' : @World float64) (i : nat) :
  world_inv ParseFloat clients e0 w ->
  dispatcher_step i w w' ->
  world_inv ParseFloat clients e0 w'.
Proof.
  intros (Hinv & Hp & Hf) [a rest Hdisp Hint].
  destruct (action_exporter_frame a (exporter w)) as (Hh & Hk & Hp' & Hf').
  split; [|split; simpl; congruence].
  intros j. destruct (decide (j = i)) as [->|Hne].
  - destruct (Hinv i) as (Hlock & Hd). rewrite Hdisp in Hd.
    destruct Hd as (Hpc & done & Hq & Hsc & Hcc & Hcase).
    destruct (action_scrape_spec a rest (scrapes w i)) as (Epc & Ed & Es & Ec).
    unfold scrape_inv. cbn [scrapes exporter mutex]. rewrite fn_lookup_insert.
    rewrite Epc, Ed, Es, Ec. split; [done|]. split; [done|].
    exists (done ++ [a]).
    split; [by rewrite <- app_assoc|].
    split; [by rewrite existsb_snoc, Hsc|].
    split; [by rewrite existsb_snoc, Hcc|].
    rewrite (sends_snoc_internal done a Hint), Hh, Hk.
    rewrite (kv_of_config (clients i) (action_exporter a (exporter w)) (exporter w) Hp' Hf').
    destruct (pc (scrapes w i)); try done.
    destruct Hcase as [? Hr]. split; [done|]. intros Hrun. by rewrite (Hr Hrun).
  - apply (scrape_inv_other _ w); [apply Hinv| |done|done|done|done].
    cbn [scrapes]. by rewrite fn_lookup_insert_ne.
Qed.

Lemma collector_step_inv (clients : nat -> Client) e0 (w w' : @World float64) (i : nat) :
  world_inv ParseFloat clients e0 w ->
  collector_step ParseFloat clients i w w' ->
  world_inv ParseFloat clients e0 w'.
Proof.
  intros (Hinv & Hp & Hf) Hstep.
  assert (Hother : forall (e' : @Exporter float64) (m' : option nat) (s' : Scrape) (j : nat),
            j <> i ->
            (m' = Some j <-> mutex w = Some j) ->
            (holds_lock (pc (scrapes w j)) = true ->
             health e' = health (exporter w) /\ keyValues e' = keyValues (exporter w)) ->
            kvPrefix e' = kvPrefix (exporter w) ->
            kvFilter e' = kvFilter (exporter w) ->
            scrape_inv ParseFloat (clients j) (mkWorld e' m' (<[i := s']> (scrapes w))) j).
  { intros e' m' s' j Hne Hm He Hp' Hf'.
    apply (scrape_inv_other _ w); [apply Hinv| |done|done|done|done].
    cbn [scrapes]. by rewrite fn_lookup_insert_ne. }
  assert (Hexcl : forall j, j <> i -> holds_lock (pc (scrapes w i)) = true ->
            holds_lock (pc (scrapes w j)) = true -> False).
  { intros j Hne Hli Hlj. apply Hne. symmetry.
    exact (lock_unique _ _ w i j (Hinv i) (Hinv j) Hli Hlj). }
  destruct (Hinv i) as (Hlock & Hd).
  destruct Hstep as [Hpc|Hpc Hm|Hpc|service rest Hpc Hdisp|entry rest Hpc Hdisp
                    |Hpc Hcl|Hpc Hcl|Hpc|Hpc|Hpc|Hpc|Hpc|Hpc];
    rewrite Hpc in Hlock, Hexcl; cbn [holds_lock] in Hlock, Hexcl.
  - (* go *)
    split; [|done]. intros j. destruct (decide (j = i)) as [->|Hne]; [|by apply Hother].
    unfold scrape_inv. cbn [scrapes exporter mutex]. rewrite fn_lookup_insert. cbn.
    split; [split; [done|by intros ?%Hlock]|]. split; [done|].
    exists []. done.
  - (* lock *)
    split; [|done]. intros j. destruct (decide (j = i)) as [->|Hne].
    + unfold scrape_inv. cbn [scrapes exporter mutex]. rewrite fn_lookup_insert. cbn.
      split; [done|].
      destruct (dispatcher (scrapes w i)) as [rest|]; [|destruct Hd; congruence].
      destruct Hd as (_ & done & Hq & Hsc & Hcc & Hcase). rewrite Hpc in Hcase.
      split; [done|]. by exists done.
    + apply Hother; try done. rewrite Hm. split; congruence.
  - (* the five resets *)
    split; [|done]. intros j. destruct (decide (j = i)) as [->|Hne].
    + unfold scrape_inv. cbn [scrapes exporter mutex]. rewrite fn_lookup_insert. cbn.
      split; [done|].
      destruct (dispatcher (scrapes w i)) as [rest|]; [|destruct Hd; congruence].
      destruct Hd as (_ & done & Hq & Hsc & Hcc & Hcase). rewrite Hpc in Hcase.
      split; [done|]. exists done. rewrite Hcase. done.
    + apply Hother; try done. intros Hlj. by destruct (Hexcl j).
  - (* a batch is received *)
    destruct (case_services_frame (exporter w) service true) as (Hk & Hp' & Hf' & Hb).
    split; [|split; cbn [exporter]; congruence].
    intros j. destruct (decide (j = i)) as [->|Hne].
    + unfold scrape_inv. cbn [scrapes exporter mutex]. rewrite fn_lookup_insert. cbn.
      rewrite Hb. split; [done|]. rewrite Hdisp in Hd.
      destruct Hd as (_ & done & Hq & Hsc & Hcc & Hcase). rewrite Hpc in Hcase.
      destruct Hcase as [Hh _]. split; [done|].
      exists (done ++ [ASendServices service]).
      split; [by rewrite <- app_assoc|].
      split; [by rewrite existsb_snoc, Hsc, orb_false_r|].
      split; [by rewrite existsb_snoc, Hcc, orb_false_r|].
      split; [|done]. unfold sends. rewrite omap_app.
      apply (health_of_snoc (exporter w) (sends done) (SentServices service) Hh).
    + apply Hother; try done. intros Hlj. by destruct (Hexcl j).
  - (* the checks are received *)
    destruct (case_checks_frame (exporter w) entry true) as (Hk & Hp' & Hf' & Hb).
    split; [|split; cbn [exporter]; congruence].
    intros j. destruct (decide (j = i)) as [->|Hne].
    + unfold scrape_inv. cbn [scrapes exporter mutex]. rewrite fn_lookup_insert.
      cbn [pc dispatcher services_closed checks_closed holds_lock].
      rewrite Hb. split; [done|]. rewrite Hdisp in Hd.
      destruct Hd as (_ & done & Hq & Hsc & Hcc & Hcase). rewrite Hpc in Hcase.
      destruct Hcase as [Hh _]. split; [done|].
      exists (done ++ [ASendChecks entry]).
      split; [by rewrite <- app_assoc|].
      split; [by rewrite existsb_snoc, Hsc, orb_false_r|].
      split; [by rewrite existsb_snoc, Hcc, orb_false_r|].
      split; [|done]. unfold sends. rewrite omap_app.
      apply (health_of_snoc (exporter w) (sends done) (SentChecks entry) Hh).
    + apply Hother; try done. intros Hlj. by destruct (Hexcl j).
  - (* the services channel is seen closed *)
    split; [|done]. intros j. destruct (decide (j = i)) as [->|Hne].
    + unfold scrape_inv. cbn [scrapes exporter mutex]. rewrite fn_lookup_insert. cbn.
      split; [done|].
      destruct (dispatcher (scrapes w i)) as [rest|]; [|destruct Hd; congruence].
      destruct Hd as (_ & done & Hq & Hsc & Hcc & Hcase). rewrite Hpc in Hcase.
      destruct Hcase as [Hh _]. split; [done|]. exists done.
      split; [done|]. split; [done|]. split; [done|]. split; [done|]. intros _.
      rewrite Hcc. apply (trace_after_close _ _ _ Hq). by rewrite <- Hsc.
    + apply Hother; try done.
  - (* the checks channel is seen closed *)
    split; [|done]. intros j. destruct (decide (j = i)) as [->|Hne].
    + unfold scrape_inv. cbn [scrapes exporter mutex]. rewrite fn_lookup_insert. cbn.
      split; [done|].
      destruct (dispatcher (scrapes w i)) as [rest|]; [|destruct Hd; congruence].
      destruct Hd as (_ & done & Hq & Hsc & Hcc & Hcase). rewrite Hpc in Hcase.
      destruct Hcase as [Hh _]. split; [done|]. by exists done.
    + apply Hother; try done.
  - (* the loop ends *)
    split; [|done]. intros j. destruct (decide (j = i)) as [->|Hne].
    + unfold scrape_inv. cbn [scrapes exporter mutex]. rewrite fn_lookup_insert. cbn.
      split; [done|].
      destruct (dispatcher (scrapes w i)) as [rest|]; [|destruct Hd; congruence].
      destruct Hd as (_ & done & Hq & Hsc & Hcc & Hcase). rewrite Hpc in Hcase.
      destruct Hcase as [Hh Hr]. split; [done|]. exists done.
      split; [done|]. split; [done|]. split; [done|].
      rewrite Hh. f_equal. apply (trace_after_close _ _ _ Hq).
      rewrite <- Hcc. by apply Hr.
    + apply Hother; try done.
  - (* the metrics are handed over *)
    split; [|done]. intros j. destruct (decide (j = i)) as [->|Hne].
    + unfold scrape_inv. cbn [scrapes exporter mutex]. rewrite fn_lookup_insert. cbn.
      split; [done|].
      destruct (dispatcher (scrapes w i)) as [rest|]; [|destruct Hd; congruence].
      destruct Hd as (_ & done & Hq & Hsc & Hcc & Hcase). rewrite Hpc in Hcase.
      split; [done|]. by exists done.
    + apply Hother; try done.
  - (* the key/value gauge is reset *)
    split; [|done]. intros j. destruct (decide (j = i)) as [->|Hne].
    + unfold scrape_inv. cbn [scrapes exporter mutex]. rewrite fn_lookup_insert. cbn.
      split; [done|].
      destruct (dispatcher (scrapes w i)) as [rest|]; [|destruct Hd; congruence].
      destruct Hd as (_ & done & Hq & Hsc & Hcc & Hcase). rewrite Hpc in Hcase.
      split; [done|]. by exists done.
    + apply Hother; try done. intros Hlj. by destruct (Hexcl j).
  - (* the key/value stage *)
    destruct (setKeyValues_frame (clients i) (exporter w)) as (Hh' & Hp' & Hf').
    split; [|split; cbn [exporter]; congruence].
    intros j. destruct (decide (j = i)) as [->|Hne].
    + unfold scrape_inv. cbn [scrapes exporter mutex]. rewrite fn_lookup_insert.
      cbn [pc dispatcher services_closed checks_closed holds_lock at_pc].
      split; [done|].
      destruct (dispatcher (scrapes w i)) as [rest|]; [|destruct Hd; congruence].
      destruct Hd as (_ & done & Hq & Hsc & Hcc & Hcase). rewrite Hpc in Hcase.
      destruct Hcase as [Hh Hk]. split; [done|]. exists done.
      split; [done|]. split; [done|]. split; [done|]. split; [congruence|].
      rewrite (kv_of_config (clients i) _ (exporter w) Hp' Hf').
      symmetry. by apply kv_of_empty.
    + apply Hother; try done. intros Hlj. by destruct (Hexcl j).
  - (* the key/value gauge is handed over *)
    split; [|done]. intros j. destruct (decide (j = i)) as [->|Hne].
    + unfold scrape_inv. cbn [scrapes exporter mutex]. rewrite fn_lookup_insert. cbn.
      split; [done|].
      destruct (dispatcher (scrapes w i)) as [rest|]; [|destruct Hd; congruence].
      destruct Hd as (_ & done & Hq & Hsc & Hcc & Hcase). rewrite Hpc in Hcase.
      split; [done|]. by exists done.
    + apply Hother; try done.
  - (* unlock *)
    split; [|done]. intros j. destruct (decide (j = i)) as [->|Hne].
    + unfold scrape_inv. cbn [scrapes exporter mutex]. rewrite fn_lookup_insert. cbn.
      split; [done|].
      destruct (dispatcher (scrapes w i)) as [rest|]; [|destruct Hd; congruence].
      destruct Hd as (_ & done & Hq & Hsc & Hcc & Hcase).
      split; [done|]. by exists done.
    + apply Hother; try done.
      destruct Hlock as [Hl _]. rewrite (Hl eq_refl). split; congruence.
Qed.

Lemma step_inv (clients : nat -> Client) e0 (w w' : @World float64) :
  world_inv ParseFloat clients e0 w ->
  step ParseFloat clients w w' ->
  world_inv ParseFloat clients e0 w'.
Proof.
  intros Hinv [i [Hc|Hd]].
  - by apply (collector_step_inv clients e0 w w' i).
  - by apply (dispatcher_step_inv clients e0 w w' i).
Qed.

Lemma reachable_inv (clients : nat -> Client) e0 (w : @World float64) :
  reachable ParseFloat clients e0 w -> world_inv ParseFloat clients e0 w.
Proof.
  unfold reachable. revert w.
  apply (rtc_ind_r (fun w => world_inv ParseFloat clients e0 w)).
  - split; [|done]. intros i. apply scrape_inv_init.
  - intros w1 w2 _ Hstep IH. by apply (step_inv clients e0 w1 w2).
Qed.

End Properties.

(** * Properties of a whole cycle *)

Section Cycle.

Context {float64 : Type}.
Variable ParseFloat : string -> option float64.

(** ** The gauges only grow within a cycle, and only by what is received *)

Lemma entry_body_has {F : Type} (sa : @BatchState F) (x : ServiceEntry.t) :
  has_entry_labels (bs_exporter (entry_body sa x)) (entry_labels x).
Proof.
  unfold has_entry_labels.
  rewrite entry_body_gauge_flag, entry_body_gauge_total, entry_body_gauge_healthy.
  rewrite !lookup_insert_eq. eauto.
Qed.

Lemma entry_body_keeps {F : Type} (sa : @BatchState F) (x : ServiceEntry.t) (lv : list string) :
  has_entry_labels (bs_exporter sa) lv ->
  has_entry_labels (bs_exporter (entry_body sa x)) lv.
Proof.
  destruct (decide (entry_labels x = lv)) as [<-|Hne]; [intros _; apply entry_body_has|].
  unfold has_entry_labels.
  rewrite entry_body_gauge_flag, entry_body_gauge_total, entry_body_gauge_healthy.
  by rewrite !lookup_insert_ne.
Qed.

Lemma entry_body_any {F : Type} (sa : @BatchState F) (x : ServiceEntry.t) (lv : list string) :
  any_entry_labels (bs_exporter (entry_body sa x)) lv ->
  lv = entry_labels x \/ any_entry_labels (bs_exporter sa) lv.
Proof.
  destruct (decide (entry_labels x = lv)) as [<-|Hne]; [by left|].
  unfold any_entry_labels.
  rewrite entry_body_gauge_flag, entry_body_gauge_total, entry_body_gauge_healthy.
  rewrite !lookup_insert_ne by done. by right.
Qed.

Lemma batch_keeps {F : Type} (batch : list ServiceEntry.t) (sa : @BatchState F)
    (lv : list string) :
  has_entry_labels (bs_exporter sa) lv ->
  has_entry_labels (bs_exporter (foldl entry_body sa batch)) lv.
Proof.
  induction batch as [|x batch IH] using rev_ind; [done|].
  intros H. rewrite foldl_snoc. by apply entry_body_keeps, IH.
Qed.

Lemma batch_has {F : Type} (batch : list ServiceEntry.t) (sa : @BatchState F)
    (y : ServiceEntry.t) :
  y ∈ batch ->
  has_entry_labels (bs_exporter (foldl entry_body sa batch)) (entry_labels y).
Proof.
  induction batch as [|x batch IH] using rev_ind; intros Hin.
  - by apply elem_of_nil in Hin.
  - rewrite foldl_snoc. apply elem_of_app in Hin as [Hin|Hin].
    + by apply entry_body_keeps, IH.
    + apply list_elem_of_singleton in Hin. subst. apply entry_body_has.
Qed.

Lemma batch_any {F : Type} (batch : list ServiceEntry.t) (sa : @BatchState F)
    (lv : list string) :
  any_entry_labels (bs_exporter (foldl entry_body sa batch)) lv ->
  any_entry_labels (bs_exporter sa) lv \/ exists y, y ∈ batch /\ lv = entry_labels y.
Proof.
  induction batch as [|x batch IH] using rev_ind; [by left|].
  rewrite foldl_snoc. intros [->|H]%entry_body_any.
  - right. exists x. split; [|done]. apply elem_of_app. right. by apply list_elem_of_singleton.
  - destruct (IH H) as [?|(y & Hy & ->)]; [by left|right].
    exists y. split; [|done]. apply elem_of_app. by left.
Qed.

Lemma checks_observed {F : Type} (entry : list HealthCheck.t) (ea : @Exporter F)
    (lv : list string) :
  is_Some (nodeChecks (foldl check_body ea entry) !! lv) ->
  is_Some (nodeChecks ea !! lv)
  \/ exists hc, hc ∈ entry /\ HealthCheck.ServiceID hc = ""
                /\ lv = [HealthCheck.CheckID hc; HealthCheck.Node hc].
Proof.
  induction entry as [|hc entry IH] using rev_ind; [by left|].
  rewrite foldl_snoc. unfold check_body at 1.
  assert (Hold : is_Some (nodeChecks (foldl check_body ea entry) !! lv) ->
            is_Some (nodeChecks ea !! lv)
            \/ exists hc', hc' ∈ entry ++ [hc] /\ HealthCheck.ServiceID hc' = ""
                           /\ lv = [HealthCheck.CheckID hc'; HealthCheck.Node hc']).
  { intros H. destruct (IH H) as [?|(hc' & Hin & ?)]; [by left|right].
    exists hc'. split; [apply elem_of_app; by left|done]. }
  destruct (String.eqb_spec (HealthCheck.ServiceID hc) "") as [Hid|Hid]; [|exact Hold].
  simpl. destruct (decide ([HealthCheck.CheckID hc; HealthCheck.Node hc] = lv)) as [<-|Hne].
  - intros _. right. exists hc.
    split; [apply elem_of_app; right; by apply list_elem_of_singleton|done].
  - by rewrite lookup_insert_ne.
Qed.

Lemma consume_keeps {F : Type} (ea : @Exporter F) (v : Sent) (lv : list string) :
  (is_Some (serviceNodesTotal ea !! lv) -> is_Some (serviceNodesTotal (consume ea v) !! lv))
  /\ (has_entry_labels ea lv -> has_entry_labels (consume ea v) lv).
Proof.
  destruct v as [[|x batch]|entry].
  - done.
  - rewrite consume_services_cons.
    destruct (batch_frame (x :: batch) (mkBatchState (batch_start ea x batch) ∅ ∅))
      as (_ & _ & _ & _ & Ht & _).
    cbn [bs_exporter] in Ht. split.
    + rewrite Ht. unfold batch_start. simpl serviceNodesTotal.
      intros H. apply lookup_insert_is_Some'. by right.
    + intros H. by apply batch_keeps.
  - rewrite consume_checks. unfold has_entry_labels.
    destruct (check_body_frame entry ea) as (_ & _ & _ & _ & -> & -> & -> & -> & _). done.
Qed.

Lemma consume_has {F : Type} (ea : @Exporter F) (x : ServiceEntry.t)
    (batch : list ServiceEntry.t) :
  is_Some (serviceNodesTotal (consume ea (SentServices (x :: batch)))
             !! [AgentService.Service (ServiceEntry.Service x)])
  /\ forall y, y ∈ x :: batch ->
       has_entry_labels (consume ea (SentServices (x :: batch))) (entry_labels y).
Proof.
  rewrite consume_services_cons.
  destruct (batch_frame (x :: batch) (mkBatchState (batch_start ea x batch) ∅ ∅))
    as (_ & _ & _ & _ & Ht & _).
  cbn [bs_exporter] in Ht. split.
  - rewrite Ht. unfold batch_start. simpl serviceNodesTotal. rewrite lookup_insert_eq. eauto.
  - intros y Hy. by apply batch_has.
Qed.

Lemma drain_has {F : Type} (ea : @Exporter F) (vs : list Sent) (x : ServiceEntry.t)
    (batch : list ServiceEntry.t) :
  SentServices (x :: batch) ∈ vs ->
  is_Some (serviceNodesTotal (drain ea vs)
             !! [AgentService.Service (ServiceEntry.Service x)])
  /\ forall y, y ∈ x :: batch -> has_entry_labels (drain ea vs) (entry_labels y).
Proof.
  unfold drain. induction vs as [|v vs IH] using rev_ind; intros Hin.
  - by apply elem_of_nil in Hin.
  - rewrite foldl_snoc. apply elem_of_app in Hin as [Hin|Hin].
    + destruct (IH Hin) as [Hs He]. split.
      * by apply consume_keeps.
      * intros y Hy. by apply consume_keeps, He.
    + apply list_elem_of_singleton in Hin. subst v. apply consume_has.
Qed.

Lemma consume_observed {F : Type} (ea : @Exporter F) (v : Sent) (lv : list string) :
  (is_Some (serviceNodesTotal (consume ea v) !! lv) ->
   is_Some (serviceNodesTotal ea !! lv) \/ service_observed [v] lv)
  /\ (any_entry_labels (consume ea v) lv ->
      any_entry_labels ea lv \/ entry_observed [v] lv)
  /\ (is_Some (nodeChecks (consume ea v) !! lv) ->
      is_Some (nodeChecks ea !! lv) \/ check_observed [v] lv).
Proof.
  destruct v as [[|x batch]|entry].
  - rewrite consume_services_nil. by repeat split; left.
  - rewrite consume_services_cons.
    destruct (batch_frame (x :: batch) (mkBatchState (batch_start ea x batch) ∅ ∅))
      as (_ & _ & _ & _ & Ht & Hn & _).
    cbn [bs_exporter] in Ht, Hn. split; [|split].
    + rewrite Ht. unfold batch_start. simpl serviceNodesTotal.
      intros [<-|[_ H]]%lookup_insert_is_Some; [right|by left].
      exists x, batch. split; [apply list_elem_of_here|done].
    + intros [H|(y & Hy & ->)]%batch_any; [by left|right].
      exists (x :: batch), y. split; [apply list_elem_of_here|done].
    + rewrite Hn. by left.
  - rewrite consume_checks. unfold any_entry_labels.
    destruct (check_body_frame entry ea) as (_ & _ & _ & _ & -> & -> & -> & -> & _).
    split; [by left|]. split; [by left|].
    intros [H|(hc & Hin & Hid & ->)]%checks_observed; [by left|right].
    exists entry, hc. split; [apply list_elem_of_here|done].
Qed.

Lemma observed_app (vs vs' : list Sent) (lv : list string) :
  (service_observed vs lv \/ service_observed vs' lv -> service_observed (vs ++ vs') lv)
  /\ (entry_observed vs lv \/ entry_observed vs' lv -> entry_observed (vs ++ vs') lv)
  /\ (check_observed vs lv \/ check_observed vs' lv -> check_observed (vs ++ vs') lv).
Proof.
  unfold service_observed, entry_observed, check_observed.
  split; [|split].
  - intros [(x & b & H & ?)|(x & b & H & ?)]; exists x, b;
      (split; [apply elem_of_app; auto|done]).
  - intros [(b & y & H & ?)|(b & y & H & ?)]; exists b, y;
      (split; [apply elem_of_app; auto|done]).
  - intros [(en & hc & H & ?)|(en & hc & H & ?)]; exists en, hc;
      (split; [apply elem_of_app; auto|done]).
Qed.

Lemma drain_observed {F : Type} (ea : @Exporter F) (vs : list Sent) (lv : list string) :
  (is_Some (serviceNodesTotal (drain ea vs) !! lv) ->
   is_Some (serviceNodesTotal ea !! lv) \/ service_observed vs lv)
  /\ (any_entry_labels (drain ea vs) lv ->
      any_entry_labels ea lv \/ entry_observed vs lv)
  /\ (is_Some (nodeChecks (drain ea vs) !! lv) ->
      is_Some (nodeChecks ea !! lv) \/ check_observed vs lv).
Proof.
  unfold drain. induction vs as [|v vs (IHs & IHe & IHc)] using rev_ind.
  - by repeat split; left.
  - rewrite foldl_snoc.
    destruct (consume_observed (foldl consume ea vs) v lv) as (Hs & He & Hc).
    destruct (observed_app vs [v] lv) as (Os & Oe & Oc).
    split; [|split].
    + intros [H|H]%Hs; [destruct (IHs H); auto|auto].
    + intros [H|H]%He; [destruct (IHe H); auto|auto].
    + intros [H|H]%Hc; [destruct (IHc H); auto|auto].
Qed.

(** The gauges of a cycle, from the reset gauges: only what was received. *)
Lemma health_of_observed (vs : list Sent) (lv : list string) :
  let '(total, flag, entries, healthy, checks) := health_of vs in
  (is_Some (total !! lv) -> service_observed vs lv)
  /\ (is_Some (flag !! lv) \/ is_Some (entries !! lv) \/ is_Some (healthy !! lv) ->
      entry_observed vs lv)
  /\ (is_Some (checks !! lv) -> check_observed vs lv).
Proof.
  unfold health_of, health.
  destruct (drain_observed (@blank unit) vs lv) as (Hs & He & Hc).
  split; [|split].
  - intros [H|H]%Hs; [|done]. simpl in H. rewrite lookup_empty in H. by destruct H.
  - intros [H|H]%He; [|done]. unfold any_entry_labels in H. simpl in H.
    rewrite !lookup_empty in H. destruct H as [[? H]|[[? H]|[? H]]]; done.
  - intros [H|H]%Hc; [|done]. simpl in H. rewrite lookup_empty in H. by destruct H.
Qed.

(** ** What a scrape leaves in the exporter *)

Lemma cycle_running (clients : nat -> Client) (e0 : @Exporter float64) (w : World)
    (i : nat) (running : bool) :
  reachable ParseFloat clients e0 w ->
  pc (scrapes w i) = PSetMetrics running ->
  exists done rest,
    queryClient (clients i) = done ++ rest
    /\ dispatcher (scrapes w i) = Some rest
    /\ health (exporter w) = health_of (sends done)
    /\ (running = false ->
        checks_closed (scrapes w i) = true /\ sends rest = []
        /\ sends done = sends (queryClient (clients i))).
Proof.
  intros Hr Hpc. destruct (reachable_inv ParseFloat clients e0 w Hr) as (Hinv & _ & _).
  destruct (Hinv i) as (_ & Hd).
  destruct (dispatcher (scrapes w i)) as [rest|]; [|destruct Hd; congruence].
  destruct Hd as (_ & done & Hq & Hsc & Hcc & Hcase). rewrite Hpc in Hcase.
  destruct Hcase as [Hh Hrun]. exists done, rest.
  split; [done|]. split; [done|]. split; [done|].
  intros ->. specialize (Hrun eq_refl). split; [done|].
  apply (trace_after_close _ _ _ Hq). by rewrite <- Hcc.
Qed.

Lemma cycle_health (clients : nat -> Client) (e0 : @Exporter float64) (w : World) (i : nat) :
  reachable ParseFloat clients e0 w ->
  past_setMetrics (pc (scrapes w i)) = true ->
  health (exporter w) = health_of (sends (queryClient (clients i))).
Proof.
  intros Hr Hpast.
  destruct (pc (scrapes w i)) as [| | |[|]| | | | | |] eqn:Hpc; try done.
  { destruct (cycle_running clients e0 w i false Hr Hpc) as (done & rest & _ & _ & Hh & Hrun).
    destruct (Hrun eq_refl) as (_ & _ & <-). exact Hh. }
  all: destruct (reachable_inv ParseFloat clients e0 w Hr) as (Hinv & _ & _).
  all: destruct (Hinv i) as (_ & Hd).
  all: destruct (dispatcher (scrapes w i)) as [rest|]; [|destruct Hd; congruence].
  all: destruct Hd as (_ & done & Hq & Hsc & Hcc & Hcase); rewrite Hpc in Hcase.
  all: try exact Hcase; by destruct Hcase.
Qed.

Lemma cycle_keyValues (clients : nat -> Client) (e0 : @Exporter float64) (w : World) (i : nat) :
  reachable ParseFloat clients e0 w ->
  past_setKeyValues (pc (scrapes w i)) = true ->
  keyValues (exporter w) = kv_of ParseFloat (clients i) e0.
Proof.
  intros Hr Hpast.
  destruct (reachable_inv ParseFloat clients e0 w Hr) as (Hinv & Hp & Hf).
  rewrite <- (kv_of_config ParseFloat (clients i) (exporter w) e0 Hp Hf).
  destruct (Hinv i) as (_ & Hd).
  destruct (dispatcher (scrapes w i)) as [rest|]; [|destruct Hd as [Hgo _]; by rewrite Hgo in Hpast].
  destruct Hd as (_ & done & Hq & Hsc & Hcc & Hcase).
  destruct (pc (scrapes w i)); try done; by destruct Hcase.
Qed.

Lemma kv_of_observed (c : Client) (e : @Exporter float64) (lv : list string) (val : float64) :
  kv_of ParseFloat c e !! lv = Some val ->
  exists pairs p,
    KV_List c (kvPrefix e) = (pairs, None) /\ p ∈ pairs /\ lv = [KVPair.Key p]
    /\ kvFilter e (KVPair.Key p) = true /\ ParseFloat (KVPair.Value p) = Some val.
Proof.
  unfold kv_of, setKeyValues. simpl kvPrefix.
  destruct (String.eqb _ _); [simpl; by rewrite lookup_empty|].
  destruct (KV_List c (kvPrefix e)) as [pairs [err|]]; [simpl; by rewrite lookup_empty|].
  cbn [fst]. intros [H|(p & Hin & -> & Hk & Hv)]%pairs_observed.
  - simpl in H. by rewrite lookup_empty in H.
  - exists pairs, p. done.
Qed.

Lemma sends_trace (c : Client) :
  snd (Status_Peers c) = None ->
  snd (Catalog_Services c) = None ->
  sends (queryClient c)
  = (SentServices <$> omap (service_batch c) (map fst (fst (Catalog_Services c))))
    ++ match Health_State c with
       | (c_entries, None) => [SentChecks c_entries]
       | (_, Some _) => []
       end
  /\ health_calls (queryClient c) = map fst (fst (Catalog_Services c)).
Proof.
  intros Hp Hs. unfold queryClient, queryClient_body.
  destruct (Status_Peers c) as [peers perr]. simpl in Hp. subst perr.
  destruct (Catalog_Nodes c) as [nodes nerr].
  destruct (Catalog_Services c) as [serviceNames serr]. simpl in Hs. subst serr.
  cbn [fst]. unfold sends, health_calls.
  pose proof (service_bodies_sends c (map fst serviceNames)) as Hsb.
  pose proof (service_bodies_health_calls c (map fst serviceNames)) as Hhc.
  unfold sends, health_calls in Hsb, Hhc.
  destruct (Health_State c) as [c_entries cerr].
  destruct nerr, cerr; cbn [app omap list_omap sent_of health_call_of];
    rewrite !omap_app, ?Hsb, ?Hhc; cbn; rewrite ?app_nil_r; done.
Qed.

(** ** The loop of [setMetrics] can always end *)

Lemma trace_closes (c : Client) : existsb is_close_checks (queryClient c) = true.
Proof. unfold queryClient. rewrite existsb_app. simpl. apply orb_true_r. Qed.

Lemma loop_can_end (clients : nat -> Client) (e0 : @Exporter float64) (i : nat)
    (rest : list Action) :
  forall w : World,
    reachable ParseFloat clients e0 w ->
    pc (scrapes w i) = PSetMetrics true ->
    dispatcher (scrapes w i) = Some rest ->
    exists w', rtc (step ParseFloat clients) w w' /\ pc (scrapes w' i) = PSetMetrics false.
Proof.
  induction rest as [|a rest IH]; intros w Hr Hpc Hd.
  - destruct (reachable_inv ParseFloat clients e0 w Hr) as (Hinv & _ & _).
    destruct (Hinv i) as (_ & Hdi). rewrite Hd in Hdi.
    destruct Hdi as (_ & done & Hq & _ & Hcc & _).
    rewrite app_nil_r in Hq. rewrite <- Hq, trace_closes in Hcc.
    eexists. split.
    + apply rtc_once. exists i. left. by apply c_closed_checks.
    + cbn [scrapes]. rewrite fn_lookup_insert. reflexivity.
  - assert (Hnext : exists w1, step ParseFloat clients w w1
                               /\ pc (scrapes w1 i) = PSetMetrics true
                               /\ dispatcher (scrapes w1 i) = Some rest).
    { destruct (internal a) eqn:Ha.
      - eexists. split; [exists i; right; by apply (d_internal i w a rest)|].
        cbn [scrapes]. rewrite fn_lookup_insert.
        destruct (action_scrape_spec a rest (scrapes w i)) as (-> & -> & _). done.
      - destruct a; try discriminate Ha.
        + eexists. split; [exists i; left; by apply (c_recv_services _ _ i w s_entries rest)|].
          cbn [scrapes]. rewrite fn_lookup_insert. cbn [pc dispatcher].
          by rewrite case_services_frame_b.
        + eexists. split; [exists i; left; by apply (c_recv_checks _ _ i w c_entries rest)|].
          cbn [scrapes]. rewrite fn_lookup_insert. done. }
    destruct Hnext as (w1 & Hstep & Hpc1 & Hd1).
    assert (Hr1 : reachable ParseFloat clients e0 w1) by (eapply rtc_r; eauto).
    destruct (IH w1 Hr1 Hpc1 Hd1) as (w' & Hsteps & Hend).
    exists w'. split; [|done]. by eapply rtc_l.
Qed.

(** ** The vector gauges are written under the mutex *)

Lemma vector_writes_locked (clients : nat -> Client) (e0 : @Exporter float64)
    (w w' : World) (i : nat) :
  reachable ParseFloat clients e0 w ->
  collector_step ParseFloat clients i w w' \/ dispatcher_step i w w' ->
  (health (exporter w'), keyValues (exporter w'))
  <> (health (exporter w), keyValues (exporter w)) ->
  mutex w = Some i.
Proof.
  intros Hr Hstep Hchg.
  destruct (reachable_inv ParseFloat clients e0 w Hr) as (Hinv & _ & _).
  destruct (Hinv i) as (Hlock & _).
  destruct Hstep as [Hc|Hd].
  - destruct Hc as [Hpc|Hpc Hm|Hpc|service rest Hpc Hdisp|entry rest Hpc Hdisp
                   |Hpc Hcl|Hpc Hcl|Hpc|Hpc|Hpc|Hpc|Hpc|Hpc];
      rewrite Hpc in Hlock; cbn [holds_lock] in Hlock;
      first [by apply Hlock | by destruct Hchg].
  - destruct Hd as [a rest Hdisp Hint]. cbn [exporter] in Hchg.
    destruct (action_exporter_frame a (exporter w)) as (Hh & Hk & _).
    rewrite Hh, Hk in Hchg. by destruct Hchg.
Qed.

(** ** The properties of the cycle *)

(** C3, as the code has it: the loop of [setMetrics] ends as soon as one
    receive reports a closed channel.  While the loop runs, the five gauges
    are what the values sent so far give, in the order sent, and the loop can
    always be brought to its end; when it has ended the checks channel is
    closed (the services channel need not be yet), the dispatcher has nothing
    left to send, and the gauges are what all the values of the dispatcher
    give. *)
Theorem C3_aggregator_exit (clients : nat -> Client) (e0 : @Exporter float64)
    (w : World) (i : nat) (running : bool) :
  reachable ParseFloat clients e0 w ->
  pc (scrapes w i) = PSetMetrics running ->
  (exists done rest,
     queryClient (clients i) = done ++ rest
     /\ dispatcher (scrapes w i) = Some rest
     /\ health (exporter w) = health_of (sends done)
     /\ (running = false ->
         checks_closed (scrapes w i) = true
         /\ sends rest = []
         /\ health (exporter w) = health_of (sends (queryClient (clients i)))))
  /\ exists w', rtc (step ParseFloat clients) w w'
                /\ pc (scrapes w' i) = PSetMetrics false.
Proof.
  intros Hr Hpc.
  destruct (cycle_running clients e0 w i running Hr Hpc)
    as (done & rest & Hq & Hd & Hh & Hrun).
  split.
  - exists done, rest. split; [done|]. split; [done|]. split; [done|].
    intros Hf. destruct (Hrun Hf) as (Hc & Hs & Hall). rewrite <- Hall. done.
  - destruct running.
    + by apply (loop_can_end clients e0 i rest).
    + exists w. split; [apply rtc_refl|done].
Qed.


(** C6: the five gauges written by [setMetrics] are reset before the loop and
    the key/value gauge before [setKeyValues]; so once the loop has ended,
    and until the scrape unlocks, the five gauges are a function of the
    values received in this scrape and every label combination in them comes
    from one of these values, and after [setKeyValues] the key/value gauge is
    a function of this scrape's listing and every entry comes from a listed
    pair.  An empty batch changes nothing. *)
Theorem C6_reset_then_rebuild (clients : nat -> Client) (e0 : @Exporter float64)
    (w : World) (i : nat) :
  reachable ParseFloat clients e0 w ->
  (past_setMetrics (pc (scrapes w i)) = true ->
   health (exporter w) = health_of (sends (queryClient (clients i)))
   /\ forall lv,
        (is_Some (serviceNodesTotal (exporter w) !! lv) ->
         service_observed (sends (queryClient (clients i))) lv)
        /\ (any_entry_labels (exporter w) lv ->
            entry_observed (sends (queryClient (clients i))) lv)
        /\ (is_Some (nodeChecks (exporter w) !! lv) ->
            check_observed (sends (queryClient (clients i))) lv))
  /\ (past_setKeyValues (pc (scrapes w i)) = true ->
      keyValues (exporter w) = kv_of ParseFloat (clients i) e0
      /\ forall lv val,
           keyValues (exporter w) !! lv = Some val ->
           exists pairs p,
             KV_List (clients i) (kvPrefix e0) = (pairs, None) /\ p ∈ pairs
             /\ lv = [KVPair.Key p] /\ kvFilter e0 (KVPair.Key p) = true
             /\ ParseFloat (KVPair.Value p) = Some val)
  /\ (forall (e : @Exporter float64) (b : bool), case_services e [] b = (e, b)).
Proof.
  intros Hr. split; [|split; [|done]].
  - intros Hpast. pose proof (cycle_health clients e0 w i Hr Hpast) as Hh.
    split; [done|]. intros lv.
    pose proof (health_of_observed (sends (queryClient (clients i))) lv) as Hobs.
    rewrite <- Hh in Hobs. unfold health in Hobs.
    destruct Hobs as (Hs & He & Hc). done.
  - intros Hpast. pose proof (cycle_keyValues clients e0 w i Hr Hpast) as Hk.
    split; [done|]. intros lv val. rewrite Hk. apply kv_of_observed.
Qed.

(** C8: after successful peer and service-name queries, a health query is
    issued for every service name, in order, whatever the other health
    queries return, and the batches sent are those of the queries that
    succeed; so once the loop of [setMetrics] has ended, and until the scrape
    unlocks, every service whose health query returned a non-empty batch has
    its per-service gauge and every entry of the batch its three
    (service, node) gauges. *)
Theorem C8_failure_isolation (c : Client) :
  snd (Status_Peers c) = None ->
  snd (Catalog_Services c) = None ->
  health_calls (queryClient c) = map fst (fst (Catalog_Services c))
  /\ batches (sends (queryClient c))
     = omap (service_batch c) (map fst (fst (Catalog_Services c)))
  /\ (forall (s : string) (x : ServiceEntry.t) (batch : list ServiceEntry.t)
             (clients : nat -> Client) (e0 : @Exporter float64) (w : World) (i : nat),
        s ∈ map fst (fst (Catalog_Services c)) ->
        Health_Service c s = (x :: batch, None) ->
        clients i = c ->
        reachable ParseFloat clients e0 w ->
        past_setMetrics (pc (scrapes w i)) = true ->
        is_Some (serviceNodesTotal (exporter w)
                   !! [AgentService.Service (ServiceEntry.Service x)])
        /\ forall y, y ∈ x :: batch -> has_entry_labels (exporter w) (entry_labels y)).
Proof.
  intros Hp Hs. destruct (sends_trace c Hp Hs) as [Hsends Hcalls].
  split; [done|]. split.
  - rewrite Hsends. unfold batches. rewrite omap_app.
    fold (batches (SentServices <$> omap (service_batch c) (map fst (fst (Catalog_Services c))))).
    rewrite batches_sent.
    destruct (Health_State c) as [c_entries [cerr|]]; simpl; by rewrite app_nil_r.
  - intros s x batch clients e0 w i Hin Hhs Hc Hr Hpast.
    pose proof (cycle_health clients e0 w i Hr Hpast) as Hh. rewrite Hc in Hh.
    assert (Hsent : SentServices (x :: batch) ∈ sends (queryClient c)).
    { rewrite Hsends. apply elem_of_app. left. apply list_elem_of_fmap.
      exists (x :: batch). split; [done|]. apply list_elem_of_omap.
      exists s. split; [done|]. unfold service_batch. by rewrite Hhs. }
    destruct (drain_has (@blank unit) (sends (queryClient c)) x batch Hsent) as [Ht He].
    unfold health_of, health in Hh. injection Hh as H1 H2 H3 H4 H5.
    unfold has_entry_labels in *. rewrite H1, H2, H3, H4. done.
Qed.

(** ** The scheduler takes steps of the relation *)

Lemma dispatcher_move_sound (i : nat) (w w' : @World float64) :
  dispatcher_move i w = Some w' -> dispatcher_step i w w'.
Proof.
  unfold dispatcher_move.
  destruct (dispatcher (scrapes w i)) as [[|a rest]|] eqn:Hd; try done.
  destruct (internal a) eqn:Ha; [|done]. intros [= <-]. by apply d_internal.
Qed.

Lemma receive_move_sound (clients : nat -> Client) (i : nat) (w w' : @World float64) :
  pc (scrapes w i) = PSetMetrics true ->
  receive_move i w = Some w' -> collector_step ParseFloat clients i w w'.
Proof.
  intros Hpc. unfold receive_move.
  assert (Hclosed :
    (if checks_closed (scrapes w i) then
       Some (mkWorld (fst (case_checks (exporter w) [] false)) (mutex w)
               (<[i := at_pc (PSetMetrics (snd (case_checks (exporter w) [] false)))
                         (scrapes w i)]> (scrapes w)))
     else if services_closed (scrapes w i) then
       Some (mkWorld (fst (case_services (exporter w) [] false)) (mutex w)
               (<[i := at_pc (PSetMetrics (snd (case_services (exporter w) [] false)))
                         (scrapes w i)]> (scrapes w)))
     else None) = Some w' -> collector_step ParseFloat clients i w w').
  { destruct (checks_closed (scrapes w i)) eqn:Hc.
    - intros [= <-]. by apply c_closed_checks.
    - destruct (services_closed (scrapes w i)) eqn:Hs; [|done].
      intros [= <-]. by apply c_closed_services. }
  destruct (dispatcher (scrapes w i)) as [[|a rest]|] eqn:Hd; try exact Hclosed.
  destruct a; try exact Hclosed.
  - intros [= <-]. by apply c_recv_services.
  - intros [= <-]. by apply c_recv_checks.
Qed.

Lemma collector_move_sound (clients : nat -> Client) (i : nat) (w w' : @World float64) :
  collector_move ParseFloat clients i w = Some w' -> collector_step ParseFloat clients i w w'.
Proof.
  unfold collector_move.
  destruct (pc (scrapes w i)) as [| | |[|]| | | | | |] eqn:Hpc; try (intros [= <-]).
  - by apply c_go.
  - destruct (mutex w) eqn:Hm; [done|]. intros [= <-]. by apply c_lock.
  - by apply c_reset.
  - by apply receive_move_sound.
  - by apply c_exit.
  - by apply c_collect.
  - by apply c_reset_kv.
  - by apply c_set_kv.
  - by apply c_collect_kv.
  - by apply c_unlock.
Qed.

Lemma run_reachable (clients : nat -> Client) (e0 : @Exporter float64) (ms : list Move)
    (w : World) :
  reachable ParseFloat clients e0 w ->
  reachable ParseFloat clients e0 (run ParseFloat clients ms w).
Proof.
  unfold reachable, run. revert w.
  induction ms as [|m ms IH]; intros w Hr; [done|].
  cbn [foldl]. apply IH.
  destruct (do_move ParseFloat clients m w) as [w'|] eqn:Hm; [|done].
  cbn [default]. eapply rtc_r; [exact Hr|].
  destruct m as [i|i]; exists i.
  - left. by apply collector_move_sound.
  - right. by apply dispatcher_move_sound.
Qed.

Lemma run_init_reachable (clients : nat -> Client) (e0 : @Exporter float64) (ms : list Move) :
  reachable ParseFloat clients e0 (run ParseFloat clients ms (init e0)).
Proof. apply run_reachable. apply rtc_refl. Qed.


End Cycle.

(** * The properties on sample runs *)

Lemma down_world_reachable :
  reachable Sample.parse (fun _ => Sample.client_down) Sample.exporter0 Sample.down_world.
Proof. apply run_init_reachable. Qed.

Lemma ok_world_reachable :
  reachable Sample.parse (fun _ => Sample.client_ok) Sample.exporter0 Sample.ok_world.
Proof. apply run_init_reachable. Qed.

Lemma race_world_reachable :
  reachable Sample.parse (fun _ => Sample.client_ok) Sample.exporter0 Sample.race_world.
Proof. apply run_init_reachable. Qed.

(** C1 on the sample batch: the entry of node [b] has a critical check and
    its flag is 0. *)
Lemma C1_witness :
  serviceNodesHealthy (fst (case_services Sample.exporter0 [Sample.web_a; Sample.web_b] true))
    !! ["web"; "b"] = Some 0.
Proof.
  destruct (C1_healthy_flag Sample.exporter0 [Sample.web_a] [] Sample.web_b true)
    as (st & v & _ & _ & Hv & Hall & _ & Hlast).
  assert (Hv0 : v = 0).
  { destruct Hv as [Hv|Hv]; [exact Hv|]. apply Hall in Hv.
    inversion Hv as [|hc l Hhc _]. vm_compute in Hhc. discriminate Hhc. }
  rewrite <- Hv0. apply Hlast. intros y Hy. by apply elem_of_nil in Hy.
Defined.

(** C2, as claimed for the whole cycle, fails: the backend answers two
    health queries with an entry of [("web", "a")]; the key is observed twice
    in the cycle, in two batches, and its entry-total gauge reads 1. *)
Lemma C2_counterexample :
  sends (queryClient Sample.client_twice)
  = [SentServices [Sample.web_a]; SentServices [Sample.web_a]; SentChecks []]
  /\ count_labels_cycle ["web"; "a"] (sends (queryClient Sample.client_twice)) = 2
  /\ serviceEntriesNodesTotal
       (drain (reset_health Sample.exporter0) (sends (queryClient Sample.client_twice)))
       !! ["web"; "a"] = Some 1
  /\ serviceEntriesNodesTotal
       (drain (reset_health Sample.exporter0) (sends (queryClient Sample.client_twice)))
       !! ["web"; "a"]
     <> Some (count_labels_cycle ["web"; "a"] (sends (queryClient Sample.client_twice))).
Proof. vm_compute. repeat split; congruence. Qed.

(** C2 on a batch with two entries of [web] on node [a] and one on node
    [b]: the gauges of [("web", "a")] read 2 and 2. *)
Lemma C2_witness :
  serviceEntriesNodesTotal
    (drain (reset_health Sample.exporter0)
       [SentServices [Sample.web_a; Sample.web_b; Sample.web_a]]) !! ["web"; "a"]
  = Some 2
  /\ serviceEntriesNodesHealthy
       (drain (reset_health Sample.exporter0)
          [SentServices [Sample.web_a; Sample.web_b; Sample.web_a]]) !! ["web"; "a"]
     = Some 2.
Proof.
  assert (Hshort : short_batches [SentServices [Sample.web_a; Sample.web_b; Sample.web_a]]).
  { intros batch Hb. apply list_elem_of_singleton in Hb. subst batch.
    vm_compute. discriminate. }
  destruct (C2_entry_counts Sample.exporter0
              [SentServices [Sample.web_a; Sample.web_b; Sample.web_a]] Hshort) as [_ H].
  apply (H [] [] [Sample.web_a; Sample.web_b; Sample.web_a] "web" "a" eq_refl).
  - exists Sample.web_a. split; [apply list_elem_of_here|reflexivity].
  - intros y Hy.
    repeat (apply elem_of_cons in Hy as [->|Hy]);
      [| |vm_compute; reflexivity|by apply elem_of_nil in Hy].
    + intros _. reflexivity.
    + vm_compute. discriminate.
  - constructor.
Defined.

(** C3, as claimed, fails: in a reachable world the loop of [setMetrics] has
    ended and the services channel is not closed. *)
Lemma C3_counterexample :
  reachable Sample.parse (fun _ => Sample.client_down) Sample.exporter0 Sample.down_world
  /\ pc (scrapes Sample.down_world 0%nat) = PSetMetrics false
  /\ services_closed (scrapes Sample.down_world 0%nat) = false.
Proof. split; [apply down_world_reachable|]. vm_compute. split; reflexivity. Qed.

(** C3 on that run: at the end of the loop the checks channel is closed and
    the gauges are those of the whole trace. *)
Lemma C3_witness :
  checks_closed (scrapes Sample.down_world 0%nat) = true
  /\ health (exporter Sample.down_world)
     = health_of (sends (queryClient Sample.client_down)).
Proof.
  assert (Hpc : pc (scrapes Sample.down_world 0%nat) = PSetMetrics false)
    by (vm_compute; reflexivity).
  destruct (C3_aggregator_exit Sample.parse (fun _ => Sample.client_down)
              Sample.exporter0 Sample.down_world 0%nat false down_world_reachable Hpc)
    as ((done & rest & _ & _ & _ & Hend) & _).
  destruct (Hend eq_refl) as (Hc & _ & Hh). split; [exact Hc|exact Hh].
Defined.


(** C5 fails on the code: [Collect] starts its dispatcher before it takes the
    lock.  A step that changes a vector gauge is taken by the call that holds
    the mutex; the scalar gauges are written by the dispatcher without it: in
    a reachable world call 0 holds the mutex and is in the loop of
    [setMetrics], call 1 has started its dispatcher and waits for the mutex,
    and the next step of the dispatcher of call 1 sets the availability gauge
    from 0 to 1. *)
Theorem C5_unlocked_write :
  (forall (clients : nat -> Client) (e0 : @Exporter Z) (w w' : World) (i : nat),
     reachable Sample.parse clients e0 w ->
     collector_step Sample.parse clients i w w' \/ dispatcher_step i w w' ->
     (health (exporter w'), keyValues (exporter w'))
     <> (health (exporter w), keyValues (exporter w)) ->
     mutex w = Some i)
  /\ reachable Sample.parse (fun _ => Sample.client_ok) Sample.exporter0 Sample.race_world
  /\ mutex Sample.race_world = Some 0%nat
  /\ pc (scrapes Sample.race_world 0%nat) = PSetMetrics true
  /\ pc (scrapes Sample.race_world 1%nat) = PLock
  /\ exists w' : @World Z,
       dispatcher_step 1%nat Sample.race_world w'
       /\ up (exporter Sample.race_world) = 0
       /\ up (exporter w') = 1.
Proof.
  split; [apply vector_writes_locked|].
  split; [apply race_world_reachable|].
  split; [vm_compute; reflexivity|]. split; [vm_compute; reflexivity|].
  split; [vm_compute; reflexivity|].
  destruct (dispatcher_move 1%nat Sample.race_world) as [w'|] eqn:Hm.
  - exists w'. split; [by apply dispatcher_move_sound|].
    split; [vm_compute; reflexivity|].
    vm_compute in Hm. injection Hm as <-. reflexivity.
  - vm_compute in Hm. discriminate Hm.
Qed.

(** The sample scrape gives the snapshot expected of three peers, two nodes,
    two service names and the two entries of [web]. *)
Example ok_world_snapshot :
  up (exporter Sample.ok_world) = 1
  /\ clusterServers (exporter Sample.ok_world) = 3
  /\ nodeCount (exporter Sample.ok_world) = 2
  /\ serviceCount (exporter Sample.ok_world) = 2
  /\ map_to_list (serviceNodesTotal (exporter Sample.ok_world)) = [(["web"], 2)]
  /\ serviceNodesHealthy (exporter Sample.ok_world) !! ["web"; "a"] = Some 1
  /\ serviceNodesHealthy (exporter Sample.ok_world) !! ["web"; "b"] = Some 0
  /\ serviceEntriesNodesTotal (exporter Sample.ok_world) !! ["web"; "a"] = Some 1
  /\ serviceEntriesNodesTotal (exporter Sample.ok_world) !! ["web"; "b"] = Some 1
  /\ serviceEntriesNodesHealthy (exporter Sample.ok_world) !! ["web"; "a"] = Some 1
  /\ serviceEntriesNodesHealthy (exporter Sample.ok_world) !! ["web"; "b"] = Some 0
  /\ map_to_list (nodeChecks (exporter Sample.ok_world)) = [(["serfHealth"; "a"], 1)]
  /\ map_to_list (keyValues (exporter Sample.ok_world)) = [(["kv/limit"], 12)].
Proof. vm_compute. repeat split; reflexivity. Qed.

(** C6 on the sample scrape: before [Unlock] the gauges are those of this
    scrape's values and listing. *)
Lemma C6_witness :
  health (exporter Sample.ok_world) = health_of (sends (queryClient Sample.client_ok))
  /\ keyValues (exporter Sample.ok_world)
     = kv_of Sample.parse Sample.client_ok Sample.exporter0.
Proof.
  assert (Hpc : pc (scrapes Sample.ok_world 0%nat) = PUnlock) by (vm_compute; reflexivity).
  destruct (C6_reset_then_rebuild Sample.parse (fun _ => Sample.client_ok)
              Sample.exporter0 Sample.ok_world 0%nat ok_world_reachable) as (Hh & Hk & _).
  rewrite Hpc in Hh, Hk. split.
  - exact (proj1 (Hh eq_refl)).
  - exact (proj1 (Hk eq_refl)).
Defined.

(** C7 on the backend whose service-name query returns two names and an
    error: the count is 2. *)
Lemma C7_witness :
  serviceCount (dispatch_effect Sample.exporter0 (queryClient Sample.client_services_error))
  = 2.
Proof.
  exact (proj2 (C7_service_count Sample.client_services_error eq_refl) Sample.exporter0).
Defined.

(** C8 on the sample backend: the health query for [db] fails, the one for
    [web] is still issued and its batch sent, and the gauges of [web] are
    there before [Unlock]. *)
Lemma C8_witness :
  health_calls (queryClient Sample.client_ok) = ["db"; "web"]
  /\ batches (sends (queryClient Sample.client_ok)) = [[Sample.web_a; Sample.web_b]]
  /\ is_Some (serviceNodesTotal (exporter Sample.ok_world) !! ["web"])
  /\ has_entry_labels (exporter Sample.ok_world) ["web"; "b"].
Proof.
  destruct (C8_failure_isolation Sample.parse Sample.client_ok eq_refl eq_refl)
    as (Hcalls & Hbatches & Hw).
  split; [exact Hcalls|]. split; [exact Hbatches|].
  assert (Hin : "web" ∈ map fst (fst (Catalog_Services Sample.client_ok))).
  { apply list_elem_of_further, list_elem_of_here. }
  assert (Hpast : past_setMetrics (pc (scrapes Sample.ok_world 0%nat)) = true)
    by (vm_compute; reflexivity).
  destruct (Hw "web" Sample.web_a [Sample.web_b] (fun _ => Sample.client_ok)
              Sample.exporter0 Sample.ok_world 0%nat Hin eq_refl eq_refl
              ok_world_reachable Hpast) as [Ht He].
  split; [exact Ht|]. apply (He Sample.web_b). apply list_elem_of_further, list_elem_of_here.
Defined.

(** C9 on the sample listing: [kv/limit] holds 12 and [kv/owner], whose
    value does not parse, has no entry. *)
Lemma C9_witness :
  keyValues (fst (setKeyValues Sample.parse Sample.client_ok
                    (with_keyValues ∅ Sample.exporter0))) !! ["kv/limit"] = Some 12
  /\ keyValues (fst (setKeyValues Sample.parse Sample.client_ok
                       (with_keyValues ∅ Sample.exporter0))) !! ["kv/owner"] = None.
Proof.
  destruct (C9_key_values Sample.parse Sample.client_ok Sample.exporter0)
    as (_ & _ & _ & Hlist).
  assert (Hp : kvPrefix Sample.exporter0 <> "") by (vm_compute; discriminate).
  destruct (Hlist _ Hp eq_refl) as [_ Hlook].
  assert (Hnd : NoDup (map KVPair.Key [KVPair.mk "kv/limit" "12"; KVPair.mk "kv/owner" "abc"])).
  { simpl. apply NoDup_cons. split; [|apply NoDup_singleton].
    intros H%list_elem_of_singleton. discriminate H. }
  split.
  - apply (Hlook Hnd (KVPair.mk "kv/limit" "12")). apply list_elem_of_here.
  - apply (Hlook Hnd (KVPair.mk "kv/owner" "abc")).
    apply list_elem_of_further, list_elem_of_here.
Defined.


(** * Further properties of the code *)

Section More.

Context {float64 : Type}.
Variable ParseFloat : string -> option float64.

(** ** The dispatcher *)

Lemma service_bodies_calls (c : Client) (names : list string) :
  calls (flat_map (service_body c) names) = QHealthService <$> names.
Proof.
  induction names as [|s names IH]; [done|].
  cbn [flat_map]. unfold calls in *. rewrite omap_app, IH.
  unfold service_body.
  by destruct (Health_Service c s) as [s_entries [err|]].
Qed.

(** X1: the backend calls of a scrape come in a fixed order: peers, nodes,
    service names, one health query per returned name in the order of the
    range, then the state query.  A failed peer query stops the calls after
    the first, a failed service-name query after the third; a failed node,
    health or state query stops nothing. *)
Theorem X1_call_order (c : Client) :
  calls (queryClient c)
  = match snd (Status_Peers c) with
    | Some _ => [QPeers]
    | None =>
        [QPeers; QNodes; QServices]
        ++ match snd (Catalog_Services c) with
           | Some _ => []
           | None => (QHealthService <$> map fst (fst (Catalog_Services c)))
                     ++ [QHealthState]
           end
    end.
Proof.
  unfold queryClient, queryClient_body.
  destruct (Status_Peers c) as [peers [perr|]]; [done|].
  destruct (Catalog_Nodes c) as [nodes nerr].
  destruct (Catalog_Services c) as [serviceNames [serr|]]; cbn [fst snd].
  - by destruct nerr.
  - pose proof (service_bodies_calls c (map fst serviceNames)) as Hsb.
    unfold calls in *.
    destruct (Health_State c) as [c_entries cerr].
    destruct nerr, cerr; cbn [app omap list_omap call_of];
      rewrite !omap_app, Hsb; cbn; rewrite ?app_nil_r; done.
Qed.

(** X2: the values the dispatcher sends are the batches of the health
    queries that succeed, in the order of the range, followed by the checks
    of the state query if it succeeds; nothing is sent when the peer or the
    service-name query fails.  Each channel is closed once, checks first,
    after the last send. *)
Theorem X2_channel_protocol (c : Client) :
  sends (queryClient c)
  = match snd (Status_Peers c), snd (Catalog_Services c) with
    | None, None =>
        (SentServices <$> omap (service_batch c) (map fst (fst (Catalog_Services c))))
        ++ match Health_State c with
           | (c_entries, None) => [SentChecks c_entries]
           | (_, Some _) => []
           end
    | _, _ => []
    end
  /\ exists body,
       queryClient c = body ++ [ACloseChecks; ACloseServices]
       /\ existsb is_close_checks body = false
       /\ existsb is_close_services body = false.
Proof.
  split.
  - destruct (snd (Status_Peers c)) as [perr|] eqn:Hp.
    + unfold queryClient, queryClient_body.
      destruct (Status_Peers c) as [peers perr']. simpl in Hp. by subst perr'.
    + destruct (snd (Catalog_Services c)) as [serr|] eqn:Hs.
      * unfold queryClient, queryClient_body.
        destruct (Status_Peers c) as [peers perr']. simpl in Hp. subst perr'.
        destruct (Catalog_Nodes c) as [nodes nerr].
        destruct (Catalog_Services c) as [serviceNames serr']. simpl in Hs. subst serr'.
        by destruct nerr.
      * by destruct (sends_trace c Hp Hs) as [-> _].
  - exists (queryClient_body c). split; [done|]. apply body_no_close.
Qed.

Lemma dispatch_effect_frame (tr : list Action) (e : @Exporter float64) :
  health (dispatch_effect e tr) = health e
  /\ keyValues (dispatch_effect e tr) = keyValues e
  /\ kv_config (dispatch_effect e tr) = kv_config e.
Proof.
  unfold dispatch_effect. induction tr as [|a tr IH] using rev_ind; [done|].
  rewrite foldl_snoc.
  destruct (action_exporter_frame a (foldl (fun e a => action_exporter a e) e tr))
    as (-> & -> & Hp & Hf).
  destruct IH as (-> & -> & <-). unfold kv_config. by rewrite Hp, Hf.
Qed.

(** X3: on its own the dispatcher writes the four scalar gauges only.  After
    a failed peer query the availability gauge is 0 and the other three are
    as before; otherwise availability is 1, the peer and service counts are
    the lengths of the returned lists, and the node count is the length of
    the returned node list, or as before when the node query fails. *)
Theorem X3_dispatch_scalars (c : Client) (e : @Exporter float64) :
  health (dispatch_effect e (queryClient c)) = health e
  /\ keyValues (dispatch_effect e (queryClient c)) = keyValues e
  /\ kv_config (dispatch_effect e (queryClient c)) = kv_config e
  /\ scalars (dispatch_effect e (queryClient c))
     = match snd (Status_Peers c) with
       | Some _ => (0, clusterServers e, nodeCount e, serviceCount e)
       | None =>
           (1, Z.of_nat (length (fst (Status_Peers c))),
            match snd (Catalog_Nodes c) with
            | Some _ => nodeCount e
            | None => Z.of_nat (length (fst (Catalog_Nodes c)))
            end,
            Z.of_nat (length (fst (Catalog_Services c))))
       end.
Proof.
  destruct (dispatch_effect_frame (queryClient c) e) as (Hh & Hk & Hc).
  split; [done|]. split; [done|]. split; [done|].
  unfold queryClient, queryClient_body.
  destruct (Status_Peers c) as [peers [perr|]]; [done|].
  destruct (Catalog_Nodes c) as [nodes nerr].
  destruct (Catalog_Services c) as [serviceNames serr]. cbn [fst snd].
  destruct nerr as [nerr|], serr as [serr|]; cbn [app];
    unfold dispatch_effect; cbn [foldl]; try reflexivity.
  all: rewrite !foldl_app.
  all: match goal with
       | |- context [foldl _ ?e0 (flat_map (service_body ?c0) ?l)] =>
           fold (dispatch_effect e0 (flat_map (service_body c0) l));
           rewrite service_bodies_effect
       end.
  all: by destruct (Health_State c) as [c_entries [cerr|]].
Qed.

(** ** The checks case of [setMetrics] *)

Lemma check_body_nodeChecks (e : @Exporter float64) (hc : HealthCheck.t) :
  nodeChecks (check_body e hc)
  = if String.eqb (HealthCheck.ServiceID hc) "" then
      <[check_labels hc :=
          if String.eqb (HealthCheck.Status hc) HealthPassing then 1 else 0]> (nodeChecks e)
    else nodeChecks e.
Proof.
  unfold check_body. destruct (String.eqb (HealthCheck.ServiceID hc) ""); [|done].
  by destruct (String.eqb (HealthCheck.Status hc) HealthPassing).
Qed.

Lemma checks_other (entry : list HealthCheck.t) (e : @Exporter float64) (lv : list string) :
  (forall hc, hc ∈ entry -> HealthCheck.ServiceID hc = "" -> check_labels hc <> lv) ->
  nodeChecks (foldl check_body e entry) !! lv = nodeChecks e !! lv.
Proof.
  induction entry as [|hc entry IH] using rev_ind; intros Hno; [done|].
  rewrite foldl_snoc, check_body_nodeChecks.
  assert (IH' : nodeChecks (foldl check_body e entry) !! lv = nodeChecks e !! lv).
  { apply IH. intros hc' Hin. apply Hno, elem_of_app. by left. }
  destruct (String.eqb_spec (HealthCheck.ServiceID hc) "") as [Hid|Hid]; [|done].
  rewrite lookup_insert_ne; [done|].
  apply Hno; [|done]. apply elem_of_app. right. by apply list_elem_of_singleton.
Qed.

(** X4: the checks case writes the per-(check, node) gauge for the checks
    that are not bound to a service, and for those only: such a check leaves
    1 under its (check id, node) when its status is passing and 0 otherwise,
    unless a later unbound check of the batch has the same labels; a label
    combination of no unbound check of the batch keeps what it had. *)
Theorem X4_node_checks (e : @Exporter float64) (pre post : list HealthCheck.t)
    (hc : HealthCheck.t) (b : bool) :
  (HealthCheck.ServiceID hc = "" ->
   (forall hc', hc' ∈ post -> HealthCheck.ServiceID hc' = "" ->
                check_labels hc' <> check_labels hc) ->
   nodeChecks (fst (case_checks e (pre ++ hc :: post) b)) !! check_labels hc
   = Some (if String.eqb (HealthCheck.Status hc) HealthPassing then 1 else 0))
  /\ (forall lv,
        (forall hc', hc' ∈ pre ++ hc :: post -> HealthCheck.ServiceID hc' = "" ->
                     check_labels hc' <> lv) ->
        nodeChecks (fst (case_checks e (pre ++ hc :: post) b)) !! lv = nodeChecks e !! lv).
Proof.
  unfold case_checks. cbn [fst]. split.
  - intros Hid Hpost. rewrite foldl_app. cbn [foldl].
    rewrite (checks_other post _ (check_labels hc) Hpost), check_body_nodeChecks.
    rewrite Hid. cbn [String.eqb]. apply lookup_insert_eq.
  - intros lv Hno. by apply checks_other.
Qed.

(** ** The per-service gauge *)

Lemma consume_total_other (e : @Exporter float64) (v : Sent) (s : string) :
  ~ names_service s v ->
  serviceNodesTotal (consume e v) !! [s] = serviceNodesTotal e !! [s].
Proof.
  destruct v as [[|x batch]|entry]; intros Hno.
  - done.
  - rewrite consume_services_cons.
    destruct (batch_frame (x :: batch) (mkBatchState (batch_start e x batch) ∅ ∅))
      as (_ & _ & _ & _ & Ht & _).
    cbn [bs_exporter] in Ht. rewrite Ht. unfold batch_start. simpl serviceNodesTotal.
    rewrite lookup_insert_ne; [done|]. intros [= Heq]. by apply Hno.
  - rewrite consume_checks.
    by destruct (check_body_frame entry e) as (_ & _ & _ & _ & -> & _).
Qed.

(** X5: the per-service gauge is overwritten, not summed: under the service
    of the first entry of a non-empty batch it holds the length of that
    batch, until a later non-empty batch starts with an entry of the same
    service. *)
Theorem X5_service_total_last_batch (e : @Exporter float64) (pre post : list Sent)
    (x : ServiceEntry.t) (batch : list ServiceEntry.t) :
  Forall (fun v => ~ names_service (AgentService.Service (ServiceEntry.Service x)) v) post ->
  serviceNodesTotal (drain e (pre ++ SentServices (x :: batch) :: post))
    !! [AgentService.Service (ServiceEntry.Service x)]
  = Some (Z.of_nat (length (x :: batch))).
Proof.
  intros Hpost. unfold drain. rewrite foldl_app. cbn [foldl].
  induction post as [|v post IH] using rev_ind.
  - cbn [foldl]. rewrite consume_services_cons.
    destruct (batch_frame (x :: batch)
                (mkBatchState (batch_start (foldl consume e pre) x batch) ∅ ∅))
      as (_ & _ & _ & _ & Ht & _).
    cbn [bs_exporter] in Ht. rewrite Ht. unfold batch_start. simpl serviceNodesTotal.
    apply lookup_insert_eq.
  - apply Forall_app in Hpost as [Hpost Hv]. rewrite Forall_singleton in Hv.
    rewrite foldl_snoc, consume_total_other by done. by apply IH.
Qed.

(** ** A batch of one service *)

Lemma append_inj_l (s a b : string) : s +:+ a = s +:+ b -> a = b.
Proof. induction s as [|ch s IH]; simpl; [done|]. intros [= H]. by apply IH. Qed.

(** X6: a batch whose entries are all of the service [s], as a health query
    for [s] returns it, has no two keys with the same concatenation: after
    it the per-service gauge of [s] is the length of the batch, and for every
    node of the batch the entry-total gauge of ([s], node) is the number of
    entries of the batch on that node and the entry-healthy-count gauge the
    number of those whose checks are all passing. *)
Theorem X6_one_service_batch (e : @Exporter float64) (s : string) (x : ServiceEntry.t)
    (batch : list ServiceEntry.t) (b : bool) :
  Z.of_nat (length (x :: batch)) <= int_max ->
  (forall y, y ∈ x :: batch -> AgentService.Service (ServiceEntry.Service y) = s) ->
  serviceNodesTotal (fst (case_services e (x :: batch) b)) !! [s]
  = Some (Z.of_nat (length (x :: batch)))
  /\ forall y, y ∈ x :: batch ->
       serviceEntriesNodesTotal (fst (case_services e (x :: batch) b))
         !! [s; Node.Node (ServiceEntry.Node y)]
       = Some (count_labels [s; Node.Node (ServiceEntry.Node y)] (x :: batch))
       /\ serviceEntriesNodesHealthy (fst (case_services e (x :: batch) b))
            !! [s; Node.Node (ServiceEntry.Node y)]
          = Some (count_labels_passing [s; Node.Node (ServiceEntry.Node y)] (x :: batch)).
Proof.
  intros Hlen Hs. rewrite case_services_cons. cbn [fst]. split.
  - destruct (batch_frame (x :: batch) (mkBatchState (batch_start e x batch) ∅ ∅))
      as (_ & _ & _ & _ & Ht & _).
    cbn [bs_exporter] in Ht. rewrite Ht. unfold batch_start. simpl serviceNodesTotal.
    rewrite (Hs x) by apply list_elem_of_here. apply lookup_insert_eq.
  - intros y Hy.
    assert (Hlv : entry_labels y = [s; Node.Node (ServiceEntry.Node y)]).
    { unfold entry_labels. by rewrite (Hs y Hy). }
    rewrite <- Hlv. apply batch_gauges; [done|done|].
    intros z Hz Hsn. unfold entry_labels. rewrite (Hs z Hz), (Hs y Hy).
    unfold serviceNode in Hsn. rewrite (Hs z Hz), (Hs y Hy) in Hsn.
    apply append_inj_l in Hsn. apply (append_inj_l "-") in Hsn. by rewrite Hsn.
Qed.

(** ** The three (service, node) gauges agree *)

Lemma batch_agree (batch : list ServiceEntry.t) (e : @Exporter float64) :
  Z.of_nat (length batch) <= int_max ->
  entry_gauges_agree e ->
  entry_gauges_agree (bs_exporter (foldl entry_body (mkBatchState e ∅ ∅) batch)).
Proof.
  induction batch as [|y batch IH] using rev_ind; intros Hlen He; [done|].
  rewrite length_app in Hlen. simpl in Hlen.
  assert (Hl : Z.of_nat (length batch) <= int_max) by lia.
  intros lv.
  rewrite foldl_snoc, entry_body_gauge_flag, entry_body_gauge_total, entry_body_gauge_healthy.
  pose proof (local_maps batch e Hl (serviceNode y)) as [Ht Hh].
  pose proof (count_serviceNode_bounds (serviceNode y) batch) as Hb.
  destruct (decide (entry_labels y = lv)) as [<-|Hne].
  - rewrite !lookup_insert_eq. rewrite Ht, Hh.
    destruct (passing_loop_cases (ServiceEntry.Checks y)) as [Hp|Hp]; rewrite Hp;
      cbn [Z.eqb Pos.eqb]; rewrite !int_add_1 by lia; lia.
  - rewrite !lookup_insert_ne by done. by apply IH.
Qed.

Lemma consume_agree (e : @Exporter float64) (v : Sent) :
  short_batches [v] -> entry_gauges_agree e -> entry_gauges_agree (consume e v).
Proof.
  intros Hshort He. destruct v as [[|x batch]|entry].
  - done.
  - rewrite consume_services_cons. apply batch_agree.
    + apply Hshort. simpl. apply list_elem_of_singleton. reflexivity.
    + exact He.
  - rewrite consume_checks. intros lv.
    destruct (check_body_frame entry e) as (_ & _ & _ & _ & _ & -> & -> & -> & _).
    apply He.
Qed.

(** X7: in the gauges a cycle leaves from the reset gauges, the three gauges
    labelled by (service, node) have the same label combinations, and under
    each the flag is 0 or 1, the entry total at least 1, the healthy count
    between 0 and the total, at least 1 when the flag is 1 and below the
    total when the flag is 0. *)
Theorem X7_entry_gauges_agree (e : @Exporter float64) (vs : list Sent) :
  short_batches vs ->
  entry_gauges_agree (drain (reset_health e) vs).
Proof.
  unfold drain. induction vs as [|v vs IH] using rev_ind; intros Hshort.
  - intros lv. simpl. by rewrite !lookup_empty.
  - apply short_batches_app in Hshort as [Hvs Hv].
    rewrite foldl_snoc. apply consume_agree; [done|]. by apply IH.
Qed.

(** ** The key/value stage *)

Lemma pairs_keep (post : list KVPair.t) (e : @Exporter float64) (k : string) :
  (forall q, q ∈ post -> KVPair.Key q = k -> ParseFloat (KVPair.Value q) = None) ->
  keyValues (foldl (pair_body ParseFloat) e post) !! [k] = keyValues e !! [k].
Proof using Type.
  induction post as [|q post IH] using rev_ind; intros Hno; [done|].
  rewrite foldl_snoc, pair_body_keyValues.
  assert (IH' : keyValues (foldl (pair_body ParseFloat) e post) !! [k] = keyValues e !! [k]).
  { apply IH. intros q' Hin. apply Hno, elem_of_app. by left. }
  destruct (kvFilter _ (KVPair.Key q)); [|done].
  destruct (ParseFloat (KVPair.Value q)) as [val|] eqn:Hv; [|done].
  rewrite lookup_insert_ne; [done|]. intros [= Hk].
  rewrite (Hno q) in Hv; [done| |done].
  apply elem_of_app. right. by apply list_elem_of_singleton.
Qed.

(** X8: a failed listing leaves the exporter as it is, after the one call;
    among listed pairs with the same key the last whose value parses decides:
    a pair whose key matches the filter and whose value parses leaves its
    value under its key when no later pair of the listing with that key
    parses. *)
Theorem X8_key_values_last_pair (c : Client) (e : @Exporter float64) :
  kvPrefix e <> "" ->
  (forall pairs err,
     KV_List c (kvPrefix e) = (pairs, Some err) ->
     setKeyValues ParseFloat c e = (e, [QKVList (kvPrefix e)]))
  /\ (forall pre post pair val,
        KV_List c (kvPrefix e) = (pre ++ pair :: post, None) ->
        kvFilter e (KVPair.Key pair) = true ->
        ParseFloat (KVPair.Value pair) = Some val ->
        (forall q, q ∈ post -> KVPair.Key q = KVPair.Key pair ->
                   ParseFloat (KVPair.Value q) = None) ->
        keyValues (fst (setKeyValues ParseFloat c e)) !! [KVPair.Key pair] = Some val).
Proof using Type.
  intros Hp.
  assert (Hnb : String.eqb (kvPrefix e) "" = false) by by apply String.eqb_neq.
  split.
  - intros pairs err Hl. unfold setKeyValues. by rewrite Hnb, Hl.
  - intros pre post pair val Hl Hk Hv Hpost. unfold setKeyValues. rewrite Hnb, Hl.
    cbn [fst]. rewrite foldl_app. cbn [foldl].
    rewrite (pairs_keep post _ (KVPair.Key pair) Hpost), pair_body_keyValues.
    destruct (pairs_frame ParseFloat pre e) as (_ & _ & _ & _ & _ & _ & Hf).
    simpl in Hf. rewrite Hf, Hk, Hv. apply lookup_insert_eq.
Qed.

(** ** Who writes what *)

Lemma consume_scalars (e : @Exporter float64) (v : Sent) :
  scalars (consume e v) = scalars e.
Proof.
  unfold scalars. destruct v as [[|x batch]|entry].
  - done.
  - rewrite consume_services_cons.
    by destruct (batch_frame (x :: batch) (mkBatchState (batch_start e x batch) ∅ ∅))
      as (-> & -> & -> & -> & _).
  - rewrite consume_checks.
    by destruct (check_body_frame entry e) as (-> & -> & -> & -> & _).
Qed.

(** X9: [setMetrics] writes the five health gauges only and [setKeyValues]
    the key/value gauge only: neither touches the scalar gauges, the prefix
    or the filter, [setMetrics] leaves the key/value gauge and [setKeyValues]
    the health gauges as they are. *)
Theorem X9_write_separation (c : Client) (e : @Exporter float64) (rs : list Received) :
  (scalars (setMetrics e rs) = scalars e
   /\ keyValues (setMetrics e rs) = keyValues e
   /\ kv_config (setMetrics e rs) = kv_config e)
  /\ (scalars (fst (setKeyValues ParseFloat c e)) = scalars e
      /\ health (fst (setKeyValues ParseFloat c e)) = health e
      /\ kv_config (fst (setKeyValues ParseFloat c e)) = kv_config e).
Proof using Type.
  split.
  - revert e. induction rs as [|r rs IH]; intros e; [done|].
    cbn [setMetrics].
    assert (Hr : scalars (fst (select_case e r)) = scalars e
                 /\ keyValues (fst (select_case e r)) = keyValues e
                 /\ kv_config (fst (select_case e r)) = kv_config e).
    { unfold scalars, kv_config. destruct r as [[|x batch] b|entry b]; cbn [select_case].
      - done.
      - rewrite case_services_cons. cbn [fst].
        by destruct (batch_frame (x :: batch) (mkBatchState (batch_start e x batch) ∅ ∅))
          as (-> & -> & -> & -> & _ & _ & -> & -> & ->).
      - unfold case_checks. cbn [fst].
        by destruct (check_body_frame entry e)
          as (-> & -> & -> & -> & _ & _ & _ & _ & -> & -> & ->). }
    destruct (select_case e r) as [e' running]. cbn [fst] in Hr.
    destruct Hr as (Hs & Hk & Hc).
    destruct running; [|done].
    destruct (IH e') as (-> & -> & ->). done.
  - unfold setKeyValues. destruct (String.eqb _ _); [done|].
    destruct (KV_List c (kvPrefix e)) as [pairs [err|]]; [done|]. cbn [fst].
    unfold scalars, kv_config.
    by destruct (pairs_frame ParseFloat pairs e) as (-> & -> & -> & -> & -> & -> & ->).
Qed.

(** ** The mutex *)

(** X10: at most one call of [Collect] is between its [Lock] and its
    [Unlock], the mutex is held by that call, and it is free exactly when no
    call is there. *)
Theorem X10_mutual_exclusion (clients : nat -> Client) (e0 : @Exporter float64) (w : World) :
  reachable ParseFloat clients e0 w ->
  (forall i j, holds_lock (pc (scrapes w i)) = true ->
               holds_lock (pc (scrapes w j)) = true -> i = j)
  /\ (forall i, mutex w = Some i <-> holds_lock (pc (scrapes w i)) = true)
  /\ (mutex w = None <-> forall i, holds_lock (pc (scrapes w i)) = false).
Proof using Type.
  intros Hr. destruct (reachable_inv ParseFloat clients e0 w Hr) as (Hinv & _ & _).
  split; [|split].
  - intros i j. apply (lock_unique ParseFloat (clients i) (clients j)); apply Hinv.
  - intros i. destruct (Hinv i) as (Hlock & _). by symmetry.
  - split.
    + intros Hm i. destruct (Hinv i) as (Hlock & _).
      destruct (holds_lock (pc (scrapes w i))); [|done].
      destruct Hlock as [Hl _]. rewrite Hm in Hl. by specialize (Hl eq_refl).
    + intros Hno. destruct (mutex w) as [k|] eqn:Hm; [|done].
      destruct (Hinv k) as (Hlock & _). apply Hlock in Hm. by rewrite Hno in Hm.
Qed.

(** ** No deadlock *)

Lemma loop_can_end_frame (clients : nat -> Client) (e0 : @Exporter float64) (i : nat)
    (rest : list Action) :
  forall w : World,
    reachable ParseFloat clients e0 w ->
    pc (scrapes w i) = PSetMetrics true ->
    dispatcher (scrapes w i) = Some rest ->
    exists w', rtc (step ParseFloat clients) w w'
               /\ pc (scrapes w' i) = PSetMetrics false
               /\ forall k, k <> i -> scrapes w' k = scrapes w k.
Proof using Type.
  induction rest as [|a rest IH]; intros w Hr Hpc Hd.
  - destruct (reachable_inv ParseFloat clients e0 w Hr) as (Hinv & _ & _).
    destruct (Hinv i) as (_ & Hdi). rewrite Hd in Hdi.
    destruct Hdi as (_ & done & Hq & _ & Hcc & _).
    rewrite app_nil_r in Hq. rewrite <- Hq, trace_closes in Hcc.
    eexists. split; [|split].
    + apply rtc_once. exists i. left. by apply c_closed_checks.
    + cbn [scrapes]. rewrite fn_lookup_insert. reflexivity.
    + intros k Hk. cbn [scrapes]. by rewrite fn_lookup_insert_ne.
  - assert (Hnext : exists w1, step ParseFloat clients w w1
                               /\ pc (scrapes w1 i) = PSetMetrics true
                               /\ dispatcher (scrapes w1 i) = Some rest
                               /\ forall k, k <> i -> scrapes w1 k = scrapes w k).
    { destruct (internal a) eqn:Ha.
      - eexists. split; [exists i; right; by apply (d_internal i w a rest)|].
        cbn [scrapes]. rewrite fn_lookup_insert.
        destruct (action_scrape_spec a rest (scrapes w i)) as (-> & -> & _).
        split; [done|]. split; [done|]. intros k Hk. by rewrite fn_lookup_insert_ne.
      - destruct a; try discriminate Ha.
        + eexists. split; [exists i; left; by apply (c_recv_services _ _ i w s_entries rest)|].
          cbn [scrapes]. rewrite fn_lookup_insert. cbn [pc dispatcher].
          rewrite case_services_frame_b.
          split; [done|]. split; [done|]. intros k Hk. by rewrite fn_lookup_insert_ne.
        + eexists. split; [exists i; left; by apply (c_recv_checks _ _ i w c_entries rest)|].
          cbn [scrapes]. rewrite fn_lookup_insert.
          split; [done|]. split; [done|]. intros k Hk. by rewrite fn_lookup_insert_ne. }
    destruct Hnext as (w1 & Hstep & Hpc1 & Hd1 & Hfr1).
    assert (Hr1 : reachable ParseFloat clients e0 w1) by (eapply rtc_r; eauto).
    destruct (IH w1 Hr1 Hpc1 Hd1) as (w' & Hsteps & Hend & Hfr).
    exists w'. split; [by eapply rtc_l|]. split; [done|].
    intros k Hk. by rewrite (Hfr k Hk), (Hfr1 k Hk).
Qed.

Lemma finish_after_loop (clients : nat -> Client) (i : nat) (n : nat) :
  forall w : @World float64,
    steps_left (pc (scrapes w i)) = S n ->
    exists w', rtc (step ParseFloat clients) w w'
               /\ pc (scrapes w' i) = PDone
               /\ mutex w' = None
               /\ forall k, k <> i -> scrapes w' k = scrapes w k.
Proof using Type.
  induction n as [|n IH]; intros w Hn.
  - destruct (pc (scrapes w i)) as [| | |[|]| | | | | |] eqn:Hpc; try discriminate Hn.
    eexists. split; [apply rtc_once; exists i; left; by apply c_unlock|].
    cbn [scrapes mutex]. rewrite fn_lookup_insert.
    split; [done|]. split; [done|]. intros k Hk. by rewrite fn_lookup_insert_ne.
  - pose proof (collector_move_sound ParseFloat clients i w) as Hsound.
    unfold collector_move in Hsound.
    destruct (pc (scrapes w i)) as [| | |[|]| | | | | |] eqn:Hpc; try discriminate Hn.
    all: specialize (Hsound _ eq_refl).
    all: match type of Hsound with
         | collector_step _ _ _ _ ?w1 =>
             destruct (IH w1) as (w' & Hrtc & Hd & Hmx & Hfr);
               [cbn [scrapes]; rewrite fn_lookup_insert; cbn in Hn |- *; congruence|]
         end.
    all: exists w'; split; [eapply rtc_l; [exists i; left; exact Hsound|exact Hrtc]|].
    all: split; [done|]; split; [done|].
    all: intros k Hk; rewrite (Hfr k Hk); cbn [scrapes]; by rewrite fn_lookup_insert_ne.
Qed.

Lemma holder_can_finish (clients : nat -> Client) (e0 : @Exporter float64) (i : nat)
    (w : World) :
  reachable ParseFloat clients e0 w ->
  holds_lock (pc (scrapes w i)) = true ->
  exists w', rtc (step ParseFloat clients) w w'
             /\ pc (scrapes w' i) = PDone
             /\ mutex w' = None
             /\ forall k, k <> i -> scrapes w' k = scrapes w k.
Proof using Type.
  intros Hr Hl.
  assert (Hloop : forall w1 : World,
            reachable ParseFloat clients e0 w1 ->
            pc (scrapes w1 i) = PSetMetrics true ->
            exists w', rtc (step ParseFloat clients) w1 w'
                       /\ pc (scrapes w' i) = PDone
                       /\ mutex w' = None
                       /\ forall k, k <> i -> scrapes w' k = scrapes w1 k).
  { intros w1 Hr1 Hpc1.
    destruct (reachable_inv ParseFloat clients e0 w1 Hr1) as (Hinv & _ & _).
    destruct (Hinv i) as (_ & Hd).
    destruct (dispatcher (scrapes w1 i)) as [rest|] eqn:Hdi; [|destruct Hd; congruence].
    destruct (loop_can_end_frame clients e0 i rest w1 Hr1 Hpc1 Hdi)
      as (w2 & Hrtc2 & Hpc2 & Hfr2).
    destruct (finish_after_loop clients i 5 w2) as (w' & Hrtc & Hd' & Hmx & Hfr);
      [by rewrite Hpc2|].
    exists w'. split; [by etrans|]. split; [done|]. split; [done|].
    intros k Hk. by rewrite (Hfr k Hk), (Hfr2 k Hk). }
  destruct (pc (scrapes w i)) as [| | |[|]| | | | | |] eqn:Hpc; try discriminate Hl.
  - (* before the resets *)
    destruct (Hloop (mkWorld (reset_health (exporter w)) (mutex w)
                       (<[i := at_pc (PSetMetrics true) (scrapes w i)]> (scrapes w))))
      as (w' & Hrtc & Hd' & Hmx & Hfr).
    + eapply rtc_r; [exact Hr|]. exists i. left. by apply c_reset.
    + cbn [scrapes]. by rewrite fn_lookup_insert.
    + exists w'. split; [eapply rtc_l; [exists i; left; by apply c_reset|exact Hrtc]|].
      split; [done|]. split; [done|].
      intros k Hk. rewrite (Hfr k Hk). cbn [scrapes]. by rewrite fn_lookup_insert_ne.
  - by apply Hloop.
  - apply (finish_after_loop clients i 5). by rewrite Hpc.
  - apply (finish_after_loop clients i 4). by rewrite Hpc.
  - apply (finish_after_loop clients i 3). by rewrite Hpc.
  - apply (finish_after_loop clients i 2). by rewrite Hpc.
  - apply (finish_after_loop clients i 1). by rewrite Hpc.
  - apply (finish_after_loop clients i 0). by rewrite Hpc.
Qed.

Lemma waiting_can_finish (clients : nat -> Client) (e0 : @Exporter float64) (i : nat)
    (w : World) :
  reachable ParseFloat clients e0 w ->
  pc (scrapes w i) = PLock ->
  exists w', rtc (step ParseFloat clients) w w' /\ pc (scrapes w' i) = PDone.
Proof using Type.
  intros Hr Hpc.
  assert (Hfree : forall w1 : World,
            reachable ParseFloat clients e0 w1 ->
            pc (scrapes w1 i) = PLock -> mutex w1 = None ->
            exists w', rtc (step ParseFloat clients) w1 w' /\ pc (scrapes w' i) = PDone).
  { intros w1 Hr1 Hpc1 Hm1.
    destruct (holder_can_finish clients e0 i
                (mkWorld (exporter w1) (Some i) (<[i := at_pc PReset (scrapes w1 i)]> (scrapes w1))))
      as (w' & Hrtc & Hd & _).
    - eapply rtc_r; [exact Hr1|]. exists i. left. by apply c_lock.
    - cbn [scrapes]. by rewrite fn_lookup_insert.
    - exists w'. split; [|done]. eapply rtc_l; [exists i; left; by apply c_lock|exact Hrtc]. }
  destruct (mutex w) as [j|] eqn:Hm; [|by apply Hfree].
  destruct (reachable_inv ParseFloat clients e0 w Hr) as (Hinv & _ & _).
  assert (Hj : holds_lock (pc (scrapes w j)) = true) by (by apply (Hinv j)).
  assert (Hne : i <> j) by (intros ->; by rewrite Hpc in Hj).
  destruct (holder_can_finish clients e0 j w Hr Hj) as (w1 & Hrtc1 & _ & Hm1 & Hfr1).
  destruct (Hfree w1) as (w' & Hrtc & Hd).
  - unfold reachable in *. by etrans.
  - by rewrite (Hfr1 i Hne).
  - done.
  - exists w'. split; [by etrans|done].
Qed.

(** X11: neither the two channels nor the mutex can block a scrape for
    good: from every reachable state every call of [Collect], whether it has
    started or not, can be run to its return. *)
Theorem X11_scrape_can_finish (clients : nat -> Client) (e0 : @Exporter float64)
    (w : World) (i : nat) :
  reachable ParseFloat clients e0 w ->
  exists w', rtc (step ParseFloat clients) w w' /\ pc (scrapes w' i) = PDone.
Proof using Type.
  intros Hr.
  destruct (holds_lock (pc (scrapes w i))) eqn:Hl.
  { destruct (holder_can_finish clients e0 i w Hr Hl) as (w' & Hrtc & Hd & _). by exists w'. }
  destruct (pc (scrapes w i)) as [| | |[|]| | | | | |] eqn:Hpc; try discriminate Hl.
  - destruct (waiting_can_finish clients e0 i
                (mkWorld (exporter w) (mutex w)
                   (<[i := mkScrape PLock (Some (queryClient (clients i))) false false]>
                      (scrapes w)))) as (w' & Hrtc & Hd).
    + eapply rtc_r; [exact Hr|]. exists i. left. by apply c_go.
    + cbn [scrapes]. by rewrite fn_lookup_insert.
    + exists w'. split; [|done]. eapply rtc_l; [exists i; left; by apply c_go|exact Hrtc].
  - by apply (waiting_can_finish clients e0 i w).
  - exists w. split; [apply rtc_refl|done].
Qed.

(** ** The dispatcher outlives no send *)

Lemma trace_tail (c : Client) (done rest : list Action) :
  queryClient c = done ++ rest ->
  existsb is_close_checks done = true ->
  rest = [ACloseServices] \/ rest = [].
Proof.
  intros Hq Hc. unfold queryClient in Hq.
  destruct (body_no_close c) as [Hbc Hbs].
  apply app_eq_inv in Hq as [(k & Hbody & _)|(k & Hdone & Hk)].
  - rewrite Hbody, existsb_app in Hbc. apply orb_false_iff in Hbc as [Hbc _]. congruence.
  - subst done. rewrite existsb_app, Hbc in Hc. cbn [orb] in Hc.
    destruct k as [|a [|b [|? ?]]]; simplify_eq/=; auto.
Qed.

Lemma loop_over_closed (clients : nat -> Client) (e0 : @Exporter float64) (i : nat)
    (w : World) :
  reachable ParseFloat clients e0 w ->
  loop_over (pc (scrapes w i)) = true ->
  checks_closed (scrapes w i) = true.
Proof using Type.
  unfold reachable. revert w.
  apply (rtc_ind_r (fun w => loop_over (pc (scrapes w i)) = true ->
                             checks_closed (scrapes w i) = true)); [done|].
  intros w1 w2 Hr1 [j [Hc|Hd]] IH.
  - destruct (decide (j = i)) as [->|Hne].
    + destruct (reachable_inv ParseFloat clients e0 w1 Hr1) as (Hinv & _ & _).
      destruct Hc as [Hpc|Hpc Hm|Hpc|service rest Hpc Hdisp|entry rest Hpc Hdisp
                     |Hpc Hcl|Hpc Hcl|Hpc|Hpc|Hpc|Hpc|Hpc|Hpc];
        cbn [scrapes]; rewrite fn_lookup_insert; cbn [pc checks_closed at_pc];
        rewrite Hpc in IH; cbn [loop_over] in IH;
        rewrite ?case_services_frame_b; try done; try (intros _; by apply IH).
      intros _. destruct (Hinv i) as (_ & Hdi).
      destruct (dispatcher (scrapes w1 i)) as [rest|]; [|destruct Hdi; congruence].
      destruct Hdi as (_ & done & Hq & Hsc & Hcc & _).
      rewrite Hcc. apply (trace_after_close _ _ _ Hq). by rewrite <- Hsc.
    + destruct Hc; cbn [scrapes]; by rewrite fn_lookup_insert_ne.
  - destruct Hd as [a rest Hdisp Hint]. cbn [scrapes].
    destruct (decide (j = i)) as [->|Hne]; [|by rewrite fn_lookup_insert_ne].
    rewrite fn_lookup_insert.
    destruct (action_scrape_spec a rest (scrapes w1 i)) as (-> & _ & _ & ->).
    intros Hl. by rewrite (IH Hl).
Qed.

(** X12: the dispatcher goroutine is not left behind blocked: once the loop
    of [setMetrics] of its scrape has ended, and also after [Collect] has
    returned, all it has left to do is at most to close the services
    channel, which needs no receiver. *)
Theorem X12_dispatcher_not_left_blocked (clients : nat -> Client) (e0 : @Exporter float64)
    (w : World) (i : nat) :
  reachable ParseFloat clients e0 w ->
  loop_over (pc (scrapes w i)) = true ->
  checks_closed (scrapes w i) = true
  /\ (dispatcher (scrapes w i) = Some [ACloseServices]
      \/ dispatcher (scrapes w i) = Some []).
Proof using Type.
  intros Hr Hl. pose proof (loop_over_closed clients e0 i w Hr Hl) as Hc.
  split; [done|].
  destruct (reachable_inv ParseFloat clients e0 w Hr) as (Hinv & _ & _).
  destruct (Hinv i) as (_ & Hdi).
  destruct (dispatcher (scrapes w i)) as [rest|].
  - destruct Hdi as (_ & done & Hq & _ & Hcc & _). rewrite Hc in Hcc.
    destruct (trace_tail _ _ _ Hq (eq_sym Hcc)) as [-> | ->]; auto.
  - destruct Hdi as (Hgo & _). by rewrite Hgo in Hl.
Qed.

(** ** A scrape that runs alone *)

Lemma select_case_frame (e : @Exporter float64) (r : Received) :
  scalars (fst (select_case e r)) = scalars e
  /\ keyValues (fst (select_case e r)) = keyValues e
  /\ kv_config (fst (select_case e r)) = kv_config e.
Proof.
  unfold scalars, kv_config. destruct r as [[|x batch] b|entry b]; cbn [select_case].
  - done.
  - rewrite case_services_cons. cbn [fst].
    by destruct (batch_frame (x :: batch) (mkBatchState (batch_start e x batch) ∅ ∅))
      as (-> & -> & -> & -> & _ & _ & -> & -> & ->).
  - unfold case_checks. cbn [fst].
    by destruct (check_body_frame entry e)
      as (-> & -> & -> & -> & _ & _ & _ & _ & -> & -> & ->).
Qed.

Lemma drain_frame (vs : list Sent) (e : @Exporter float64) :
  scalars (drain e vs) = scalars e
  /\ keyValues (drain e vs) = keyValues e
  /\ kv_config (drain e vs) = kv_config e.
Proof.
  unfold drain. induction vs as [|v vs IH] using rev_ind; [done|].
  rewrite foldl_snoc. destruct IH as (<- & <- & <-).
  set (e1 := foldl consume e vs).
  destruct (select_case_frame e1 (received v)) as (Hs & Hk & Hc).
  by destruct v.
Qed.

Lemma setKeyValues_scalars (c : Client) (e : @Exporter float64) :
  scalars (fst (setKeyValues ParseFloat c e)) = scalars e.
Proof.
  unfold setKeyValues. destruct (String.eqb _ _); [done|].
  destruct (KV_List c (kvPrefix e)) as [pairs [err|]]; [done|]. cbn [fst].
  unfold scalars.
  by destruct (pairs_frame ParseFloat pairs e) as (-> & -> & -> & -> & _).
Qed.

Lemma drain_health_of (vs : list Sent) (e : @Exporter float64) :
  health e = health_of [] -> health (drain e vs) = health_of vs.
Proof.
  intros He. induction vs as [|v vs IH] using rev_ind; [done|].
  unfold drain. rewrite foldl_snoc. by apply health_of_snoc.
Qed.

Lemma exporter_ext (ea eb : @Exporter float64) :
  scalars ea = scalars eb ->
  health ea = health eb ->
  keyValues ea = keyValues eb ->
  kv_config ea = kv_config eb ->
  ea = eb.
Proof.
  destruct ea, eb. unfold scalars, health, kv_config. cbn.
  intros Hs Hh Hk Hc. by simplify_eq.
Qed.

Lemma queryClient_scalars (c : Client) (e : @Exporter float64) :
  scalars (dispatch_effect e (queryClient c))
  = match snd (Status_Peers c) with
    | Some _ => (0, clusterServers e, nodeCount e, serviceCount e)
    | None =>
        (1, Z.of_nat (length (fst (Status_Peers c))),
         match snd (Catalog_Nodes c) with
         | Some _ => nodeCount e
         | None => Z.of_nat (length (fst (Catalog_Nodes c)))
         end,
         Z.of_nat (length (fst (Catalog_Services c))))
    end.
Proof.
  unfold queryClient, queryClient_body.
  destruct (Status_Peers c) as [peers [perr|]]; [done|].
  destruct (Catalog_Nodes c) as [nodes nerr].
  destruct (Catalog_Services c) as [serviceNames serr]. cbn [fst snd].
  destruct nerr as [nerr|], serr as [serr|]; cbn [app];
    unfold dispatch_effect; cbn [foldl]; try reflexivity.
  all: rewrite !foldl_app.
  all: match goal with
       | |- context [foldl _ ?e0 (flat_map (service_body ?c0) ?l)] =>
           fold (dispatch_effect e0 (flat_map (service_body c0) l));
           rewrite service_bodies_effect
       end.
  all: by destruct (Health_State c) as [c_entries [cerr|]].
Qed.

Lemma Collect_alone_spec (c : Client) (e : @Exporter float64) :
  scalars (Collect_alone ParseFloat c e) = scalars (dispatch_effect e (queryClient c))
  /\ health (Collect_alone ParseFloat c e) = health_of (sends (queryClient c))
  /\ keyValues (Collect_alone ParseFloat c e) = kv_of ParseFloat c e
  /\ kv_config (Collect_alone ParseFloat c e) = kv_config e.
Proof.
  unfold Collect_alone. cbn zeta.
  rewrite setMetrics_drain by auto.
  set (e1 := dispatch_effect e (queryClient c)).
  set (e2 := drain (reset_health e1) (sends (queryClient c))).
  destruct (dispatch_effect_frame (queryClient c) e) as (_ & _ & Hc1). fold e1 in Hc1.
  destruct (drain_frame (sends (queryClient c)) (reset_health e1)) as (Hs2 & _ & Hc2).
  fold e2 in Hs2, Hc2.
  assert (Hc : kv_config e2 = kv_config e) by (by rewrite Hc2, <- Hc1).
  destruct (setKeyValues_frame ParseFloat c (with_keyValues ∅ e2)) as (Hh3 & Hp3 & Hf3).
  split; [|split; [|split]].
  - by rewrite setKeyValues_scalars.
  - rewrite Hh3. change (health (with_keyValues ∅ e2)) with (health e2).
    by apply drain_health_of.
  - change (kv_of ParseFloat c e2 = kv_of ParseFloat c e).
    unfold kv_config in Hc. apply kv_of_config; congruence.
  - unfold kv_config. rewrite Hp3, Hf3. exact Hc.
Qed.

Lemma collector_step_pc (clients : nat -> Client) (j : nat) (w1 w2 : @World float64) :
  collector_step ParseFloat clients j w1 w2 ->
  pc (scrapes w2 j) <> PGo /\ forall k, k <> j -> scrapes w2 k = scrapes w1 k.
Proof.
  intros Hc. split.
  - destruct Hc; cbn [scrapes]; by rewrite fn_lookup_insert.
  - intros k Hk. destruct Hc; cbn [scrapes]; by rewrite fn_lookup_insert_ne.
Qed.

Lemma dispatcher_step_pc (j : nat) (w1 w2 : @World float64) :
  dispatcher_step j w1 w2 ->
  dispatcher (scrapes w1 j) <> None
  /\ pc (scrapes w2 j) = pc (scrapes w1 j)
  /\ forall k, k <> j -> scrapes w2 k = scrapes w1 k.
Proof.
  intros [a rest Hd Hi]. split; [by rewrite Hd|]. cbn [scrapes]. split.
  - rewrite fn_lookup_insert. by destruct (action_scrape_spec a rest (scrapes w1 j)) as (-> & _).
  - intros k Hk. by rewrite fn_lookup_insert_ne.
Qed.

Lemma alone_step (clients : nat -> Client) (i : nat) (w1 w2 : @World float64) :
  step ParseFloat clients w1 w2 -> alone i w2 -> alone i w1.
Proof.
  intros [j [Hc|Hd]] Hal k Hk; specialize (Hal k Hk).
  - destruct (collector_step_pc clients j w1 w2 Hc) as (Hgo & Hoth).
    destruct (decide (k = j)) as [->|Hne]; [done|]. by rewrite <- (Hoth k Hne).
  - destruct (dispatcher_step_pc j w1 w2 Hd) as (_ & Hpc & Hoth).
    destruct (decide (k = j)) as [->|Hne]; [by rewrite <- Hpc|]. by rewrite <- (Hoth k Hne).
Qed.

Lemma action_scalars (a : Action) (ea eb : @Exporter float64) :
  scalars ea = scalars eb -> scalars (action_exporter a ea) = scalars (action_exporter a eb).
Proof.
  destruct ea, eb. unfold scalars. cbn. intros Hs. destruct a; cbn; by simplify_eq.
Qed.

Lemma alone_scalars (clients : nat -> Client) (e0 : @Exporter float64) (i : nat)
    (w : World) :
  reachable ParseFloat clients e0 w ->
  alone i w ->
  alone_inv ParseFloat (clients i) e0 w i.
Proof using Type.
  unfold reachable. revert w.
  apply (rtc_ind_r (fun w => alone i w -> alone_inv ParseFloat (clients i) e0 w i)).
  { intros _. split; [done|]. cbn. discriminate. }
  intros w1 w2 Hr1 Hstep IH Hal2.
  pose proof (alone_step clients i w1 w2 Hstep Hal2) as Hal1.
  specialize (IH Hal1). destruct IH as (IHs & IHd).
  destruct (reachable_inv ParseFloat clients e0 w1 Hr1) as (Hinv & _ & _).
  destruct Hstep as [j [Hc|Hd]].
  - destruct (decide (j = i)) as [->|Hne].
    2:{ destruct (collector_step_pc clients j w1 w2 Hc) as (Hgo & _).
        by specialize (Hal2 j Hne). }
    destruct (Hinv i) as (_ & Hdi).
    destruct Hc as [Hpc|Hpc Hm|Hpc|service rest Hpc Hdisp|entry rest Hpc Hdisp
                   |Hpc Hcl|Hpc Hcl|Hpc|Hpc|Hpc|Hpc|Hpc|Hpc];
      unfold alone_inv; cbn [scrapes exporter]; rewrite fn_lookup_insert;
      cbn [pc dispatcher at_pc].
    + split; [|discriminate].
      destruct (dispatcher (scrapes w1 i)) as [rest|]; [by destruct Hdi|].
      by exists [].
    + split; [done|discriminate].
    + split; [|discriminate].
      destruct (dispatcher (scrapes w1 i)) as [rest|]; [|done].
      destruct IHs as (done & Hq & Hs). by exists done.
    + split; [|discriminate]. rewrite Hdisp in IHs.
      destruct IHs as (done & Hq & Hs). exists (done ++ [ASendServices service]).
      split; [by rewrite <- app_assoc|].
      destruct (select_case_frame (exporter w1) (RecvServices service true)) as (Hf & _).
      cbn [select_case] in Hf. rewrite Hf, Hs.
      unfold dispatch_effect. by rewrite foldl_snoc.
    + split; [|discriminate]. rewrite Hdisp in IHs.
      destruct IHs as (done & Hq & Hs). exists (done ++ [ASendChecks entry]).
      split; [by rewrite <- app_assoc|].
      destruct (select_case_frame (exporter w1) (RecvChecks entry true)) as (Hf & _).
      cbn [select_case] in Hf. rewrite Hf, Hs.
      unfold dispatch_effect. by rewrite foldl_snoc.
    + split; [|discriminate].
      destruct (select_case_frame (exporter w1) (RecvServices [] false)) as (Hf & _).
      cbn [select_case] in Hf. rewrite Hf. exact IHs.
    + split; [|discriminate].
      destruct (select_case_frame (exporter w1) (RecvChecks [] false)) as (Hf & _).
      cbn [select_case] in Hf. rewrite Hf. exact IHs.
    + split; [done|discriminate].
    + split; [done|discriminate].
    + split; [done|discriminate].
    + split; [|discriminate]. rewrite setKeyValues_scalars. exact IHs.
    + split; [done|discriminate].
    + split; [done|]. intros _. split.
      * apply (cycle_health ParseFloat clients e0 w1 i Hr1). by rewrite Hpc.
      * apply (cycle_keyValues ParseFloat clients e0 w1 i Hr1). by rewrite Hpc.
  - destruct (decide (j = i)) as [->|Hne].
    2:{ destruct (dispatcher_step_pc j w1 w2 Hd) as (Hsome & _).
        destruct (Hinv j) as (_ & Hdj).
        destruct (dispatcher (scrapes w1 j)) as [rest|]; [|done].
        destruct Hdj as (Hgo & _). by specialize (Hal1 j Hne). }
    destruct Hd as [a rest Hdisp Hint].
    unfold alone_inv. cbn [scrapes exporter]. rewrite fn_lookup_insert.
    destruct (action_scrape_spec a rest (scrapes w1 i)) as (-> & -> & _).
    rewrite Hdisp in IHs. destruct IHs as (done & Hq & Hs). split.
    + exists (done ++ [a]). split; [by rewrite <- app_assoc|].
      unfold dispatch_effect. rewrite foldl_snoc. by apply action_scalars.
    + intros Hpc. destruct (IHd Hpc) as (Hh & Hk).
      by destruct (action_exporter_frame a (exporter w1)) as (-> & -> & _).
Qed.

(** X13: a call of [Collect] that no other call overlaps leaves the exporter
    as the sequential composition [Collect_alone] does, however its dispatcher
    and its loop interleave: this holds from the return of [setKeyValues] on,
    after the return of [Collect] too. *)
Theorem X13_uncontended_scrape (clients : nat -> Client) (e0 : @Exporter float64)
    (w : World) (i : nat) :
  reachable ParseFloat clients e0 w ->
  alone i w ->
  past_setKeyValues (pc (scrapes w i)) = true \/ pc (scrapes w i) = PDone ->
  exporter w = Collect_alone ParseFloat (clients i) e0.
Proof using Type.
  intros Hr Hal Hpc.
  destruct (Collect_alone_spec (clients i) e0) as (Hcs & Hch & Hck & Hcc).
  destruct (alone_scalars clients e0 i w Hr Hal) as (Hs & Hd).
  destruct (reachable_inv ParseFloat clients e0 w Hr) as (Hinv & Hp & Hf).
  assert (Hover : loop_over (pc (scrapes w i)) = true).
  { destruct Hpc as [Hpc| ->]; [|done]. by destruct (pc (scrapes w i)) as [| | |[]| | | | | |]. }
  apply exporter_ext.
  - rewrite Hcs.
    pose proof (loop_over_closed clients e0 i w Hr Hover) as Hcl.
    destruct (Hinv i) as (_ & Hdi).
    destruct (dispatcher (scrapes w i)) as [rest|].
    2:{ destruct Hdi as (Hgo & _). by rewrite Hgo in Hover. }
    destruct Hs as (done & Hq & ->).
    destruct Hdi as (_ & done' & Hq' & _ & Hcc' & _).
    assert (done' = done) as -> by (apply (app_inv_tail rest); congruence).
    rewrite Hcl in Hcc'.
    rewrite Hq. unfold dispatch_effect. rewrite foldl_app.
    by destruct (trace_tail _ _ _ Hq (eq_sym Hcc')) as [-> | ->].
  - rewrite Hch. destruct Hpc as [Hpc|Hpc].
    + apply (cycle_health ParseFloat clients e0 w i Hr).
      by destruct (pc (scrapes w i)) as [| | |[]| | | | | |].
    + by destruct (Hd Hpc).
  - rewrite Hck. destruct Hpc as [Hpc|Hpc].
    + by apply (cycle_keyValues ParseFloat clients e0 w i Hr).
    + by destruct (Hd Hpc).
  - rewrite Hcc. unfold kv_config. by rewrite Hp, Hf.
Qed.


(** X15: when the peer and the node query succeed, a scrape keeps nothing of
    the gauges it finds: two exporters with the same prefix and filter are
    equal after it.  Only the prefix and the filter are carried over. *)
Theorem X15_scrape_forgets (c : Client) (ea eb : @Exporter float64) :
  snd (Status_Peers c) = None ->
  snd (Catalog_Nodes c) = None ->
  kv_config ea = kv_config eb ->
  Collect_alone ParseFloat c ea = Collect_alone ParseFloat c eb.
Proof using Type.
  intros Hp Hn Hcfg.
  destruct (Collect_alone_spec c ea) as (Hs & Hh & Hk & Hc).
  destruct (Collect_alone_spec c eb) as (Hs' & Hh' & Hk' & Hc').
  apply exporter_ext.
  - rewrite Hs, Hs', !queryClient_scalars. by rewrite Hp, Hn.
  - by rewrite Hh, Hh'.
  - rewrite Hk, Hk'. unfold kv_config in Hcfg. apply kv_of_config; congruence.
  - by rewrite Hc, Hc'.
Qed.

(** ** Label values and label names *)

Lemma labels_fit_other {V : Type} (f : Field) (m m' : gmap (list string) V) :
  labels_fit f m ->
  (forall lv, length lv <> length (labelNames (desc f)) -> m' !! lv = m !! lv) ->
  labels_fit f m'.
Proof.
  intros Hm Hoth lv Hs.
  destruct (decide (length lv = length (labelNames (desc f)))) as [|Hne]; [done|].
  rewrite (Hoth lv Hne) in Hs. by apply Hm.
Qed.

Lemma labels_fit_insert {V : Type} (f : Field) (m : gmap (list string) V)
    (k : list string) (v : V) :
  labels_fit f m ->
  length k = length (labelNames (desc f)) ->
  labels_fit f (<[k := v]> m).
Proof.
  intros Hm Hk lv Hs. destruct (decide (k = lv)) as [<-|Hne]; [done|].
  rewrite lookup_insert_ne in Hs by done. by apply Hm.
Qed.

Lemma labels_fit_empty {V : Type} (f : Field) : labels_fit f (∅ : gmap (list string) V).
Proof. intros lv Hs. rewrite lookup_empty in Hs. by destruct Hs. Qed.

Lemma select_case_arity (e : @Exporter float64) (r : Received) :
  arity_ok e -> arity_ok (fst (select_case e r)).
Proof.
  intros (Ht & Hh & Het & Heh & Hn & Hk).
  destruct r as [[|x batch] b|entry b]; cbn [select_case].
  - done.
  - rewrite case_services_cons. cbn [fst].
    set (st := mkBatchState (batch_start e x batch) ∅ ∅).
    destruct (batch_frame (x :: batch) st) as (_ & _ & _ & _ & Ht' & Hn' & Hk' & _).
    cbn [bs_exporter st] in Ht', Hn', Hk'.
    assert (Hoth : forall lv, length lv <> 2%nat ->
                     forall y, y ∈ x :: batch -> entry_labels y <> lv).
    { intros lv Hlv y _ <-. by apply Hlv. }
    unfold arity_ok. rewrite Ht', Hn', Hk'.
    split; [|split; [|split; [|split; [|split]]]]; try done.
    + by apply labels_fit_insert.
    + apply (labels_fit_other _ _ _ Hh). intros lv Hlv.
      by destruct (batch_gauges_other (x :: batch) st lv (Hoth lv Hlv)) as (_ & _ & ->).
    + apply (labels_fit_other _ _ _ Het). intros lv Hlv.
      by destruct (batch_gauges_other (x :: batch) st lv (Hoth lv Hlv)) as (-> & _ & _).
    + apply (labels_fit_other _ _ _ Heh). intros lv Hlv.
      by destruct (batch_gauges_other (x :: batch) st lv (Hoth lv Hlv)) as (_ & -> & _).
  - unfold case_checks. cbn [fst].
    destruct (check_body_frame entry e)
      as (_ & _ & _ & _ & Ht' & Hh' & Het' & Heh' & Hk' & _).
    cbn zeta in Ht', Hh', Het', Heh', Hk'.
    unfold arity_ok. rewrite Ht', Hh', Het', Heh', Hk'.
    split; [|split; [|split; [|split; [|split]]]]; try done.
    apply (labels_fit_other _ _ _ Hn). intros lv Hlv.
    apply checks_other. intros hc _ _ <-. by apply Hlv.
Qed.

Lemma setKeyValues_arity (c : Client) (e : @Exporter float64) :
  arity_ok e -> arity_ok (fst (setKeyValues ParseFloat c e)).
Proof.
  intros Hok. unfold setKeyValues. destruct (String.eqb _ _); [done|].
  destruct (KV_List c (kvPrefix e)) as [pairs [err|]]; [done|]. cbn [fst].
  destruct (pairs_frame ParseFloat pairs e) as (_ & _ & _ & _ & Hh & _).
  cbn zeta in Hh. unfold health in Hh. injection Hh as Ht' Hh' Het' Heh' Hn'.
  destruct Hok as (Ht & Hh & Het & Heh & Hn & Hk).
  unfold arity_ok. rewrite Ht', Hh', Het', Heh', Hn'.
  split; [|split; [|split; [|split; [|split]]]]; try done.
  apply (labels_fit_other _ _ _ Hk). intros lv Hlv.
  apply pairs_other. intros p _ <-. by apply Hlv.
Qed.

Lemma reachable_arity (clients : nat -> Client) (e0 : @Exporter float64) (w : World) :
  arity_ok e0 ->
  reachable ParseFloat clients e0 w ->
  arity_ok (exporter w).
Proof using Type.
  intros Hok. unfold reachable. revert w.
  apply (rtc_ind_r (fun w => arity_ok (exporter w))); [done|].
  intros w1 w2 _ [j [Hc|Hd]] IH.
  - destruct Hc as [Hpc|Hpc Hm|Hpc|service rest Hpc Hdisp|entry rest Hpc Hdisp
                   |Hpc Hcl|Hpc Hcl|Hpc|Hpc|Hpc|Hpc|Hpc|Hpc]; cbn [exporter].
    + done.
    + done.
    + destruct IH as (_ & _ & _ & _ & _ & Hk).
      repeat split; try apply labels_fit_empty. exact Hk.
    + by apply (select_case_arity (exporter w1) (RecvServices service true)).
    + by apply (select_case_arity (exporter w1) (RecvChecks entry true)).
    + by apply (select_case_arity (exporter w1) (RecvServices [] false)).
    + by apply (select_case_arity (exporter w1) (RecvChecks [] false)).
    + done.
    + done.
    + destruct IH as (Ht & Hh & Het & Heh & Hn & _).
      repeat split; try done. apply labels_fit_empty.
    + by apply setKeyValues_arity.
    + done.
    + done.
  - destruct Hd as [a rest _ _]. cbn [exporter]. by destruct a.
Qed.

Lemma elem_of_vec_collect {V : Type} (f : Field) (m : gmap (list string) V) (s : Series) :
  s ∈ vec_collect f m <-> fst s = f /\ is_Some (m !! snd s).
Proof.
  unfold vec_collect. rewrite list_elem_of_fmap. split.
  - intros ([lv v] & -> & Hin). apply elem_of_map_to_list in Hin. cbn. by rewrite Hin.
  - intros (Hf & v & Hv). exists (snd s, v). split.
    + destruct s as [f' lv]. cbn in *. by subst f'.
    + by apply elem_of_map_to_list.
Qed.

Lemma checks_has (entry : list HealthCheck.t) (e : @Exporter float64) (hc : HealthCheck.t) :
  hc ∈ entry ->
  HealthCheck.ServiceID hc = "" ->
  is_Some (nodeChecks (foldl check_body e entry) !! check_labels hc).
Proof.
  induction entry as [|hc' entry IH] using rev_ind; intros Hin Hid.
  - by apply elem_of_nil in Hin.
  - rewrite foldl_snoc, check_body_nodeChecks.
    apply elem_of_app in Hin as [Hin|Hin].
    + specialize (IH Hin Hid).
      destruct (String.eqb (HealthCheck.ServiceID hc') ""); [|done].
      destruct (decide (check_labels hc' = check_labels hc)) as [->|Hne].
      * rewrite lookup_insert_eq. by eexists.
      * by rewrite lookup_insert_ne.
    + apply list_elem_of_singleton in Hin as <-. rewrite Hid. cbn.
      rewrite lookup_insert_eq. by eexists.
Qed.

(** X16: every metric [Collect] sends carries exactly as many label values
    as its metric was created with label names in [NewExporter], whatever the
    backend answers and however the scrapes interleave, provided the exporter
    started that way, as the one [NewExporter] returns does. *)
Theorem X16_label_arity (clients : nat -> Client) (e0 : @Exporter float64) (w : World)
    (s : Series) :
  arity_ok e0 ->
  reachable ParseFloat clients e0 w ->
  s ∈ collect_health (exporter w) ++ collect_kv (exporter w) ->
  length (snd s) = length (labelNames (desc (fst s))).
Proof using Type.
  intros Hok Hr Hs.
  destruct (reachable_arity clients e0 w Hok Hr) as (Ht & Hh & Het & Heh & Hn & Hk).
  unfold collect_health, collect_kv in Hs.
  rewrite !elem_of_app, !elem_of_cons, !elem_of_vec_collect in Hs.
  repeat match goal with H : _ \/ _ |- _ => destruct H as [H|H] end.
  all: first [ by subst s
             | by apply elem_of_nil in Hs
             | destruct s as [f lv]; destruct Hs as [Hf Hsome]; cbn [fst snd] in *;
               subst f; auto ].
Qed.

(** X17: [Describe] announces the metric of every field whose metrics
    [Collect] sends, except that of [nodeChecks]: a check that is not bound
    to a service puts a metric of the undescribed [agent_check] on the
    channel of [Collect].  The ten metrics have ten distinct names. *)
Theorem X17_describe_omits_node_checks (e : @Exporter float64) :
  (forall s, s ∈ collect_health e ++ collect_kv e ->
             desc (fst s) ∈ Describe \/ fst s = f_nodeChecks)
  /\ (desc f_nodeChecks ∉ Describe)
  /\ (forall entry hc,
        hc ∈ entry -> HealthCheck.ServiceID hc = "" ->
        (f_nodeChecks, check_labels hc)
          ∈ collect_health (fst (select_case e (RecvChecks entry true))))
  /\ NoDup (GaugeOpts.Name <$> (opts <$> (desc f_nodeChecks :: Describe))).
Proof using Type.
  split; [|split; [|split]].
  - intros s Hs. unfold collect_health, collect_kv in Hs.
    rewrite !elem_of_app, !elem_of_cons, !elem_of_vec_collect in Hs.
    repeat match goal with H : _ \/ _ |- _ => destruct H as [H|H] end.
    all: try (by apply elem_of_nil in Hs).
    all: assert (Hf : exists f, fst s = f
                      /\ (f = f_nodeChecks \/ desc f ∈ Describe));
      [|destruct Hf as (f & -> & [Hf|Hf]); by auto].
    all: first [ subst s; cbn [fst]
               | destruct s as [f lv]; destruct Hs as [Hf _]; cbn [fst] in *; subst f ].
    all: eexists; split; [reflexivity|].
    all: first [ by left | right; unfold Describe; rewrite !elem_of_cons; auto 12 ].
  - unfold Describe. rewrite !elem_of_cons, elem_of_nil.
    intros H. repeat destruct H as [H|H]; try discriminate H. done.
  - intros entry hc Hin Hid. unfold collect_health.
    rewrite !elem_of_app. do 5 right. apply elem_of_vec_collect. split; [done|].
    cbn [select_case case_checks fst snd].
    by apply checks_has.
  - vm_compute.
    repeat (apply NoDup_cons; split;
            [rewrite ?elem_of_cons, elem_of_nil; intros H;
             repeat (destruct H as [H|H]; [discriminate H|]); exact H|]).
    apply NoDup_nil_2.
Qed.

End More.

(** * The further properties on sample runs *)

(** The sample exporter is the one [NewExporter] returns. *)
Lemma exporter0_new : Sample.exporter0 = NewExporter "kv/" (fun _ => true).
Proof. reflexivity. Qed.

(** X4 on three checks: the unbound critical check of node [b] leaves 0. *)
Lemma X4_witness :
  nodeChecks
    (fst (case_checks Sample.exporter0
            ([Sample.check "serfHealth" "a" "passing" ""]
             ++ Sample.check "serfHealth" "b" "critical" ""
             :: [Sample.check "service:web" "b" "critical" "web"]) true))
    !! ["serfHealth"; "b"] = Some 0.
Proof.
  destruct (X4_node_checks Sample.exporter0
              [Sample.check "serfHealth" "a" "passing" ""]
              [Sample.check "service:web" "b" "critical" "web"]
              (Sample.check "serfHealth" "b" "critical" "") true) as [H _].
  apply H; [reflexivity|].
  intros hc' Hin Hid. apply list_elem_of_singleton in Hin. subst hc'. discriminate Hid.
Defined.

(** X5 on two batches of [web]: the gauge holds the length of the second. *)
Lemma X5_witness :
  serviceNodesTotal
    (drain Sample.exporter0
       ([SentServices [Sample.web_a]]
        ++ SentServices [Sample.web_a; Sample.web_b] :: [SentChecks []]))
    !! ["web"] = Some 2.
Proof.
  apply (X5_service_total_last_batch Sample.exporter0
           [SentServices [Sample.web_a]] [SentChecks []] Sample.web_a [Sample.web_b]).
  apply Forall_cons. split; [|apply Forall_nil_2]. intros H. exact H.
Defined.

(** X6 on a batch of [web] with two entries on node [a] and one on [b]. *)
Lemma X6_witness :
  serviceNodesTotal
    (fst (case_services Sample.exporter0 [Sample.web_a; Sample.web_b; Sample.web_a] true))
    !! ["web"] = Some 3
  /\ serviceEntriesNodesTotal
       (fst (case_services Sample.exporter0 [Sample.web_a; Sample.web_b; Sample.web_a] true))
       !! ["web"; "a"] = Some 2.
Proof.
  assert (Hlen : Z.of_nat (length [Sample.web_a; Sample.web_b; Sample.web_a]) <= int_max).
  { vm_compute. discriminate. }
  assert (Hs : forall y, y ∈ [Sample.web_a; Sample.web_b; Sample.web_a] ->
                         AgentService.Service (ServiceEntry.Service y) = "web").
  { intros y Hy. repeat (apply elem_of_cons in Hy as [->|Hy]); try reflexivity.
    by apply elem_of_nil in Hy. }
  destruct (X6_one_service_batch Sample.exporter0 "web" Sample.web_a
              [Sample.web_b; Sample.web_a] true Hlen Hs) as [Ht He].
  split; [exact Ht|].
  destruct (He Sample.web_a (list_elem_of_here _ _)) as [H _]. exact H.
Defined.

(** X7 on a cycle of one batch. *)
Lemma X7_witness :
  entry_gauges_agree
    (drain (reset_health Sample.exporter0) [SentServices [Sample.web_a; Sample.web_b]]).
Proof.
  apply X7_entry_gauges_agree.
  intros batch Hb. apply list_elem_of_singleton in Hb. subst batch.
  vm_compute. discriminate.
Defined.

(** X8 on the sample listing: [kv/limit] reads 12. *)
Lemma X8_witness :
  keyValues (fst (setKeyValues Sample.parse Sample.client_ok Sample.exporter0))
    !! ["kv/limit"] = Some 12.
Proof.
  assert (Hp : kvPrefix Sample.exporter0 <> "") by discriminate.
  destruct (X8_key_values_last_pair Sample.parse Sample.client_ok Sample.exporter0 Hp)
    as [_ H].
  apply (H [] [KVPair.mk "kv/owner" "abc"] (KVPair.mk "kv/limit" "12") 12);
    [reflexivity|reflexivity|reflexivity|].
  intros q Hq _. apply list_elem_of_singleton in Hq. subst q. reflexivity.
Defined.

(** X10 on the two concurrent scrapes of the sample. *)
Lemma X10_witness :
  (forall i j, holds_lock (pc (scrapes Sample.race_world i)) = true ->
               holds_lock (pc (scrapes Sample.race_world j)) = true -> i = j)
  /\ (forall i, mutex Sample.race_world = Some i
                <-> holds_lock (pc (scrapes Sample.race_world i)) = true)
  /\ (mutex Sample.race_world = None
      <-> forall i, holds_lock (pc (scrapes Sample.race_world i)) = false).
Proof.
  exact (X10_mutual_exclusion Sample.parse (fun _ => Sample.client_ok) Sample.exporter0
           Sample.race_world race_world_reachable).
Defined.

(** X11 on the two concurrent scrapes of the sample: the call that waits
    for the mutex can return. *)
Lemma X11_witness :
  exists w', rtc (step Sample.parse (fun _ => Sample.client_ok)) Sample.race_world w'
             /\ pc (scrapes w' 1%nat) = PDone.
Proof.
  exact (X11_scrape_can_finish Sample.parse (fun _ => Sample.client_ok) Sample.exporter0
           Sample.race_world 1%nat race_world_reachable).
Defined.

(** X12 on the scrape of the backend that is down. *)
Lemma X12_witness :
  checks_closed (scrapes Sample.down_world 0%nat) = true
  /\ (dispatcher (scrapes Sample.down_world 0%nat) = Some [ACloseServices]
      \/ dispatcher (scrapes Sample.down_world 0%nat) = Some []).
Proof.
  apply (X12_dispatcher_not_left_blocked Sample.parse (fun _ => Sample.client_down)
           Sample.exporter0 Sample.down_world 0%nat down_world_reachable).
  vm_compute. reflexivity.
Defined.

(** X13 on the whole scrape of the sample. *)
Lemma X13_witness :
  exporter Sample.ok_world = Collect_alone Sample.parse Sample.client_ok Sample.exporter0.
Proof.
  apply (X13_uncontended_scrape Sample.parse (fun _ => Sample.client_ok) Sample.exporter0
           Sample.ok_world 0%nat ok_world_reachable).
  - intros [|j] Hj; [congruence|]. vm_compute. reflexivity.
  - vm_compute. auto.
Defined.

(** X15 on the sample backend, from the new exporter and from one with a
    stale node count. *)
Lemma X15_witness :
  Collect_alone Sample.parse Sample.client_ok Sample.exporter0
  = Collect_alone Sample.parse Sample.client_ok (set_nodeCount 9 Sample.exporter0).
Proof.
  apply X15_scrape_forgets; reflexivity.
Defined.

(** X16 on the whole scrape of the sample: the metric of the check
    [serfHealth] of node [a]. *)
Lemma X16_witness :
  length (snd (f_nodeChecks, ["serfHealth"; "a"]))
  = length (labelNames (desc (fst (f_nodeChecks, ["serfHealth"; "a"])))).
Proof.
  apply (X16_label_arity Sample.parse (fun _ => Sample.client_ok) Sample.exporter0
           Sample.ok_world (f_nodeChecks, ["serfHealth"; "a"])).
  - repeat split; apply labels_fit_empty.
  - apply ok_world_reachable.
  - apply elem_of_app. left. unfold collect_health. rewrite !elem_of_app. do 5 right.
    apply elem_of_vec_collect. split; [reflexivity|]. vm_compute. by eexists.
Defined.

(** X17 on one unbound check. *)
Lemma X17_witness :
  (f_nodeChecks, ["serfHealth"; "a"])
    ∈ collect_health
        (fst (select_case Sample.exporter0
                (RecvChecks [Sample.check "serfHealth" "a" "passing" ""] true))).
Proof.
  destruct (X17_describe_omits_node_checks Sample.exporter0) as (_ & _ & H & _).
  apply (H [Sample.check "serfHealth" "a" "passing" ""]
           (Sample.check "serfHealth" "a" "passing" ""));
    [apply list_elem_of_here|reflexivity].
Defined.
